(** * Longstaff-Schwartz American option pricing on an accelerator

    A shallow embedding of the pricing engine ([do_run] and the kernels it
    launches) together with the properties stated about it.

    Conventions of the embedding.
    - A double is a real number ([R]); [exp], [sqrt], [fmax] and [abs] are
      [exp], [sqrt], [Rmax] and [Rabs].  Rounding and infinities are outside
      this model, and so is the NaN that rounding brings about inside the
      regression (a negative residue under a square root).  What the
      regression hands on can be NaN all the same: the coefficients that
      [update_cashflow_kernel] reads and the estimate it computes from them
      are a number or NaN ([double]), and its comparison with the estimate
      is false on NaN.
    - A division is the division of the reals, except for the reciprocals
      behind a zero guard, which are taken with a division that fails on a
      zero divisor ([checked_div]).
    - An [int] used as a size, an index or a loop counter is a [nat]; an
      [int] that is read from shared memory which may not have been written
      is a [Z].  Wrap-around of 32-bit indices is outside this model.
    - Device memory is a total map from indices to values; a pointer is a
      base array with an offset.
    - A kernel is run thread after thread in increasing (blockIdx,
      threadIdx) order, phase by phase where the source has barriers.
      Atomic additions are accumulated in that order. *)

From Stdlib Require Import String.
From Stdlib Require Import Reals Lra Lia ZArith List Bool Arith Psatz.
From Stdlib Require Import QArith Qround Permutation Sorted RNsatz.
Import ListNotations.

Open Scope R_scope.

(** ** Memory *)

Definition array (A : Type) : Type := nat -> A.

Definition store {A : Type} (a : array A) (i : nat) (v : A) : array A :=
  fun j => if Nat.eqb j i then v else a j.

(** [for_threads n body s] runs [body 0], [body 1], ..., [body (n-1)]. *)
Definition for_threads {St : Type} (n : nat) (body : nat -> St -> St)
  (s : St) : St :=
  fold_left (fun acc tid => body tid acc) (seq 0 n) s.

(** A launch [<<<grid, block>>>] of a kernel whose threads do not
    synchronise with each other. *)
Definition launch {St : Type} (grid_dim block_dim : nat)
  (kernel : nat -> nat -> St -> St) (s : St) : St :=
  for_threads grid_dim
    (fun blockIdx => for_threads block_dim (kernel blockIdx)) s.

(** Sum of the values [f 0 + ... + f (n-1)] accumulated from [init], the way
    [n] threads add into one shared cell. *)
Definition atomicAdd_all (n : nat) (f : nat -> R) (init : R) : R :=
  for_threads n (fun tid acc => acc + f tid) init.

(** ** Payoff *)

Inductive Payoff : Type :=
| PayoffCall (m_K : R)
| PayoffPut (m_K : R).

Definition payoff_value (p : Payoff) (S : R) : R :=
  match p with
  | PayoffCall m_K => Rmax (S - m_K) 0.0
  | PayoffPut m_K => Rmax (m_K - S) 0.0
  end.

Definition is_in_the_money (p : Payoff) (S : R) : bool :=
  match p with
  | PayoffCall m_K => if Rlt_dec m_K S then true else false
  | PayoffPut m_K => if Rlt_dec S m_K then true else false
  end.

(** ** generate_paths_kernel *)

Fixpoint generate_paths_loop (iters : nat) (num_paths : nat)
  (r_min_half_sigma_sq_dt sigma_sqrt_dt : R) (samples : array R)
  (S_ : R) (offset : nat) (paths : array R) : R * nat * array R :=
  match iters with
  | O => (S_, offset, paths)
  | Datatypes.S k =>
      let S_ := S_ * exp (r_min_half_sigma_sq_dt + sigma_sqrt_dt * samples offset) in
      generate_paths_loop k num_paths r_min_half_sigma_sq_dt sigma_sqrt_dt
        samples S_ (offset + num_paths) (store paths offset S_)
  end.

Definition generate_paths_kernel (NUM_THREADS_PER_BLOCK : nat)
  (num_timesteps num_paths : nat) (payoff : Payoff) (dt S0 r sigma : R)
  (samples : array R) (blockIdx threadIdx : nat) (paths : array R)
  : array R :=
  let path := (blockIdx * NUM_THREADS_PER_BLOCK + threadIdx)%nat in
  if (num_paths <=? path)%nat then paths
  else
    let r_min_half_sigma_sq_dt := (r - 0.5 * sigma * sigma) * dt in
    let sigma_sqrt_dt := sigma * sqrt dt in
    let '(S_, offset, paths) :=
      generate_paths_loop (num_timesteps - 1) num_paths
        r_min_half_sigma_sq_dt sigma_sqrt_dt samples S0 path paths in
    let S_ := S_ * exp (r_min_half_sigma_sq_dt + sigma_sqrt_dt * samples offset) in
    store paths offset (payoff_value payoff S_).

(** ** assemble_R

    The shared buffer [smem_svds] has [R_W_MATRICES_SMEM_SLOTS] = 12 slots
    (the build without [WITH_FULL_W_MATRIX]): the compact R in slots 0..5 and
    the upper half of W in slots 6..11. *)

Definition R_W_MATRICES_SMEM_SLOTS : nat := 12.

Record double3 : Type := make_double3 { d3x : R; d3y : R; d3z : R }.
Record double4 : Type := make_double4 { d4x : R; d4y : R; d4z : R; d4w : R }.

Definition double3_add (u v : double3) : double3 :=
  make_double3 (d3x u + d3x v) (d3y u + d3y v) (d3z u + d3z v).

Definition double4_add (u v : double4) : double4 :=
  make_double4 (d4x u + d4x v) (d4y u + d4y v) (d4z u + d4z v) (d4w u + d4w v).

Definition assemble_R (m : Z) (sums : double4) (smem_svds : array R)
  : array R :=
  let x0 := smem_svds 0%nat in
  let x1 := smem_svds 1%nat in
  let x2 := smem_svds 2%nat in
  let x0_sq := x0 * x0 in
  let sum1 := d4x sums - x0 in
  let sum2 := d4y sums - x0_sq in
  let sum3 := d4z sums - x0_sq * x0 in
  let sum4 := d4w sums - x0_sq * x0_sq in
  let m_as_dbl := IZR m in
  let sigma := m_as_dbl - 1.0 in
  let mu := sqrt m_as_dbl in
  let v0 := - sigma / (1.0 + mu) in
  let v0_sq := v0 * v0 in
  let beta := 2.0 * v0_sq / (sigma + v0_sq) in
  let inv_v0 := 1.0 / v0 in
  let one_min_beta := 1.0 - beta in
  let beta_div_v0 := beta * inv_v0 in
  let smem_svds := store smem_svds 0 mu in
  let smem_svds := store smem_svds 1 (one_min_beta * x0 - beta_div_v0 * sum1) in
  let smem_svds := store smem_svds 2 (one_min_beta * x0_sq - beta_div_v0 * sum2) in
  (* Rank update coefficients. *)
  let beta_div_v0_sq := beta_div_v0 * inv_v0 in
  let c1 := beta_div_v0_sq * sum1 + beta_div_v0 * x0 in
  let c2 := beta_div_v0_sq * sum2 + beta_div_v0 * x0_sq in
  (* 2nd step of QR. *)
  let x1_sq := x1 * x1 in
  let sum1 := sum1 - x1 in
  let sum2 := sum2 - x1_sq in
  let sum3 := sum3 - x1_sq * x1 in
  let sum4 := sum4 - x1_sq * x1_sq in
  let x0 := x1 - c1 in
  let x0_sq := x0 * x0 in
  let sigma := sum2 - 2.0 * c1 * sum1 + (m_as_dbl - 2.0) * c1 * c1 in
  let '(mu, v0, v0_sq, beta) :=
    if Rlt_dec (Rabs sigma) 1.0e-16 then (mu, v0, v0_sq, 0.0)
    else
      let mu := sqrt (x0_sq + sigma) in
      let v0 := if Rle_dec x0 0.0 then x0 - mu else - sigma / (x0 + mu) in
      let v0_sq := v0 * v0 in
      (mu, v0, v0_sq, 2.0 * v0_sq / (sigma + v0_sq)) in
  let inv_v0 := 1.0 / v0 in
  let beta_div_v0 := beta * inv_v0 in
  (* The coefficient to perform the rank update. *)
  let c3 := (sum3 - c1 * sum2 - c2 * sum1 + (m_as_dbl - 2.0) * c1 * c2) * beta_div_v0 in
  let c4 := (x1_sq - c2) * beta_div_v0 + c3 * inv_v0 in
  let c5 := c1 * c4 - c2 in
  let one_min_beta := 1.0 - beta in
  let smem_svds := store smem_svds 3 (one_min_beta * x0 - beta_div_v0 * sigma) in
  let smem_svds := store smem_svds 4 (one_min_beta * (x1_sq - c2) - c3) in
  (* 3rd step of QR. *)
  let x2_sq := x2 * x2 in
  let sum1 := sum1 - x2 in
  let sum2 := sum2 - x2_sq in
  let sum3 := sum3 - x2_sq * x2 in
  let sum4 := sum4 - x2_sq * x2_sq in
  let x0 := x2_sq - c4 * x2 + c5 in
  let sigma := sum4 - 2.0 * c4 * sum3 + (c4 * c4 + 2.0 * c5) * sum2
               - 2.0 * c4 * c5 * sum1 + (m_as_dbl - 3.0) * c5 * c5 in
  let '(mu, v0, v0_sq, beta) :=
    if Rlt_dec (Rabs sigma) 1.0e-12 then (mu, v0, v0_sq, 0.0)
    else
      let mu := sqrt (x0 * x0 + sigma) in
      let v0 := if Rle_dec x0 0.0 then x0 - mu else - sigma / (x0 + mu) in
      let v0_sq := v0 * v0 in
      (mu, v0, v0_sq, 2.0 * v0_sq / (sigma + v0_sq)) in
  store smem_svds 5 ((1.0 - beta) * x0 - (beta / v0) * sigma).

(** ** svd_3x3 *)

Definition off_diag_norm (A01 A02 A12 : R) : R :=
  sqrt (2.0 * (A01 * A01 + A02 * A02 + A12 * A12)).

(** The Jacobi matrix for the pair (p,q): the block
    [c = 1, s = 0; if (Apq != 0) { tau ...; c = ...; s = t*c; }]. *)
Definition jacobi_rotation (App Aqq Apq : R) : R * R :=
  if Req_dec_T Apq 0.0 then (1.0, 0.0)
  else
    let tau := (Aqq - App) / (2.0 * Apq) in
    let sgn := if Rlt_dec tau 0.0 then -1.0 else 1.0 in
    let t := sgn / (sgn * tau + sqrt (1.0 + tau * tau)) in
    let c := 1.0 / sqrt (1.0 + t * t) in
    let s := t * c in
    (c, s).

(** The symmetric matrix A (upper half) and the rows of V. *)
Record jacobi_state : Type := mkJacobi {
  jA00 : R; jA01 : R; jA02 : R; jA11 : R; jA12 : R; jA22 : R;
  jV00 : R; jV01 : R; jV02 : R;
  jV10 : R; jV11 : R; jV12 : R;
  jV20 : R; jV21 : R; jV22 : R }.

(** One iteration of the loop: the rotations for (0,1), (0,2) and (1,2). *)
Definition jacobi_sweep (st : jacobi_state) : jacobi_state :=
  let '(mkJacobi A00 A01 A02 A11 A12 A22
                 V00 V01 V02 V10 V11 V12 V20 V21 V22) := st in
  (* p=0 and q=1 *)
  let '(c, s) := jacobi_rotation A00 A11 A01 in
  let B00 := c * A00 - s * A01 in
  let B01 := s * A00 + c * A01 in
  let B10 := c * A01 - s * A11 in
  let B11 := s * A01 + c * A11 in
  let B02 := A02 in
  let A00 := c * B00 - s * B10 in
  let A01 := c * B01 - s * B11 in
  let A11 := s * B01 + c * B11 in
  let A02 := c * B02 - s * A12 in
  let A12 := s * B02 + c * A12 in
  let B00 := c * V00 - s * V01 in
  let V01 := s * V00 + c * V01 in
  let V00 := B00 in
  let B10 := c * V10 - s * V11 in
  let V11 := s * V10 + c * V11 in
  let V10 := B10 in
  let B20 := c * V20 - s * V21 in
  let V21 := s * V20 + c * V21 in
  let V20 := B20 in
  (* p=0 and q=2 *)
  let '(c, s) := jacobi_rotation A00 A22 A02 in
  let B00 := c * A00 - s * A02 in
  let B01 := c * A01 - s * A12 in
  let B02 := s * A00 + c * A02 in
  let B20 := c * A02 - s * A22 in
  let B22 := s * A02 + c * A22 in
  let A00 := c * B00 - s * B20 in
  let A12 := s * A01 + c * A12 in
  let A02 := c * B02 - s * B22 in
  let A22 := s * B02 + c * B22 in
  let A01 := B01 in
  let B00 := c * V00 - s * V02 in
  let V02 := s * V00 + c * V02 in
  let V00 := B00 in
  let B10 := c * V10 - s * V12 in
  let V12 := s * V10 + c * V12 in
  let V10 := B10 in
  let B20 := c * V20 - s * V22 in
  let V22 := s * V20 + c * V22 in
  let V20 := B20 in
  (* p=1 and q=2 *)
  let '(c, s) := jacobi_rotation A11 A22 A12 in
  let B02 := s * A01 + c * A02 in
  let B11 := c * A11 - s * A12 in
  let B12 := s * A11 + c * A12 in
  let B21 := c * A12 - s * A22 in
  let B22 := s * A12 + c * A22 in
  let A01 := c * A01 - s * A02 in
  let A02 := B02 in
  let A11 := c * B11 - s * B21 in
  let A12 := c * B12 - s * B22 in
  let A22 := s * B12 + c * B22 in
  let B01 := c * V01 - s * V02 in
  let V02 := s * V01 + c * V02 in
  let V01 := B01 in
  let B11 := c * V11 - s * V12 in
  let V12 := s * V11 + c * V12 in
  let V11 := B11 in
  let B21 := c * V21 - s * V22 in
  let V22 := s * V21 + c * V22 in
  let V21 := B21 in
  mkJacobi A00 A01 A02 A11 A12 A22 V00 V01 V02 V10 V11 V12 V20 V21 V22.

Definition max_iters : nat := 16.
Definition tolerance : R := 1.0e-12.

(** [for (iter = 0; off_diag_norm(...) >= tolerance && iter < max_iters; ++iter)],
    with [remaining = max_iters - iter]. *)
Fixpoint jacobi_loop (remaining : nat) (st : jacobi_state) : jacobi_state :=
  match remaining with
  | O => st
  | Datatypes.S k =>
      if Rle_dec tolerance (off_diag_norm (jA01 st) (jA02 st) (jA12 st))
      then jacobi_loop k (jacobi_sweep st)
      else st
  end.

(** Swap the columns to have S[0] >= S[1] >= S[2]. *)
Definition sort_eigenpairs (st : jacobi_state) : jacobi_state :=
  let '(mkJacobi A00 A01 A02 A11 A12 A22
                 V00 V01 V02 V10 V11 V12 V20 V21 V22) := st in
  let '(A00, A11, V00, V01, V10, V11, V20, V21) :=
    if Rlt_dec A00 A11 then (A11, A00, V01, V00, V11, V10, V21, V20)
    else (A00, A11, V00, V01, V10, V11, V20, V21) in
  let '(A00, A22, V00, V02, V10, V12, V20, V22) :=
    if Rlt_dec A00 A22 then (A22, A00, V02, V00, V12, V10, V22, V20)
    else (A00, A22, V00, V02, V10, V12, V20, V22) in
  let '(A11, A22, V01, V02, V11, V12, V21, V22) :=
    if Rlt_dec A11 A22 then (A22, A11, V02, V01, V12, V11, V22, V21)
    else (A11, A22, V01, V02, V11, V12, V21, V22) in
  mkJacobi A00 A01 A02 A11 A12 A22 V00 V01 V02 V10 V11 V12 V20 V21 V22.

(** A division by zero has no real number for a result: [checked_div a b]
    is [a / b] when [b] is not zero and fails otherwise.  The reciprocals of
    the eigenvalues (here) and of the diagonal of R (in
    [compute_partial_beta_kernel]) are taken with it, so that the function
    that takes one of them fails when it divides by zero. *)
Definition checked_div (a b : R) : option R :=
  if Req_dec_T b 0 then None else Some (a / b).

Notation "x <- e ;; k" :=
  (match e with Some x => k | None => None end)
  (at level 61, e at next level, right associativity, only parsing).

(** Invert the diagonal terms: [abs(A) < 1.0e-12 ? 0.0 : 1.0 / A]. *)
Definition inv_S (A : R) : option R :=
  if Rlt_dec (Rabs A) 1.0e-12 then Some 0.0 else checked_div 1.0 A.

(** The body of [svd_3x3]; it fails when a reciprocal of an eigenvalue
    divides by zero. *)
Definition svd_3x3_checked (m : Z) (sums : double4) (smem_svds : array R)
  : option (array R) :=
  let smem_svds := assemble_R m sums smem_svds in
  let R00 := smem_svds 0%nat in
  let R01 := smem_svds 1%nat in
  let R02 := smem_svds 2%nat in
  let R11 := smem_svds 3%nat in
  let R12 := smem_svds 4%nat in
  let R22 := smem_svds 5%nat in
  (* A = R^T R *)
  let A00 := R00 * R00 in
  let A01 := R00 * R01 in
  let A02 := R00 * R02 in
  let A11 := R01 * R01 + R11 * R11 in
  let A12 := R01 * R02 + R11 * R12 in
  let A22 := R02 * R02 + R12 * R12 + R22 * R22 in
  let st := mkJacobi A00 A01 A02 A11 A12 A22
                     1.0 0.0 0.0  0.0 1.0 0.0  0.0 0.0 1.0 in
  let st := jacobi_loop max_iters st in
  let '(mkJacobi A00 A01 A02 A11 A12 A22
                 V00 V01 V02 V10 V11 V12 V20 V21 V22) := sort_eigenpairs st in
  inv_S0 <- inv_S A00 ;;
  inv_S1 <- inv_S A11 ;;
  inv_S2 <- inv_S A22 ;;
  let U00 := V00 * inv_S0 in
  let U01 := V01 * inv_S1 in
  let U02 := V02 * inv_S2 in
  let U10 := V10 * inv_S0 in
  let U11 := V11 * inv_S1 in
  let U12 := V12 * inv_S2 in
  let U20 := V20 * inv_S0 in
  let U21 := V21 * inv_S1 in
  let U22 := V22 * inv_S2 in
  (* V*S^-1*V^T*R^T, upper half *)
  let B00 := U00 * V00 + U01 * V01 + U02 * V02 in
  let B01 := U00 * V10 + U01 * V11 + U02 * V12 in
  let B02 := U00 * V20 + U01 * V21 + U02 * V22 in
  let B11 := U10 * V10 + U11 * V11 + U12 * V12 in
  let B12 := U10 * V20 + U11 * V21 + U12 * V22 in
  let B22 := U20 * V20 + U21 * V21 + U22 * V22 in
  let smem_svds := store smem_svds 6 (B00 * R00 + B01 * R01 + B02 * R02) in
  let smem_svds := store smem_svds 7 (B01 * R11 + B02 * R12) in
  let smem_svds := store smem_svds 8 (B02 * R22) in
  let smem_svds := store smem_svds 9 (B11 * R11 + B12 * R12) in
  let smem_svds := store smem_svds 10 (B12 * R22) in
  Some (store smem_svds 11 (B22 * R22)).

(** [svd_3x3] as [prepare_svd_kernel] calls it: the buffer with R and W in
    it. *)
Definition svd_3x3 (m : Z) (sums : double4) (smem_svds : array R)
  : array R :=
  match svd_3x3_checked m sums smem_svds with
  | Some smem_svds' => smem_svds'
  | None => smem_svds
  end.

(** ** prepare_svd_kernel

    One block per timestep.  The threads of a block move through the loop in
    step (there are barriers in its body); in round [k] thread [tid] handles
    [path = tid + k * NUM_THREADS_PER_BLOCK] and takes part only while
    [path < num_paths].  Shared memory starts with unknown contents: what
    [scan_input] and [smem_svds] hold when the block starts is a parameter
    ([shared0]). *)

Record svd_block : Type := mkSvdBlock {
  b_scan_input : array Z;      (* __shared__ int scan_input[] *)
  b_smem_svds : array R;       (* __shared__ double smem_svds[] *)
  b_m : array Z;               (* per thread: int m *)
  b_sums : array double4;      (* per thread: double4 sums *)
  b_found_paths : array Z }.   (* per thread: int found_paths *)

Definition for_loop {St : Type} (n : nat) (body : nat -> St -> St) (s : St)
  : St := for_threads n body s.

Section PrepareSvd.

Variable NUM_THREADS_PER_BLOCK : nat.
Variable num_paths : nat.
Variable min_in_the_money : Z.
Variable payoff : Payoff.
Variable paths : array R.

(** [double S = 0.0; if (path < num_paths) S = paths[offset + path];] *)
Definition svd_load_price (offset path : nat) : R :=
  if (path <? num_paths)%nat then paths (offset + path)%nat else 0.0.

Definition svd_in_the_money (offset path : nat) : Z :=
  Z.b2z (is_in_the_money payoff (svd_load_price offset path)).

(** The scan done by thread 0:
    [scan_output[0] = 0; for i in 1..NUM_THREADS_PER_BLOCK:
       scan_output[i] = scan_output[i-1] + scan_input[i-1]]. *)
Definition exclusive_scan (scan_input : array Z) : array Z :=
  for_loop NUM_THREADS_PER_BLOCK
    (fun j scan_output =>
       store scan_output (Datatypes.S j) (scan_output j + scan_input j)%Z)
    (store (fun _ => 0%Z) 0%nat 0%Z).

Definition svd_round (offset k : nat) (st : svd_block) : svd_block :=
  let path_of tid := (tid + k * NUM_THREADS_PER_BLOCK)%nat in
  let active tid := (path_of tid <? num_paths)%nat in
  (* scan_input[threadIdx.x] = in_the_money; *)
  let scan_input :=
    for_threads NUM_THREADS_PER_BLOCK
      (fun tid scan_input =>
         if active tid
         then store scan_input tid (svd_in_the_money offset (path_of tid))
         else scan_input)
      (b_scan_input st) in
  let scan_output := exclusive_scan scan_input in
  let total_sum := scan_output NUM_THREADS_PER_BLOCK in
  (* if (found_paths < 3) { ... smem_svds[found_paths + partial_sum] = S; ... } *)
  let smem_svds :=
    for_threads NUM_THREADS_PER_BLOCK
      (fun tid smem_svds =>
         let found_paths := b_found_paths st tid in
         let partial_sum := scan_output tid in
         if active tid && (found_paths <? 3)%Z
            && negb (svd_in_the_money offset (path_of tid) =? 0)%Z
            && (found_paths + partial_sum <? 3)%Z
         then store smem_svds (Z.to_nat (found_paths + partial_sum))
                (svd_load_price offset (path_of tid))
         else smem_svds)
      (b_smem_svds st) in
  let found_paths tid :=
    let found_paths := b_found_paths st tid in
    if active tid && (found_paths <? 3)%Z
    then (found_paths + total_sum)%Z else found_paths in
  (* lsum = 0; atomicOr(&lsum, in_the_money); *)
  let lsum :=
    for_threads NUM_THREADS_PER_BLOCK
      (fun tid lsum =>
         if active tid
         then Z.lor lsum (svd_in_the_money offset (path_of tid))
         else lsum)
      0%Z in
  (* if (lsum == 0) continue; m += in_the_money; sums += ... *)
  let m tid :=
    if active tid && negb (lsum =? 0)%Z
    then (b_m st tid + svd_in_the_money offset (path_of tid))%Z
    else b_m st tid in
  let sums tid :=
    if active tid && negb (lsum =? 0)%Z
    then
      let S_ := svd_load_price offset (path_of tid) in
      let in_the_money := svd_in_the_money offset (path_of tid) in
      let x := if (in_the_money =? 0)%Z then 0.0 else S_ in
      let x_sq := if (in_the_money =? 0)%Z then 0.0 else S_ * S_ in
      double4_add (b_sums st tid)
        (make_double4 x x_sq (x_sq * x) (x_sq * x_sq))
    else b_sums st tid in
  mkSvdBlock scan_input smem_svds m sums found_paths.

(** Number of rounds of the loop: the rounds in which thread 0 is active. *)
Definition svd_rounds : nat :=
  ((num_paths + NUM_THREADS_PER_BLOCK - 1) / NUM_THREADS_PER_BLOCK)%nat.

Definition svd_block_init (shared0 : array Z * array R) : svd_block :=
  mkSvdBlock (fst shared0)
    (* if (threadIdx.x < R_W_MATRICES_SMEM_SLOTS) smem_svds[threadIdx.x] = 0.0 *)
    (for_threads NUM_THREADS_PER_BLOCK
       (fun tid smem_svds =>
          if (tid <? R_W_MATRICES_SMEM_SLOTS)%nat
          then store smem_svds tid 0.0 else smem_svds)
       (snd shared0))
    (fun _ => 0%Z)
    (fun _ => make_double4 0.0 0.0 0.0 0.0)
    (fun _ => 0%Z).

Definition svd_scan_paths (offset : nat) (shared0 : array Z * array R)
  : svd_block :=
  for_loop svd_rounds (svd_round offset) (svd_block_init shared0).

(** The block of timestep [blockIdx]; it updates the flags and [svds]. *)
Definition prepare_svd_block (shared0 : array Z * array R) (blockIdx : nat)
  (mem : array Z * array R) : array Z * array R :=
  let '(all_out_of_the_money, svds) := mem in
  let timestep := blockIdx in
  let offset := (timestep * num_paths)%nat in
  let st := svd_scan_paths offset shared0 in
  (* lsum = 0; atomicAdd(&lsum, m); *)
  let lsum :=
    for_threads NUM_THREADS_PER_BLOCK
      (fun tid lsum => (lsum + b_m st tid)%Z) 0%Z in
  (* only thread 0 can have not_enough_paths = 1 *)
  let not_enough_paths tid := (tid =? 0)%nat && (lsum <? min_in_the_money)%Z in
  let all_out_of_the_money :=
    if not_enough_paths 0%nat then store all_out_of_the_money blockIdx 1%Z
    else all_out_of_the_money in
  let lsums :=
    for_threads NUM_THREADS_PER_BLOCK
      (fun tid lsums => double4_add lsums (b_sums st tid))
      (make_double4 0.0 0.0 0.0 0.0) in
  let smem_svds :=
    if not_enough_paths 0%nat then b_smem_svds st
    else svd_3x3 lsum lsums (b_smem_svds st) in
  let svds :=
    for_threads NUM_THREADS_PER_BLOCK
      (fun tid svds =>
         if negb (not_enough_paths tid)
            && (tid <? R_W_MATRICES_SMEM_SLOTS)%nat
         then store svds (16 * blockIdx + tid) (smem_svds tid)
         else svds)
      svds in
  (all_out_of_the_money, svds).

End PrepareSvd.

(** The launch [<<<grid_dim, NUM_THREADS_PER_BLOCK>>>]: one block after the
    other; [shared0 b] is what block [b] finds in its shared memory. *)
Definition prepare_svd_kernel (NUM_THREADS_PER_BLOCK grid_dim : nat)
  (num_paths : nat) (min_in_the_money : Z) (payoff : Payoff)
  (paths : array R) (shared0 : nat -> array Z * array R)
  (mem : array Z * array R) : array Z * array R :=
  for_threads grid_dim
    (fun blockIdx =>
       prepare_svd_block NUM_THREADS_PER_BLOCK num_paths min_in_the_money
         payoff paths (shared0 blockIdx) blockIdx)
    mem.

(** ** Grid-stride loops

    [for (path = start; path < num_paths; path += stride) body(path)].
    With [stride >= 1] the loop body runs fewer than [num_paths] + 1 times,
    which is the fuel [grid_stride_loop] gives it. *)

Fixpoint stride_loop {St : Type} (fuel : nat) (num_paths stride : nat)
  (body : nat -> St -> St) (path : nat) (s : St) : St :=
  match fuel with
  | O => s
  | Datatypes.S f =>
      if (path <? num_paths)%nat
      then stride_loop f num_paths stride body (path + stride) (body path s)
      else s
  end.

Definition grid_stride_loop {St : Type} (num_paths stride : nat)
  (body : nat -> St -> St) (start : nat) (s : St) : St :=
  stride_loop num_paths num_paths stride body start s.

(** ** compute_partial_beta_kernel *)

(** [R != 0.0 ? __drcp_rn(R) : 0.0] *)
Definition inv_R (R_ : R) : option R :=
  if Req_dec_T R_ 0.0 then Some 0.0 else checked_div 1.0 R_.

(** The row of the pseudo-inverse for a path of price [S_]: the reciprocals
    of the diagonal of R and the body of the loop up to [WI0], [WI1], [WI2].
    It fails when a reciprocal divides by zero. *)
Definition pseudo_inverse_row_checked (shared_svd : array R) (S_ : R)
  : option double3 :=
  let R00 := shared_svd 0%nat in
  let R01 := shared_svd 1%nat in
  let R02 := shared_svd 2%nat in
  let R11 := shared_svd 3%nat in
  let R12 := shared_svd 4%nat in
  let R22 := shared_svd 5%nat in
  let W00 := shared_svd 6%nat in
  let W01 := shared_svd 7%nat in
  let W02 := shared_svd 8%nat in
  let W11 := shared_svd 9%nat in
  let W12 := shared_svd 10%nat in
  let W22 := shared_svd 11%nat in
  inv_R00 <- inv_R R00 ;;
  inv_R11 <- inv_R R11 ;;
  inv_R22 <- inv_R R22 ;;
  let inv_R01 := inv_R00 * inv_R11 * R01 in
  let inv_R02 := inv_R00 * inv_R22 * R02 in
  let inv_R12 := inv_R22 * R12 in
  let inv_W00 := W00 * inv_R00 in
  let Q1i := inv_R11 * S_ - inv_R01 in
  let Q2i := inv_R22 * S_ * S_ - inv_R02 - Q1i * inv_R12 in
  let WI0 := inv_W00 + W01 * Q1i + W02 * Q2i in
  let WI1 := W11 * Q1i + W12 * Q2i in
  let WI2 := W22 * Q2i in
  Some (make_double3 WI0 WI1 WI2).

(** The row as the loop of [compute_partial_beta_kernel] uses it. *)
Definition pseudo_inverse_row (shared_svd : array R) (S_ : R) : double3 :=
  match pseudo_inverse_row_checked shared_svd S_ with
  | Some WI => WI
  | None => make_double3 0.0 0.0 0.0
  end.

Section PartialBeta.

Variable NUM_THREADS_PER_BLOCK : nat.
Variable gridDim : nat.
Variable num_paths : nat.
Variable payoff : Payoff.
(** [svd], [paths] and [cashflows] point into device arrays. *)
Variable d_svds : array R.
Variable svd : nat.
Variable d_paths : array R.
Variable paths : nat.
Variable cashflows : nat.
Variable all_out_of_the_money : Z.

(** What one thread accumulates in [beta0], [beta1], [beta2]. *)
Definition partial_beta_thread (blockIdx threadIdx : nat) : double3 :=
  let NUM_THREADS_PER_GRID := (NUM_THREADS_PER_BLOCK * gridDim)%nat in
  let shared_svd tid := d_svds (svd + tid)%nat in
  grid_stride_loop num_paths NUM_THREADS_PER_GRID
    (fun path beta =>
       let S_ := d_paths (paths + path)%nat in
       let in_the_money := is_in_the_money payoff S_ in
       let WI := pseudo_inverse_row shared_svd S_ in
       let cashflow :=
         if in_the_money then d_paths (cashflows + path)%nat else 0.0 in
       make_double3 (d3x beta + d3x WI * cashflow)
                    (d3y beta + d3y WI * cashflow)
                    (d3z beta + d3z WI * cashflow))
    (blockIdx * NUM_THREADS_PER_BLOCK + threadIdx)%nat
    (make_double3 0.0 0.0 0.0).

Definition compute_partial_beta_block (blockIdx : nat)
  (partial_sums : array R) : array R :=
  if negb (all_out_of_the_money =? 0)%Z then partial_sums
  else
    let lsums :=
      for_threads NUM_THREADS_PER_BLOCK
        (fun tid lsums => double3_add lsums (partial_beta_thread blockIdx tid))
        (make_double3 0.0 0.0 0.0) in
    let partial_sums :=
      store partial_sums (0 * NUM_THREADS_PER_BLOCK + blockIdx) (d3x lsums) in
    let partial_sums :=
      store partial_sums (1 * NUM_THREADS_PER_BLOCK + blockIdx) (d3y lsums) in
    store partial_sums (2 * NUM_THREADS_PER_BLOCK + blockIdx) (d3z lsums).

Definition compute_partial_beta_kernel (partial_sums : array R) : array R :=
  for_threads gridDim compute_partial_beta_block partial_sums.

End PartialBeta.

(** ** compute_final_beta_kernel, launched with one block *)

Definition compute_final_beta_kernel (NUM_THREADS_PER_BLOCK : nat)
  (all_out_of_the_money : Z) (beta : array R) : array R :=
  if negb (all_out_of_the_money =? 0)%Z then
    for_threads NUM_THREADS_PER_BLOCK
      (fun tid beta => if (tid <? 3)%nat then store beta tid 0.0 else beta)
      beta
  else
    let lsums :=
      for_threads NUM_THREADS_PER_BLOCK
        (fun tid lsums =>
           double3_add lsums
             (make_double3 (beta (0 * NUM_THREADS_PER_BLOCK + tid)%nat)
                           (beta (1 * NUM_THREADS_PER_BLOCK + tid)%nat)
                           (beta (2 * NUM_THREADS_PER_BLOCK + tid)%nat)))
        (make_double3 0.0 0.0 0.0) in
    let beta := store beta 0 (d3x lsums) in
    let beta := store beta 1 (d3y lsums) in
    store beta 2 (d3z lsums).

(** ** update_cashflow_kernel *)

(** A double that can be NaN.  The sum and the product with a NaN are NaN,
    and [a <= b] is false when one of the two is NaN. *)
Inductive double : Type :=
| Number (x : R)
| NaN.

Definition double_add (a b : double) : double :=
  match a, b with
  | Number x, Number y => Number (x + y)
  | _, _ => NaN
  end.

Definition double_mul (a b : double) : double :=
  match a, b with
  | Number x, Number y => Number (x * y)
  | _, _ => NaN
  end.

Definition double_le (a b : double) : bool :=
  match a, b with
  | Number x, Number y => if Rle_dec x y then true else false
  | _, _ => false
  end.

(** An array of numbers read as doubles. *)
Definition numbers (a : array R) : array double := fun i => Number (a i).

Section UpdateCashflow.

Variable NUM_THREADS_PER_BLOCK : nat.
Variable gridDim : nat.
Variable num_paths : nat.
Variable payoff_object : Payoff.
Variable exp_min_r_dt : R.
Variable beta : array double.
Variable paths : nat.
Variable all_out_of_the_money : Z.
Variable cashflows : nat.

(** The body of the loop for one path; [d_paths] holds both the prices (at
    [paths]) and the cashflows (at [cashflows]). *)
Definition update_cashflow_path (path : nat) (d_paths : array R) : array R :=
  let skip_computations := all_out_of_the_money in
  let beta0 := beta 0%nat in
  let beta1 := beta 1%nat in
  let beta2 := beta 2%nat in
  let old_cashflow := exp_min_r_dt * d_paths (cashflows + path)%nat in
  if negb (skip_computations =? 0)%Z
  then store d_paths (cashflows + path) old_cashflow
  else
    let S_ := d_paths (paths + path)%nat in
    let S2 := S_ * S_ in
    let payoff := payoff_value payoff_object S_ in
    let estimated_payoff :=
      double_add (double_add beta0 (double_mul beta1 (Number S_)))
        (double_mul beta2 (Number S2)) in
    let estimated_payoff :=
      double_mul estimated_payoff (Number exp_min_r_dt) in
    let payoff :=
      if Rle_dec payoff 1.0e-8 then old_cashflow
      else if double_le (Number payoff) estimated_payoff then old_cashflow
      else payoff in
    store d_paths (cashflows + path) payoff.

Definition update_cashflow_kernel (blockIdx threadIdx : nat)
  (d_paths : array R) : array R :=
  let NUM_THREADS_PER_GRID := (gridDim * NUM_THREADS_PER_BLOCK)%nat in
  grid_stride_loop num_paths NUM_THREADS_PER_GRID update_cashflow_path
    (blockIdx * NUM_THREADS_PER_BLOCK + threadIdx)%nat d_paths.

End UpdateCashflow.

(** ** compute_partial_sums_kernel and compute_final_sum_kernel *)

Definition compute_partial_sums_block (NUM_THREADS_PER_BLOCK : nat)
  (num_paths : nat) (d_paths : array R) (cashflows : nat)
  (blockIdx : nat) (sums : array R) : array R :=
  let lsum :=
    atomicAdd_all NUM_THREADS_PER_BLOCK
      (fun threadIdx =>
         let path := (blockIdx * NUM_THREADS_PER_BLOCK + threadIdx)%nat in
         if (path <? num_paths)%nat then d_paths (cashflows + path)%nat
         else 0.0)
      0 in
  store sums blockIdx lsum.

Definition compute_final_sum_kernel (NUM_THREADS_PER_BLOCK : nat)
  (num_paths num_blocks : nat) (exp_min_r_dt : R) (sums : array R)
  : array R :=
  let lsum :=
    atomicAdd_all NUM_THREADS_PER_BLOCK
      (fun threadIdx =>
         grid_stride_loop num_blocks NUM_THREADS_PER_BLOCK
           (fun item sum => sum + sums item) threadIdx 0.0)
      0 in
  store sums 0 (exp_min_r_dt * lsum / INR num_paths).

(** ** do_run *)

Record device : Type := mkDevice {
  d_paths : array R;
  d_svds : array R;
  d_all_out_of_the_money : array Z;
  d_temp_storage : array R }.

(** [cudaMemsetAsync(d_all_out_of_the_money, 0, num_timesteps*sizeof(int))] *)
Definition memset_zero (n : nat) (a : array Z) : array Z :=
  fun i => if (i <? n)%nat then 0%Z else a i.

(** The grid of [update_cashflow_kernel]: [num_waves] is a ratio of two
    integers, kept exact as a rational; [(int) num_waves] is its floor
    (it is not negative). *)
Definition update_cashflow_grid_dim (num_paths : nat) : nat :=
  let num_threads_per_wave_full_occupancy := (256 * 112)%nat in
  let NUM_THREADS_PER_BLOCK2 := 128%nat in
  let grid_dim :=
    ((num_paths + NUM_THREADS_PER_BLOCK2 - 1) / NUM_THREADS_PER_BLOCK2)%nat in
  let num_waves : Q :=
    (inject_Z (Z.of_nat (grid_dim * NUM_THREADS_PER_BLOCK2))
     / inject_Z (Z.of_nat num_threads_per_wave_full_occupancy))%Q in
  let int_num_waves : Z := Qfloor num_waves in
  if Qlt_le_dec num_waves 10
  then if Qlt_le_dec (num_waves - inject_Z int_num_waves) 0.6
       then (Nat.max 1 (Z.to_nat int_num_waves)
             * num_threads_per_wave_full_occupancy / NUM_THREADS_PER_BLOCK2)%nat
       else grid_dim
  else grid_dim.

Section DoRun.

Variable num_timesteps : nat.
Variable num_paths : nat.
Variable payoff : Payoff.
Variables dt S0 r sigma : R.
Variable h_samples : array R.
(** [d_cashflows] points into [d_paths]. *)
Variable d_cashflows : nat.
(** What the blocks of [prepare_svd_kernel] find in shared memory. *)
Variable shared0 : nat -> array Z * array R.

(** One turn of the main loop. *)
Definition do_run_timestep (timestep : nat) (dev : device) : device :=
  let exp_min_r_dt := exp (- r * dt) in
  let NUM_THREADS_PER_BLOCK2 := 128%nat in
  let update_cashflow_grid := update_cashflow_grid_dim num_paths in
  let flag := d_all_out_of_the_money dev timestep in
  let temp :=
    compute_partial_beta_kernel NUM_THREADS_PER_BLOCK2 NUM_THREADS_PER_BLOCK2
      num_paths payoff (d_svds dev) (16 * timestep)
      (d_paths dev) (timestep * num_paths) d_cashflows flag
      (d_temp_storage dev) in
  let temp := compute_final_beta_kernel NUM_THREADS_PER_BLOCK2 flag temp in
  let paths :=
    launch update_cashflow_grid NUM_THREADS_PER_BLOCK2
      (update_cashflow_kernel NUM_THREADS_PER_BLOCK2 update_cashflow_grid
         num_paths payoff exp_min_r_dt (numbers temp) (timestep * num_paths)
         flag d_cashflows)
      (d_paths dev) in
  mkDevice paths (d_svds dev) (d_all_out_of_the_money dev) temp.

(** [for (timestep = num_timesteps-2; timestep >= 0; --timestep)]:
    [main_loop n] runs the timesteps [n-1], ..., [0]. *)
Fixpoint main_loop (n : nat) (dev : device) : device :=
  match n with
  | O => dev
  | Datatypes.S timestep => main_loop timestep (do_run_timestep timestep dev)
  end.

(** The first part of [do_run]: the paths, the reset of the flags and
    [prepare_svd_kernel]. *)
Definition do_run_setup (dev : device) : device :=
  let d_samples := h_samples in
  let NUM_THREADS_PER_BLOCK0 := 256%nat in
  let grid_dim :=
    ((num_paths + NUM_THREADS_PER_BLOCK0 - 1) / NUM_THREADS_PER_BLOCK0)%nat in
  let paths :=
    launch grid_dim NUM_THREADS_PER_BLOCK0
      (generate_paths_kernel NUM_THREADS_PER_BLOCK0 num_timesteps num_paths
         payoff dt S0 r sigma d_samples)
      (d_paths dev) in
  let flags := memset_zero num_timesteps (d_all_out_of_the_money dev) in
  let NUM_THREADS_PER_BLOCK1 := 256%nat in
  let '(flags, svds) :=
    prepare_svd_kernel NUM_THREADS_PER_BLOCK1 (num_timesteps - 1)
      num_paths 4 payoff paths shared0 (flags, d_svds dev) in
  mkDevice paths svds flags (d_temp_storage dev).

(** The last part of [do_run]: the two kernels of the final sum. *)
Definition do_run_reduce (dev : device) : device :=
  let exp_min_r_dt := exp (- r * dt) in
  let NUM_THREADS_PER_BLOCK4 := 128%nat in
  let grid_dim :=
    ((num_paths + NUM_THREADS_PER_BLOCK4 - 1) / NUM_THREADS_PER_BLOCK4)%nat in
  let temp :=
    for_threads grid_dim
      (compute_partial_sums_block NUM_THREADS_PER_BLOCK4 num_paths
         (d_paths dev) d_cashflows)
      (d_temp_storage dev) in
  let temp :=
    compute_final_sum_kernel NUM_THREADS_PER_BLOCK4 num_paths grid_dim
      exp_min_r_dt temp in
  mkDevice (d_paths dev) (d_svds dev) (d_all_out_of_the_money dev) temp.

(** The state of the device when [do_run] has finished. *)
Definition do_run_device (dev : device) : device :=
  do_run_reduce (main_loop (num_timesteps - 1) (do_run_setup dev)).

(** [*h_price] after the final copy. *)
Definition do_run (dev : device) : R :=
  d_temp_storage (do_run_device dev) 0%nat.

End DoRun.

(** [main] hands [do_run] the last row of [d_paths] as [d_cashflows]. *)
Definition main_d_cashflows (num_timesteps num_paths : nat) : nat :=
  ((num_timesteps - 1) * num_paths)%nat.

Definition lsm_price (num_timesteps num_paths : nat) (payoff : Payoff)
  (dt S0 r sigma : R) (h_samples : array R)
  (shared0 : nat -> array Z * array R) (dev : device) : R :=
  do_run num_timesteps num_paths payoff dt S0 r sigma h_samples
    (main_d_cashflows num_timesteps num_paths) shared0 dev.

(** ** main: the buffers handed to do_run

    [main] allocates [num_timesteps*num_paths] doubles for [d_paths],
    [16*num_timesteps] doubles for [d_svds], [num_timesteps] ints for
    [d_all_out_of_the_money] and [max_temp_storage] doubles for
    [d_temp_storage]. *)

Definition MAX_GRID_SIZE : nat := 2048.

Definition max_temp_storage : nat := 4 * MAX_GRID_SIZE.

(** ** binomial_tree

    The reference price on the host.  [tree] is the array
    [new double[num_timesteps+1]]: what it holds when it is allocated is a
    parameter ([tree0]).  [std::pow(d, t)] with an integer [t] is [d ^ t]
    and [std::max] is [Rmax]. *)

Section BinomialTree.

Variable payoff : Payoff.
Variables dt S0 r sigma : R.

(** [for (t = 0; t <= num_timesteps; ++t) { tree[t] = payoff(S0*k); k *= u*u; }] *)
Definition binomial_tree_leaves (num_timesteps : nat) (u k : R)
  (tree : array R) : array R * R :=
  for_loop (num_timesteps + 1)
    (fun t '(tree, k) =>
       (store tree t (payoff_value payoff (S0 * k)), k * (u * u)))
    (tree, k).

(** The body of the second loop for one [t]. *)
Definition binomial_tree_level (u d p : R) (t : nat) (tree : array R)
  : array R :=
  let k := d ^ t in
  fst (for_loop (t + 1)
         (fun i '(tree, k) =>
            let expected :=
              exp (- r * dt)
              * (p * tree (i + 1)%nat + (1.0 - p) * tree i) in
            let earlyex := payoff_value payoff (S0 * k) in
            (store tree i (Rmax earlyex expected), k * (u * u)))
         (tree, k)).

(** [for (t = num_timesteps-1; t >= 0; --t)]: [binomial_tree_levels n] runs
    [t = n-1, ..., 0]. *)
Fixpoint binomial_tree_levels (u d p : R) (n : nat) (tree : array R)
  : array R :=
  match n with
  | O => tree
  | Datatypes.S t =>
      binomial_tree_levels u d p t (binomial_tree_level u d p t tree)
  end.

Definition binomial_tree (num_timesteps : nat) (tree0 : array R) : R :=
  let tree := tree0 in
  let u := exp (sigma * sqrt dt) in
  let d := exp (- sigma * sqrt dt) in
  let a := exp (r * dt) in
  let p := (a - d) / (u - d) in
  let k := d ^ num_timesteps in
  let '(tree, k) := binomial_tree_leaves num_timesteps u k tree in
  let tree := binomial_tree_levels u d p num_timesteps tree in
  let f := tree 0%nat in
  f.

End BinomialTree.

(** The value of the node [i] of level [t] of a recombining tree with [n]
    more levels below it: the larger of the payoff at the node and the
    discounted expectation of the two nodes that follow it. *)
Fixpoint lattice_value (payoff : Payoff) (S0 u d disc p : R)
  (n t i : nat) : R :=
  let exercise := payoff_value payoff (S0 * (d ^ t * (u * u) ^ i)) in
  match n with
  | O => exercise
  | Datatypes.S n' =>
      Rmax exercise
        (disc * (p * lattice_value payoff S0 u d disc p n' (t + 1) (i + 1)
                 + (1 - p) * lattice_value payoff S0 u d disc p n' (t + 1) i))
  end.

(** ** black_scholes_merton_put and black_scholes_merton_call

    [normcdf] is the distribution function of the standard normal law,
    1/2 + (1/sqrt(2*pi)) * (the integral of exp(-t^2/2) from 0 to x);
    [std::log] is [ln]. *)

Definition gauss (t : R) : R := exp (- (t * t) / 2).

Definition gauss_integrable (a b : R) : Riemann_integrable gauss a b.
Proof.
  assert (C : continuity gauss) by (unfold gauss; reg).
  destruct (Rle_dec a b) as [Hle|Hnle].
  - apply continuity_implies_RiemannInt; [assumption|].
    intros x _. apply C.
  - apply RiemannInt_P1, continuity_implies_RiemannInt; [lra|].
    intros x _. apply C.
Defined.

Definition normcdf (x : R) : R :=
  1 / 2 + RiemannInt (gauss_integrable 0 x) / sqrt (2 * PI).

Definition black_scholes_merton_put (T K S0 r sigma : R) : R :=
  let d1 :=
    (ln (S0 / K) + (r + 0.5 * sigma * sigma) * T) / (sigma * sqrt T) in
  let d2 := d1 - sigma * sqrt T in
  K * exp (- r * T) * normcdf (- d2) - S0 * normcdf (- d1).

Definition black_scholes_merton_call (T K S0 r sigma : R) : R :=
  let d1 :=
    (ln (S0 / K) + (r + 0.5 * sigma * sigma) * T) / (sigma * sqrt T) in
  let d2 := d1 - sigma * sqrt T in
  S0 * normcdf d1 - K * exp (- r * T) * normcdf d2.

(** ** main: the command line and the runs

    [argv] is [argv[1..argc-1]].  [strtol] stands for
    [strtol(s, NULL, 10)] converted to [int] and [strtod] for
    [strtod(s, NULL)]; [strcmp] is equality of strings.  An option that
    takes a value reads [argv[++i]]: when the option is the last argument
    that is [argv[argc]], a null pointer, and the C library leaves the
    behaviour undefined. *)

Record options : Type := mkOptions {
  o_num_timesteps : Z;
  o_num_paths : Z;
  o_num_runs : Z;
  o_T : R;
  o_K : R;
  o_S0 : R;
  o_r : R;
  o_sigma : R;
  o_price_put : bool }.

Definition default_options : options :=
  mkOptions 100 32 1 1.00 4.00 3.60 0.06 0.20 true.

Inductive outcome (A : Type) : Type :=
| Continues (a : A)
| Exits (status : Z)
| Undefined_behaviour.

Arguments Continues {A} a.
Arguments Exits {A} status.
Arguments Undefined_behaviour {A}.

Section CommandLine.

Variable strtol : String.string -> Z.
Variable strtod : String.string -> R.

(** The loop [for (i = 1; i < argc; ++i)] over the arguments. *)
Fixpoint read_options (argv : list String.string) (o : options)
  : outcome options :=
  match argv with
  | [] => Continues o
  | arg :: rest =>
      if String.eqb arg "-timesteps" then
        match rest with
        | v :: rest' =>
            read_options rest'
              (mkOptions (strtol v) (o_num_paths o) (o_num_runs o) (o_T o)
                 (o_K o) (o_S0 o) (o_r o) (o_sigma o) (o_price_put o))
        | [] => Undefined_behaviour
        end
      else if String.eqb arg "-paths" then
        match rest with
        | v :: rest' =>
            read_options rest'
              (mkOptions (o_num_timesteps o) (strtol v) (o_num_runs o) (o_T o)
                 (o_K o) (o_S0 o) (o_r o) (o_sigma o) (o_price_put o))
        | [] => Undefined_behaviour
        end
      else if String.eqb arg "-runs" then
        match rest with
        | v :: rest' =>
            read_options rest'
              (mkOptions (o_num_timesteps o) (o_num_paths o) (strtol v) (o_T o)
                 (o_K o) (o_S0 o) (o_r o) (o_sigma o) (o_price_put o))
        | [] => Undefined_behaviour
        end
      else if String.eqb arg "-T" then
        match rest with
        | v :: rest' =>
            read_options rest'
              (mkOptions (o_num_timesteps o) (o_num_paths o) (o_num_runs o)
                 (strtod v) (o_K o) (o_S0 o) (o_r o) (o_sigma o)
                 (o_price_put o))
        | [] => Undefined_behaviour
        end
      else if String.eqb arg "-S0" then
        match rest with
        | v :: rest' =>
            read_options rest'
              (mkOptions (o_num_timesteps o) (o_num_paths o) (o_num_runs o)
                 (o_T o) (o_K o) (strtod v) (o_r o) (o_sigma o)
                 (o_price_put o))
        | [] => Undefined_behaviour
        end
      else if String.eqb arg "-K" then
        match rest with
        | v :: rest' =>
            read_options rest'
              (mkOptions (o_num_timesteps o) (o_num_paths o) (o_num_runs o)
                 (o_T o) (strtod v) (o_S0 o) (o_r o) (o_sigma o)
                 (o_price_put o))
        | [] => Undefined_behaviour
        end
      else if String.eqb arg "-r" then
        match rest with
        | v :: rest' =>
            read_options rest'
              (mkOptions (o_num_timesteps o) (o_num_paths o) (o_num_runs o)
                 (o_T o) (o_K o) (o_S0 o) (strtod v) (o_sigma o)
                 (o_price_put o))
        | [] => Undefined_behaviour
        end
      else if String.eqb arg "-sigma" then
        match rest with
        | v :: rest' =>
            read_options rest'
              (mkOptions (o_num_timesteps o) (o_num_paths o) (o_num_runs o)
                 (o_T o) (o_K o) (o_S0 o) (o_r o) (strtod v)
                 (o_price_put o))
        | [] => Undefined_behaviour
        end
      else if String.eqb arg "-call" then
        read_options rest
          (mkOptions (o_num_timesteps o) (o_num_paths o) (o_num_runs o)
             (o_T o) (o_K o) (o_S0 o) (o_r o) (o_sigma o) false)
      else Exits 1
  end.

End CommandLine.

(** The options that take a value, and all the options. *)
Definition value_options : list String.string :=
  ["-timesteps"; "-paths"; "-runs"; "-T"; "-S0"; "-K"; "-r"; "-sigma"]%string.



(** ** Notions used to state the properties *)

(** [f 0 + ... + f (n-1)] *)
Fixpoint sum_upto (n : nat) (f : nat -> R) : R :=
  match n with
  | O => 0
  | Datatypes.S k => sum_upto k f + f k
  end.

(** The price of path [p] after [k] steps of the recurrence
    [S_{k+1} = S_k * exp((r - sigma^2/2)*dt + sigma*sqrt(dt)*Z_{k,p})]
    from [S_0 = S0], where [Z_{k,p}] is the sample at row [k], column [p]. *)
Fixpoint gbm_price (num_paths : nat) (dt S0 r sigma : R) (samples : array R)
  (k p : nat) : R :=
  match k with
  | O => S0
  | Datatypes.S j =>
      gbm_price num_paths dt S0 r sigma samples j p
      * exp ((r - sigma ^ 2 / 2) * dt
             + sigma * sqrt dt * samples (j * num_paths + p)%nat)
  end.

(** The paths that are in the money at a timestep, in increasing order. *)
Definition in_the_money_paths (payoff : Payoff) (paths : array R)
  (num_paths timestep : nat) : list nat :=
  filter (fun p => is_in_the_money payoff (paths (timestep * num_paths + p)%nat))
    (seq 0 num_paths).

(** The discounted average of the payoffs at expiry. *)
Definition european_price (num_timesteps num_paths : nat) (payoff : Payoff)
  (dt S0 r sigma : R) (samples : array R) : R :=
  exp (- r * dt * INR num_timesteps)
  * (sum_upto num_paths
       (fun p => payoff_value payoff
                   (gbm_price num_paths dt S0 r sigma samples num_timesteps p))
     / INR num_paths).

(** The first [k] turns of the main loop that starts at timestep [n-1]:
    the timesteps [n-1], ..., [n-k]. *)
Fixpoint main_loop_prefix (num_paths : nat) (payoff : Payoff) (dt r : R)
  (d_cashflows : nat) (k n : nat) (dev : device) : device :=
  match k with
  | O => dev
  | Datatypes.S j =>
      match n with
      | O => dev
      | Datatypes.S timestep =>
          main_loop_prefix num_paths payoff dt r d_cashflows j timestep
            (do_run_timestep num_paths payoff dt r d_cashflows timestep dev)
      end
  end.

(** What the thread of [generate_paths_kernel] with global index [path]
    does to the matrix. *)
Definition generate_paths_thread (num_timesteps num_paths : nat)
  (payoff : Payoff) (dt S0 r sigma : R) (samples : array R)
  (path : nat) (paths : array R) : array R :=
  generate_paths_kernel 1 num_timesteps num_paths payoff dt S0 r sigma samples
    path 0 paths.

(** The eigenvalues on the diagonal, each with its column of V. *)
Definition eigenpairs (st : jacobi_state) : list (R * (R * R * R)) :=
  [ (jA00 st, (jV00 st, jV10 st, jV20 st));
    (jA11 st, (jV01 st, jV11 st, jV21 st));
    (jA22 st, (jV02 st, jV12 st, jV22 st)) ].

(** The estimate [update_cashflow_kernel] computes for a path of price
    [S_]: [beta0 + beta1*S + beta2*S2], then [*= exp_min_r_dt]. *)
Definition continuation_estimate (exp_min_r_dt : R) (beta : array double)
  (S_ : R) : double :=
  double_mul
    (double_add (double_add (beta 0%nat) (double_mul (beta 1%nat) (Number S_)))
       (double_mul (beta 2%nat) (Number (S_ * S_))))
    (Number exp_min_r_dt).

(** [x] exceeds [d]: [d] is a number below [x]. *)
Definition exceeds (x : R) (d : double) : Prop :=
  match d with
  | Number y => x > y
  | NaN => False
  end.

(** [f 0 + ... + f (n-1)] for integers. *)
Fixpoint zsum_upto (n : nat) (f : nat -> Z) : Z :=
  match n with
  | O => 0%Z
  | Datatypes.S k => (zsum_upto k f + f k)%Z
  end.

(** The number of paths below [q] that are in the money at the timestep
    whose row starts at [offset]. *)
Definition in_the_money_rank (num_paths : nat) (payoff : Payoff)
  (paths : array R) (offset q : nat) : Z :=
  zsum_upto q
    (fun p => if (p <? num_paths)%nat
              then Z.b2z (is_in_the_money payoff (paths (offset + p)%nat))
              else 0%Z).

(** The three values [assemble_R] finds in [smem_svds[0..2]]: what the loop
    of [prepare_svd_kernel] has left there for the timestep. *)
Definition qr_seeds (num_paths : nat) (payoff : Payoff) (paths : array R)
  (shared0 : nat -> array Z * array R) (timestep : nat) : R * R * R :=
  let st :=
    svd_scan_paths 256 num_paths payoff paths (timestep * num_paths)
      (shared0 timestep) in
  (b_smem_svds st 0%nat, b_smem_svds st 1%nat, b_smem_svds st 2%nat).

(** ** A run with four equal paths

    Two timesteps of length 1, four paths, a put of strike 1 on an asset at
    0.75, rate 0 and volatility 0.2.  The samples are the same for every
    path: they keep the price at 0.75 at the first step and take it to 0.7
    at expiry. *)

Definition equal_paths_samples : array R :=
  fun i => if (i <? 4)%nat then 0.1 else 0.1 + 5 * ln (14 / 15).

Definition blank_shared : nat -> array Z * array R :=
  fun _ => (fun _ => 0%Z, fun _ => 0).

Definition blank_device : device :=
  mkDevice (fun _ => 0) (fun _ => 0) (fun _ => 0%Z) (fun _ => 0).

(** ** A run with a regression of rank one

    Two timesteps of length 1, 1024 paths (four rounds of the 256 threads
    of [prepare_svd_kernel]), a put of strike 1 on an asset at 0.75, rate 0
    and volatility 0.2.  The samples keep the paths 0..255 at 0.75 at the
    first step and take them to 0.7 at expiry; they take the paths
    256..1023 to 1.5 at the first step and keep them there. *)

Definition rank_one_samples : array R :=
  fun i =>
    if (i <? 256)%nat then 0.1
    else if (i <? 1024)%nat then 0.1 + 5 * ln 2
    else if (i <? 1280)%nat then 0.1 + 5 * ln (14 / 15)
    else 0.1.




(** ** A run with equal prices and coefficients that are NaN

    Two timesteps of length 1, 1024 paths, a put of strike 1 on an asset at
    0.9, rate 0 and volatility 0.2.  The samples keep every path at 0.9 at
    the first step and take it to 0.9 * exp(-0.1) at expiry. *)

Definition nan_estimate_samples : array R :=
  fun i => if (i <? 1024)%nat then 0.1 else - 0.4.

Definition nan_beta : array double := fun _ => NaN.

Definition zero_samples : array R := fun _ => 0.

(** ** The regression data of a timestep *)




(** ** The rotations of a sweep, one by one

    The three blocks of the body of the loop of [svd_3x3]: the rotation in
    the plane (0,1), then (0,2), then (1,2). *)

Definition jacobi_rotate_01 (st : jacobi_state) : jacobi_state :=
  let '(mkJacobi A00 A01 A02 A11 A12 A22
                 V00 V01 V02 V10 V11 V12 V20 V21 V22) := st in
  let '(c, s) := jacobi_rotation A00 A11 A01 in
  let B00 := c * A00 - s * A01 in
  let B01 := s * A00 + c * A01 in
  let B10 := c * A01 - s * A11 in
  let B11 := s * A01 + c * A11 in
  let B02 := A02 in
  let A00 := c * B00 - s * B10 in
  let A01 := c * B01 - s * B11 in
  let A11 := s * B01 + c * B11 in
  let A02 := c * B02 - s * A12 in
  let A12 := s * B02 + c * A12 in
  let B00 := c * V00 - s * V01 in
  let V01 := s * V00 + c * V01 in
  let V00 := B00 in
  let B10 := c * V10 - s * V11 in
  let V11 := s * V10 + c * V11 in
  let V10 := B10 in
  let B20 := c * V20 - s * V21 in
  let V21 := s * V20 + c * V21 in
  let V20 := B20 in
  mkJacobi A00 A01 A02 A11 A12 A22 V00 V01 V02 V10 V11 V12 V20 V21 V22.

Definition jacobi_rotate_02 (st : jacobi_state) : jacobi_state :=
  let '(mkJacobi A00 A01 A02 A11 A12 A22
                 V00 V01 V02 V10 V11 V12 V20 V21 V22) := st in
  let '(c, s) := jacobi_rotation A00 A22 A02 in
  let B00 := c * A00 - s * A02 in
  let B01 := c * A01 - s * A12 in
  let B02 := s * A00 + c * A02 in
  let B20 := c * A02 - s * A22 in
  let B22 := s * A02 + c * A22 in
  let A00 := c * B00 - s * B20 in
  let A12 := s * A01 + c * A12 in
  let A02 := c * B02 - s * B22 in
  let A22 := s * B02 + c * B22 in
  let A01 := B01 in
  let B00 := c * V00 - s * V02 in
  let V02 := s * V00 + c * V02 in
  let V00 := B00 in
  let B10 := c * V10 - s * V12 in
  let V12 := s * V10 + c * V12 in
  let V10 := B10 in
  let B20 := c * V20 - s * V22 in
  let V22 := s * V20 + c * V22 in
  let V20 := B20 in
  mkJacobi A00 A01 A02 A11 A12 A22 V00 V01 V02 V10 V11 V12 V20 V21 V22.

Definition jacobi_rotate_12 (st : jacobi_state) : jacobi_state :=
  let '(mkJacobi A00 A01 A02 A11 A12 A22
                 V00 V01 V02 V10 V11 V12 V20 V21 V22) := st in
  let '(c, s) := jacobi_rotation A11 A22 A12 in
  let B02 := s * A01 + c * A02 in
  let B11 := c * A11 - s * A12 in
  let B12 := s * A11 + c * A12 in
  let B21 := c * A12 - s * A22 in
  let B22 := s * A12 + c * A22 in
  let A01 := c * A01 - s * A02 in
  let A02 := B02 in
  let A11 := c * B11 - s * B21 in
  let A12 := c * B12 - s * B22 in
  let A22 := s * B12 + c * B22 in
  let B01 := c * V01 - s * V02 in
  let V02 := s * V01 + c * V02 in
  let V01 := B01 in
  let B11 := c * V11 - s * V12 in
  let V12 := s * V11 + c * V12 in
  let V11 := B11 in
  let B21 := c * V21 - s * V22 in
  let V22 := s * V21 + c * V22 in
  let V21 := B21 in
  mkJacobi A00 A01 A02 A11 A12 A22 V00 V01 V02 V10 V11 V12 V20 V21 V22.

(** The upper half of V * V^T: the products of the rows of V. *)
Definition V_Vt (st : jacobi_state) : list R :=
  let '(mkJacobi _ _ _ _ _ _ V00 V01 V02 V10 V11 V12 V20 V21 V22) := st in
  [ V00 * V00 + V01 * V01 + V02 * V02;
    V00 * V10 + V01 * V11 + V02 * V12;
    V00 * V20 + V01 * V21 + V02 * V22;
    V10 * V10 + V11 * V11 + V12 * V12;
    V10 * V20 + V11 * V21 + V12 * V22;
    V20 * V20 + V21 * V21 + V22 * V22 ].

(** The upper half of V * A * V^T, where A is the symmetric matrix whose
    upper half the state holds. *)
Definition V_A_Vt (st : jacobi_state) : list R :=
  let '(mkJacobi A00 A01 A02 A11 A12 A22
                 V00 V01 V02 V10 V11 V12 V20 V21 V22) := st in
  let row (a b c : R) :=
    (a * A00 + b * A01 + c * A02,
     a * A01 + b * A11 + c * A12,
     a * A02 + b * A12 + c * A22) in
  let dot (u : R * R * R) (a b c : R) :=
    let '(x, y, z) := u in x * a + y * b + z * c in
  [ dot (row V00 V01 V02) V00 V01 V02;
    dot (row V00 V01 V02) V10 V11 V12;
    dot (row V00 V01 V02) V20 V21 V22;
    dot (row V10 V11 V12) V10 V11 V12;
    dot (row V10 V11 V12) V20 V21 V22;
    dot (row V20 V21 V22) V20 V21 V22 ].

(** Half the square of the off-diagonal norm. *)
Definition off_sq (st : jacobi_state) : R :=
  jA01 st * jA01 st + jA02 st * jA02 st + jA12 st * jA12 st.



(** * Properties *)

(** ** Threads and loops *)

Lemma for_threads_0 {St : Type} (body : nat -> St -> St) (s : St) :
  for_threads 0 body s = s.
Proof. reflexivity. Qed.

Lemma for_threads_S {St : Type} (n : nat) (body : nat -> St -> St) (s : St) :
  for_threads (S n) body s = body n (for_threads n body s).
Proof.
  unfold for_threads. rewrite seq_S, fold_left_app. reflexivity.
Qed.

Lemma for_threads_add {St : Type} (a n : nat) (body : nat -> St -> St) (s : St) :
  for_threads (a + n) body s =
  for_threads n (fun i => body (a + i)%nat) (for_threads a body s).
Proof.
  induction n as [|n IH].
  - rewrite Nat.add_0_r. reflexivity.
  - rewrite Nat.add_succ_r, !for_threads_S, IH. reflexivity.
Qed.

Lemma for_threads_ext {St : Type} (n : nat) (f g : nat -> St -> St) (s : St) :
  (forall i t, (i < n)%nat -> f i t = g i t) ->
  for_threads n f s = for_threads n g s.
Proof.
  induction n as [|n IH]; intros H; [reflexivity|].
  rewrite !for_threads_S, IH by (intros; apply H; lia).
  apply H; lia.
Qed.

(** A launch whose threads only look at their global index runs them in the
    order of that index. *)
Lemma launch_flat {St : Type} (grid block : nat)
  (kernel : nat -> nat -> St -> St) (k : nat -> St -> St) (s : St) :
  (forall b tid, (tid < block)%nat -> kernel b tid = k (b * block + tid)%nat) ->
  launch grid block kernel s = for_threads (grid * block) k s.
Proof.
  intros H. unfold launch. induction grid as [|g IH].
  - reflexivity.
  - rewrite for_threads_S, IH.
    replace (S g * block)%nat with (g * block + block)%nat by lia.
    rewrite for_threads_add. apply for_threads_ext.
    intros i t Hi. rewrite H by assumption. reflexivity.
Qed.

Lemma atomicAdd_all_sum (n : nat) (f : nat -> R) (init : R) :
  atomicAdd_all n f init = init + sum_upto n f.
Proof.
  unfold atomicAdd_all. induction n as [|n IH].
  - simpl. rewrite for_threads_0. lra.
  - rewrite for_threads_S, IH. simpl. lra.
Qed.

Lemma sum_upto_ext (n : nat) (f g : nat -> R) :
  (forall i, (i < n)%nat -> f i = g i) -> sum_upto n f = sum_upto n g.
Proof.
  induction n as [|n IH]; intros H; simpl; [reflexivity|].
  rewrite IH, H by (intros; try apply H; lia). reflexivity.
Qed.

Lemma sum_upto_add (a n : nat) (f : nat -> R) :
  sum_upto (a + n) f = sum_upto a f + sum_upto n (fun i => f (a + i)%nat).
Proof.
  induction n as [|n IH].
  - rewrite Nat.add_0_r. simpl. lra.
  - rewrite Nat.add_succ_r. simpl. rewrite IH. lra.
Qed.

Lemma store_eq {A : Type} (a : array A) (i : nat) (v : A) :
  store a i v i = v.
Proof. unfold store. rewrite Nat.eqb_refl. reflexivity. Qed.

Lemma store_neq {A : Type} (a : array A) (i j : nat) (v : A) :
  j <> i -> store a i v j = a j.
Proof.
  intros H. unfold store. apply Nat.eqb_neq in H. rewrite H. reflexivity.
Qed.

(** ** Path Generator *)

Section GeneratePathsFacts.

Variables (num_timesteps num_paths : nat) (payoff : Payoff).
Variables (dt S0 r sigma : R) (samples : array R).

Let price := gbm_price num_paths dt S0 r sigma samples.
Let a := (r - 0.5 * sigma * sigma) * dt.
Let b := sigma * sqrt dt.

Lemma gbm_price_step (k p : nat) :
  price (S k) p = price k p * exp (a + b * samples (k * num_paths + p)%nat).
Proof.
  unfold price, a, b. simpl. f_equal. f_equal. lra.
Qed.

(** The loop of one thread, started at step [t0]. *)
Lemma generate_paths_loop_spec (iters t0 p : nat) (paths : array R) :
  (p < num_paths)%nat ->
  let '(S_, offset, paths') :=
    generate_paths_loop iters num_paths a b samples
      (price t0 p) (t0 * num_paths + p) paths in
  S_ = price (t0 + iters) p /\
  offset = ((t0 + iters) * num_paths + p)%nat /\
  (forall t, (t0 <= t < t0 + iters)%nat ->
             paths' (t * num_paths + p)%nat = price (S t) p) /\
  (forall j, (j mod num_paths <> p \/ j < t0 * num_paths)%nat ->
             paths' j = paths j).
Proof.
  intros Hp. revert t0 paths.
  induction iters as [|k IH]; intros t0 paths; simpl.
  - rewrite Nat.add_0_r. repeat split; intros; try lia; reflexivity.
  - rewrite <- gbm_price_step.
    replace (t0 * num_paths + p + num_paths)%nat
      with (S t0 * num_paths + p)%nat by lia.
    specialize (IH (S t0) (store paths (t0 * num_paths + p) (price (S t0) p))).
    destruct (generate_paths_loop k num_paths a b samples (price (S t0) p)
                (S t0 * num_paths + p)
                (store paths (t0 * num_paths + p) (price (S t0) p)))
      as [[S_ offset] paths'].
    destruct IH as (HS & Hoff & Hin & Hout).
    replace (t0 + S k)%nat with (S t0 + k)%nat by lia.
    repeat split; try assumption.
    + intros t Ht. destruct (Nat.eq_dec t t0) as [->|Hne].
      * rewrite Hout by (right; lia). apply store_eq.
      * apply Hin. lia.
    + intros j Hj. rewrite Hout.
      * apply store_neq. destruct Hj as [Hj|Hj]; [|lia].
        intros ->. apply Hj.
        rewrite Nat.add_comm, Nat.Div0.mod_add. apply Nat.mod_small, Hp.
      * destruct Hj as [Hj|Hj]; [left; assumption|right; lia].
Qed.

Let thread :=
  generate_paths_thread num_timesteps num_paths payoff dt S0 r sigma samples.

Lemma generate_paths_kernel_thread (NT blockIdx threadIdx : nat) :
  generate_paths_kernel NT num_timesteps num_paths payoff dt S0 r sigma samples
    blockIdx threadIdx =
  thread (blockIdx * NT + threadIdx).
Proof.
  unfold thread, generate_paths_thread, generate_paths_kernel.
  replace (blockIdx * NT + threadIdx + 0)%nat
    with (blockIdx * NT + threadIdx)%nat by lia.
  rewrite Nat.mul_1_r, Nat.add_0_r. reflexivity.
Qed.

Lemma generate_paths_thread_spec (p : nat) (paths : array R) :
  (p < num_paths)%nat -> (1 <= num_timesteps)%nat ->
  (forall t, (t + 2 <= num_timesteps)%nat ->
     thread p paths (t * num_paths + p)%nat = price (S t) p) /\
  thread p paths ((num_timesteps - 1) * num_paths + p)%nat
    = payoff_value payoff (price num_timesteps p) /\
  (forall j, (j mod num_paths <> p)%nat ->
     thread p paths j = paths j).
Proof.
  intros Hp HT. unfold thread, generate_paths_thread, generate_paths_kernel.
  rewrite Nat.mul_1_r, Nat.add_0_r.
  destruct (Nat.leb_spec num_paths p) as [Hle|_]; [lia|].
  fold a b.
  pose proof (generate_paths_loop_spec (num_timesteps - 1) 0 p paths Hp) as H.
  simpl in H. change (price 0%nat p) with S0 in H.
  destruct (generate_paths_loop (num_timesteps - 1) num_paths a b samples S0 p paths)
    as [[S_ offset] paths'].
  destruct H as (HS & Hoff & Hin & Hout). subst S_ offset.
  rewrite <- gbm_price_step.
  replace (S (num_timesteps - 1)) with num_timesteps by lia.
  repeat split.
  - intros t Ht. rewrite store_neq.
    + apply Hin. lia.
    + assert (t < num_timesteps - 1)%nat by lia. nia.
  - apply store_eq.
  - intros j Hj. rewrite store_neq.
    + apply Hout. left. assumption.
    + intros ->. apply Hj.
      rewrite Nat.add_comm, Nat.Div0.mod_add. apply Nat.mod_small, Hp.
Qed.

Lemma generate_paths_thread_idle (p : nat) (paths : array R) :
  (num_paths <= p)%nat -> thread p paths = paths.
Proof.
  intros Hp. unfold thread, generate_paths_thread, generate_paths_kernel.
  rewrite Nat.mul_1_r, Nat.add_0_r.
  destruct (Nat.leb_spec num_paths p); [reflexivity|lia].
Qed.

(** The matrix after the threads [0..n-1]. *)
Lemma generate_paths_threads_spec (n p : nat) (paths : array R) :
  (p < num_paths)%nat -> (p < n)%nat -> (1 <= num_timesteps)%nat ->
  let paths' := for_threads n thread paths in
  (forall t, (t + 2 <= num_timesteps)%nat ->
     paths' (t * num_paths + p)%nat = price (S t) p) /\
  paths' ((num_timesteps - 1) * num_paths + p)%nat
    = payoff_value payoff (price num_timesteps p).
Proof.
  intros Hp Hn HT. induction n as [|n IH]; [lia|].
  cbv zeta. rewrite for_threads_S.
  set (prev := for_threads n thread paths) in *.
  destruct (Nat.eq_dec n p) as [->|Hne].
  - destruct (generate_paths_thread_spec p prev Hp HT) as (H1 & H2 & _).
    split; assumption.
  - assert (Hlt : (p < n)%nat) by lia. specialize (IH Hlt).
    cbv zeta in IH. destruct IH as [IH1 IH2].
    assert (Hframe : forall t,
      thread n prev (t * num_paths + p)%nat
      = prev (t * num_paths + p)%nat).
    { intros t. destruct (Nat.lt_ge_cases n num_paths) as [Hin|Hout].
      - destruct (generate_paths_thread_spec n prev Hin HT) as (_ & _ & H3).
        apply H3. rewrite Nat.add_comm, Nat.Div0.mod_add.
        rewrite Nat.mod_small; lia.
      - rewrite generate_paths_thread_idle by assumption. reflexivity. }
    split.
    + intros t Ht. rewrite Hframe. apply IH1, Ht.
    + rewrite Hframe. apply IH2.
Qed.

End GeneratePathsFacts.

(** The matrix after the launch made by [do_run]. *)
Lemma generate_paths_launch_entries :
  forall (num_timesteps num_paths : nat) (payoff : Payoff)
         (dt S0 r sigma : R) (samples paths0 : array R) (p : nat),
    (1 <= num_timesteps)%nat -> (p < num_paths)%nat ->
    let paths :=
      launch ((num_paths + 256 - 1) / 256) 256
        (generate_paths_kernel 256 num_timesteps num_paths payoff
           dt S0 r sigma samples) paths0 in
    (forall t, (t + 2 <= num_timesteps)%nat ->
       paths (t * num_paths + p)%nat
       = gbm_price num_paths dt S0 r sigma samples (t + 1) p) /\
    paths (main_d_cashflows num_timesteps num_paths + p)%nat
    = payoff_value payoff
        (gbm_price num_paths dt S0 r sigma samples num_timesteps p).
Proof.
  intros T N payoff dt S0 r sigma samples paths0 p HT Hp paths.
  subst paths.
  rewrite (launch_flat _ _ _
             (generate_paths_thread T N payoff dt S0 r sigma samples))
    by (intros; apply generate_paths_kernel_thread).
  assert (Hcover : (p < (N + 256 - 1) / 256 * 256)%nat).
  { pose proof (Nat.div_mod_eq (N + 256 - 1) 256) as E.
    pose proof (Nat.mod_upper_bound (N + 256 - 1) 256). lia. }
  destruct (generate_paths_threads_spec T N payoff dt S0 r sigma samples
              _ p paths0 Hp Hcover HT) as [H1 H2].
  split.
  - intros t Ht. rewrite Nat.add_1_r. apply H1, Ht.
  - unfold main_d_cashflows. apply H2.
Qed.

(** C1.  After the launch of [generate_paths_kernel] made by [do_run], for
    every path [p]: the entry [(t,p)] of the matrix holds the price
    [S_{t+1}] of the recurrence for every [t <= T-2], and the entry
    [(T-1,p)], which is where the cashflows start, holds the payoff of the
    terminal price [S_T]. *)
Theorem generate_paths_entries :
  forall (num_timesteps num_paths : nat) (payoff : Payoff)
         (dt S0 r sigma : R) (samples paths0 : array R) (p : nat),
    (1 <= num_timesteps)%nat -> (p < num_paths)%nat ->
    let paths :=
      launch ((num_paths + 256 - 1) / 256) 256
        (generate_paths_kernel 256 num_timesteps num_paths payoff
           dt S0 r sigma samples) paths0 in
    (forall t, (t + 2 <= num_timesteps)%nat ->
       paths (t * num_paths + p)%nat
       = gbm_price num_paths dt S0 r sigma samples (t + 1) p) /\
    paths (main_d_cashflows num_timesteps num_paths + p)%nat
    = payoff_value payoff
        (gbm_price num_paths dt S0 r sigma samples num_timesteps p).
Proof.
  intros. apply generate_paths_launch_entries; assumption.
Qed.

(** ** The three conditional swaps of [svd_3x3] *)

Lemma Rlt_dec_true (a b : R) (T : Type) (x y : T) :
  a < b -> (if Rlt_dec a b then x else y) = x.
Proof. intros H. destruct (Rlt_dec a b); [reflexivity|contradiction]. Qed.

Lemma Rlt_dec_false (a b : R) (T : Type) (x y : T) :
  ~ a < b -> (if Rlt_dec a b then x else y) = y.
Proof. intros H. destruct (Rlt_dec a b); [contradiction|reflexivity]. Qed.

Ltac solve_perm3 :=
  first
    [ solve [apply Permutation_refl]
    | solve [apply perm_swap]
    | solve [apply perm_skip, perm_swap]
    | solve [eapply perm_trans; [apply perm_swap|]; apply perm_skip, perm_swap]
    | solve [eapply perm_trans; [apply perm_skip, perm_swap|]; apply perm_swap]
    | solve [eapply perm_trans; [apply perm_swap|];
             eapply perm_trans; [apply perm_skip, perm_swap|]; apply perm_swap] ].

(** C8.  Whatever diagonal and eigenvectors the Jacobi iteration leaves, the
    three conditional swaps (0 vs 1, 0 vs 2, 1 vs 2) leave the diagonal in
    descending order, and every eigenvalue keeps its own column of V: the
    eigenpairs after the swaps are a permutation of those before. *)
Theorem sort_eigenpairs_descending :
  forall st : jacobi_state,
    let st' := sort_eigenpairs st in
    jA00 st' >= jA11 st' /\ jA11 st' >= jA22 st' /\
    Permutation (eigenpairs st) (eigenpairs st') /\
    jA01 st' = jA01 st /\ jA02 st' = jA02 st /\ jA12 st' = jA12 st.
Proof.
  intros [A00 A01 A02 A11 A12 A22 V00 V01 V02 V10 V11 V12 V20 V21 V22].
  unfold sort_eigenpairs, eigenpairs.
  destruct (Rlt_dec A00 A11) as [H1|H1];
    repeat match goal with
           | |- context [Rlt_dec ?x ?y] => destruct (Rlt_dec x y)
           end;
    cbn; repeat split; try lra; solve_perm3.
Qed.

(** ** Guarded reciprocals *)

Lemma checked_div_nonzero (a b : R) : b <> 0 -> checked_div a b = Some (a / b).
Proof.
  intros H. unfold checked_div. destruct (Req_dec_T b 0); [contradiction|].
  reflexivity.
Qed.

Lemma inv_S_small (A : R) : Rabs A < 1.0e-12 -> inv_S A = Some 0.
Proof.
  intros H. unfold inv_S. rewrite Rlt_dec_true by assumption.
  f_equal. lra.
Qed.

Lemma inv_S_not_small (A : R) :
  ~ Rabs A < 1.0e-12 -> A <> 0 /\ inv_S A = Some (1 / A).
Proof.
  intros H.
  assert (HA : A <> 0) by (intros ->; apply H; rewrite Rabs_R0; lra).
  split; [assumption|].
  unfold inv_S. rewrite Rlt_dec_false by assumption.
  rewrite checked_div_nonzero by assumption. f_equal. lra.
Qed.

Lemma inv_S_succeeds (A : R) : exists v, inv_S A = Some v.
Proof.
  destruct (Rlt_dec (Rabs A) 1.0e-12) as [H|H].
  - eexists. apply inv_S_small, H.
  - eexists. apply (inv_S_not_small A H).
Qed.

Lemma inv_R_zero (R_ : R) : R_ = 0 -> inv_R R_ = Some 0.
Proof.
  intros ->. unfold inv_R. destruct (Req_dec_T 0 0.0) as [_|H]; [|lra].
  f_equal. lra.
Qed.

Lemma inv_R_nonzero (R_ : R) : R_ <> 0 -> inv_R R_ = Some (1 / R_).
Proof.
  intros H. unfold inv_R. destruct (Req_dec_T R_ 0.0) as [Hc|_]; [lra|].
  rewrite checked_div_nonzero by assumption. f_equal. lra.
Qed.

Lemma inv_R_succeeds (R_ : R) : exists v, inv_R R_ = Some v.
Proof.
  destruct (Req_dec_T R_ 0) as [H|H].
  - eexists. apply inv_R_zero, H.
  - eexists. apply inv_R_nonzero, H.
Qed.

Lemma svd_3x3_checked_succeeds (m : Z) (sums : double4) (smem_svds : array R) :
  svd_3x3_checked m sums smem_svds = Some (svd_3x3 m sums smem_svds).
Proof.
  unfold svd_3x3.
  destruct (svd_3x3_checked m sums smem_svds) as [s|] eqn:E; [reflexivity|].
  exfalso. revert E. unfold svd_3x3_checked.
  destruct (sort_eigenpairs _)
    as [A00 A01 A02 A11 A12 A22 V00 V01 V02 V10 V11 V12 V20 V21 V22].
  destruct (inv_S_succeeds A00) as [v0 ->].
  destruct (inv_S_succeeds A11) as [v1 ->].
  destruct (inv_S_succeeds A22) as [v2 ->].
  discriminate.
Qed.

Lemma pseudo_inverse_row_checked_succeeds (shared_svd : array R) (S_ : R) :
  pseudo_inverse_row_checked shared_svd S_
  = Some (pseudo_inverse_row shared_svd S_).
Proof.
  unfold pseudo_inverse_row.
  destruct (pseudo_inverse_row_checked shared_svd S_) as [WI|] eqn:E;
    [reflexivity|].
  exfalso. revert E. unfold pseudo_inverse_row_checked.
  destruct (inv_R_succeeds (shared_svd 0%nat)) as [v0 ->].
  destruct (inv_R_succeeds (shared_svd 3%nat)) as [v1 ->].
  destruct (inv_R_succeeds (shared_svd 5%nat)) as [v2 ->].
  discriminate.
Qed.

(** C9.  No reciprocal of an eigenvalue in [svd_3x3] and no reciprocal of a
    diagonal entry of R in the Q-reconstruction of
    [compute_partial_beta_kernel] divides by zero: with a division that
    fails on a zero divisor, both function bodies return a result for every
    input, and it is the result the kernels go on with.  The guards are the
    reason: the reciprocal of an eigenvalue of magnitude below 1e-12 is 0
    and otherwise 1/A with A not zero; the reciprocal of a diagonal entry of
    R that is 0 is 0 and otherwise 1/R. *)
Theorem reciprocals_zero_guarded :
  (forall (m : Z) (sums : double4) (smem_svds : array R),
     svd_3x3_checked m sums smem_svds = Some (svd_3x3 m sums smem_svds)) /\
  (forall (shared_svd : array R) (S_ : R),
     pseudo_inverse_row_checked shared_svd S_
     = Some (pseudo_inverse_row shared_svd S_)) /\
  (forall A : R, Rabs A < 1.0e-12 -> inv_S A = Some 0) /\
  (forall A : R, ~ Rabs A < 1.0e-12 -> A <> 0 /\ inv_S A = Some (1 / A)) /\
  (forall R_ : R, R_ = 0 -> inv_R R_ = Some 0) /\
  (forall R_ : R, R_ <> 0 -> inv_R R_ = Some (1 / R_)).
Proof.
  split; [exact svd_3x3_checked_succeeds|].
  split; [exact pseudo_inverse_row_checked_succeeds|].
  split; [exact inv_S_small|].
  split; [exact inv_S_not_small|].
  split; [exact inv_R_zero|exact inv_R_nonzero].
Qed.

(** ** Grid-stride loops over a row of cells

    A body that writes only the cell of its own path, and reads only that
    cell and cells outside the row, is run once for every path of the row by
    the threads of a grid-stride launch. *)

Section GridStrideRow.

Variables (N G c : nat).
Variable body : nat -> array R -> array R.
Variable a0 : array R.

Hypothesis body_frame :
  forall p a q, q <> (c + p)%nat -> body p a q = a q.
Hypothesis body_local :
  forall p a a', (p < N)%nat ->
    a (c + p)%nat = a' (c + p)%nat ->
    (forall q, (q < c \/ c + N <= q)%nat -> a q = a' q) ->
    body p a (c + p)%nat = body p a' (c + p)%nat.

(** The paths done when the threads below [g] have finished and thread [g]
    has come to [path]. *)
Let done (g path p : nat) : Prop :=
  (p mod G < g \/ (p mod G = g /\ p < path))%nat.

Let row_inv (g path : nat) (a : array R) : Prop :=
  (forall p, (p < N)%nat -> done g path p ->
             a (c + p)%nat = body p a0 (c + p)%nat) /\
  (forall p, (p < N)%nat -> ~ done g path p -> a (c + p)%nat = a0 (c + p)%nat) /\
  (forall q, (q < c \/ c + N <= q)%nat -> a q = a0 q).

Lemma stride_loop_row (fuel g path : nat) (a : array R) :
  (1 <= G)%nat -> (g < G)%nat -> (path mod G = g)%nat ->
  (N <= path + fuel)%nat ->
  row_inv g path a ->
  row_inv (S g) 0 (stride_loop fuel N G body path a).
Proof.
  intros HG Hg. revert path a.
  assert (Hfinish : forall path a, (N <= path)%nat ->
            row_inv g path a -> row_inv (S g) 0 a).
  { intros path a Hpath (I1 & I2 & I3). repeat split; try assumption.
    - intros p Hp Hd. apply I1; [assumption|].
      destruct Hd as [Hd|[_ Hd]]; [|lia].
      unfold done. destruct (Nat.eq_dec (p mod G) g); [right; lia|left; lia].
    - intros p Hp Hd. apply I2; [assumption|].
      intros [Hd'|[Hd' _]]; apply Hd; left; lia. }
  induction fuel as [|fuel IH]; intros path a Hmod Hfuel Hinv; simpl.
  - apply (Hfinish path); [lia|assumption].
  - destruct (Nat.ltb_spec path N) as [Hlt|Hge];
      [|apply (Hfinish path); assumption].
    apply IH.
    + rewrite <- Nat.Div0.add_mod_idemp_r, Nat.Div0.mod_same, Nat.add_0_r.
      assumption.
    + lia.
    + destruct Hinv as (I1 & I2 & I3).
      assert (Hnot : ~ done g path path) by (unfold done; lia).
      assert (Hstep : forall p, (p < N)%nat ->
                done g (path + G) p <-> done g path p \/ p = path).
      { intros p Hp. unfold done. split.
        - intros [H|[H1 H2]]; [left; left; assumption|].
          destruct (Nat.lt_ge_cases p path) as [Hl|Hl];
            [left; right; split; assumption|].
          right.
          pose proof (Nat.div_mod_eq p G). pose proof (Nat.div_mod_eq path G).
          assert (p / G = path / G)%nat by nia. nia.
        - intros [[H|[H1 H2]]| ->]; [left; assumption|right; lia|right; lia]. }
      repeat split.
      * intros p Hp Hd. apply Hstep in Hd; [|assumption].
        destruct (Nat.eq_dec p path) as [->|Hne].
        -- apply body_local.
           ++ assumption.
           ++ apply I2; assumption.
           ++ assumption.
        -- rewrite body_frame by lia. apply I1; [assumption|].
           destruct Hd; [assumption|contradiction].
      * intros p Hp Hd.
        assert (p <> path) by (intros ->; apply Hd, Hstep; [assumption|now right]).
        rewrite body_frame by lia. apply I2; [assumption|].
        intros Hd'. apply Hd, Hstep; [assumption|now left].
      * intros q Hq. rewrite body_frame by lia. apply I3, Hq.
Qed.

Lemma grid_stride_threads_row (n : nat) :
  (1 <= G)%nat -> (n <= G)%nat ->
  row_inv n 0 (for_threads n (grid_stride_loop N G body) a0).
Proof.
  intros HG. induction n as [|n IH]; intros Hn.
  - rewrite for_threads_0. unfold row_inv, done.
    repeat split; intros; try lia; reflexivity.
  - rewrite for_threads_S. unfold grid_stride_loop.
    apply stride_loop_row; try lia.
    + apply Nat.mod_small. lia.
    + destruct (IH ltac:(lia)) as (I1 & I2 & I3).
      repeat split; try assumption.
      * intros p Hp Hd. apply I1; [assumption|].
        destruct Hd as [Hd|[Hd1 Hd2]]; [left; assumption|].
        rewrite Nat.mod_small in Hd1 by lia. lia.
      * intros p Hp Hd. apply I2; [assumption|].
        intros [Hd'|[_ Hd']]; [|lia]. apply Hd. left. assumption.
Qed.

(** The launch: every cell of the row gets the value its path computes from
    the initial contents, and nothing else changes. *)
Lemma grid_stride_launch_row (grid block : nat) :
  G = (grid * block)%nat -> (1 <= G \/ N = 0)%nat ->
  let a :=
    launch grid block
      (fun blockIdx threadIdx =>
         grid_stride_loop N G body (blockIdx * block + threadIdx)%nat) a0 in
  (forall p, (p < N)%nat -> a (c + p)%nat = body p a0 (c + p)%nat) /\
  (forall q, (q < c \/ c + N <= q)%nat -> a q = a0 q).
Proof.
  intros HGeq HG. cbv zeta.
  rewrite (launch_flat _ _ _ (grid_stride_loop N G body))
    by (intros; reflexivity).
  rewrite <- HGeq.
  destruct HG as [HG| ->].
  - destruct (grid_stride_threads_row G HG (le_n G)) as (I1 & _ & I3).
    split; [|assumption].
    intros p Hp. apply I1; [assumption|].
    left. apply Nat.mod_upper_bound. lia.
  - split; [intros; lia|].
    intros q _. clear.
    induction G as [|n IH]; [reflexivity|].
    rewrite for_threads_S, <- IH. reflexivity.
Qed.

End GridStrideRow.

(** ** Cashflow Updater *)

Lemma update_cashflow_grid_dim_pos (num_paths : nat) :
  (1 <= num_paths)%nat -> (1 <= update_cashflow_grid_dim num_paths)%nat.
Proof.
  intros HN. unfold update_cashflow_grid_dim.
  set (grid_dim := ((num_paths + 128 - 1) / 128)%nat).
  assert (Hgrid : (1 <= grid_dim)%nat).
  { unfold grid_dim. apply Nat.div_le_lower_bound; lia. }
  repeat match goal with
         | |- context [Qlt_le_dec ?x ?y] => destruct (Qlt_le_dec x y)
         end; try assumption.
  apply Nat.div_le_lower_bound; [lia|].
  assert (1 <= Nat.max 1 (Z.to_nat
            (Qfloor (inject_Z (Z.of_nat (grid_dim * 128))
                     / inject_Z (Z.of_nat (256 * 112))))))%nat
    by apply Nat.le_max_l.
  nia.
Qed.

Section UpdateCashflowFacts.

Variables (grid num_paths : nat) (payoff : Payoff) (exp_min_r_dt : R).
Variables (beta : array double) (paths : nat) (flag : Z) (cashflows : nat).

Let body :=
  update_cashflow_path payoff exp_min_r_dt beta paths flag cashflows.

(** The new cashflow of a path with price [S_] and cashflow [cashflow]. *)
Lemma update_cashflow_path_value (p : nat) (a : array R) :
  body p a (cashflows + p)%nat =
  let old_cashflow := exp_min_r_dt * a (cashflows + p)%nat in
  if negb (flag =? 0)%Z then old_cashflow
  else
    let S_ := a (paths + p)%nat in
    let payoff_ := payoff_value payoff S_ in
    if Rle_dec payoff_ 1.0e-8 then old_cashflow
    else if double_le (Number payoff_)
              (continuation_estimate exp_min_r_dt beta S_)
         then old_cashflow else payoff_.
Proof.
  unfold body, update_cashflow_path. cbv zeta.
  destruct (negb (flag =? 0)%Z); [apply store_eq|].
  apply store_eq.
Qed.

Lemma update_cashflow_path_frame (p : nat) (a : array R) (q : nat) :
  q <> (cashflows + p)%nat -> body p a q = a q.
Proof.
  intros H. unfold body, update_cashflow_path. cbv zeta.
  destruct (negb (flag =? 0)%Z); apply store_neq; assumption.
Qed.

Lemma update_cashflow_launch (a0 : array R) :
  (1 <= grid \/ num_paths = 0)%nat ->
  (flag <> 0%Z \/ paths + num_paths <= cashflows
   \/ cashflows + num_paths <= paths)%nat ->
  let a :=
    launch grid 128
      (update_cashflow_kernel 128 grid num_paths payoff exp_min_r_dt beta
         paths flag cashflows) a0 in
  (forall p, (p < num_paths)%nat ->
             a (cashflows + p)%nat = body p a0 (cashflows + p)%nat) /\
  (forall q, (q < cashflows \/ cashflows + num_paths <= q)%nat -> a q = a0 q).
Proof.
  intros Hgrid Hdisj.
  apply (grid_stride_launch_row num_paths (grid * 128) cashflows body a0).
  - apply update_cashflow_path_frame.
  - intros p a a' Hp Hown Hout. rewrite !update_cashflow_path_value.
    cbv zeta. rewrite Hown.
    destruct (Z.eqb_spec flag 0) as [Hflag|Hflag]; [|reflexivity].
    cbn [negb].
    rewrite (Hout (paths + p)%nat) by lia. reflexivity.
  - reflexivity.
  - lia.
Qed.

End UpdateCashflowFacts.

(** With coefficients that are numbers the estimate is a number, and both
    tests are comparisons of reals. *)
Lemma update_cashflow_path_own (payoff : Payoff) (exp_min_r_dt : R)
  (beta : array R) (paths : nat) (flag : Z) (cashflows : nat)
  (p : nat) (a : array R) :
  update_cashflow_path payoff exp_min_r_dt (numbers beta) paths flag cashflows
    p a (cashflows + p)%nat =
  let old_cashflow := exp_min_r_dt * a (cashflows + p)%nat in
  if negb (flag =? 0)%Z then old_cashflow
  else
    let S_ := a (paths + p)%nat in
    let payoff_ := payoff_value payoff S_ in
    if Rle_dec payoff_ 1.0e-8 then old_cashflow
    else if Rle_dec payoff_
              ((beta 0%nat + beta 1%nat * S_ + beta 2%nat * (S_ * S_))
               * exp_min_r_dt)
         then old_cashflow else payoff_.
Proof.
  rewrite update_cashflow_path_value. cbv zeta.
  unfold continuation_estimate, numbers. cbn [double_add double_mul double_le].
  destruct (negb (flag =? 0)%Z); [reflexivity|].
  destruct (Rle_dec _ 1.0e-8); [reflexivity|].
  destruct (Rle_dec _ _); reflexivity.
Qed.

(** A NaN coefficient makes the estimate NaN, whatever the price. *)
Lemma continuation_estimate_nan (exp_min_r_dt : R) (beta : array double)
  (S_ : R) :
  beta 0%nat = NaN \/ beta 1%nat = NaN \/ beta 2%nat = NaN ->
  continuation_estimate exp_min_r_dt beta S_ = NaN.
Proof.
  unfold continuation_estimate.
  intros [H|[H|H]]; rewrite H;
    destruct (beta 0%nat), (beta 1%nat), (beta 2%nat); reflexivity.
Qed.

(** ** One turn of the main loop *)

Section TimestepFacts.

Variables (num_paths : nat) (payoff : Payoff) (dt r : R) (d_cashflows : nat).

Let step := do_run_timestep num_paths payoff dt r d_cashflows.

Lemma do_run_timestep_flags (t : nat) (dev : device) :
  d_all_out_of_the_money (step t dev) = d_all_out_of_the_money dev.
Proof. reflexivity. Qed.


Lemma compute_final_beta_flagged (flag : Z) (beta : array R) :
  flag <> 0%Z ->
  let beta' := compute_final_beta_kernel 128 flag beta in
  beta' 0%nat = 0 /\ beta' 1%nat = 0 /\ beta' 2%nat = 0.
Proof.
  intros Hflag. cbv zeta. unfold compute_final_beta_kernel.
  destruct (Z.eqb_spec flag 0) as [|_]; [contradiction|]. cbn [negb].
  assert (H : forall n i, (i < 3)%nat -> (i < n)%nat ->
            for_threads n
              (fun tid beta => if (tid <? 3)%nat then store beta tid 0.0 else beta)
              beta i = 0).
  { induction n as [|n IH]; intros i Hi Hn; [lia|].
    rewrite for_threads_S.
    destruct (Nat.ltb_spec n 3) as [H3|H3].
    - destruct (Nat.eq_dec i n) as [->|Hne].
      + rewrite store_eq. lra.
      + rewrite store_neq by assumption. apply IH; lia.
    - apply IH; lia. }
  repeat split; apply H; lia.
Qed.

(** The new cashflow of every path, and what stays as it was. *)
Lemma do_run_timestep_cashflows (t : nat) (dev : device) :
  (d_all_out_of_the_money dev t <> 0%Z
   \/ t * num_paths + num_paths <= d_cashflows
   \/ d_cashflows + num_paths <= t * num_paths)%nat ->
  (forall p, (p < num_paths)%nat ->
     d_paths (step t dev) (d_cashflows + p)%nat =
     update_cashflow_path payoff (exp (- r * dt))
       (numbers (d_temp_storage (step t dev)))
       (t * num_paths) (d_all_out_of_the_money dev t) d_cashflows
       p (d_paths dev) (d_cashflows + p)%nat) /\
  (forall q, (q < d_cashflows \/ d_cashflows + num_paths <= q)%nat ->
     d_paths (step t dev) q = d_paths dev q).
Proof.
  intros Hdisj. unfold step, do_run_timestep. cbn [d_paths d_temp_storage].
  apply update_cashflow_launch; [|assumption].
  destruct num_paths as [|n]; [right; reflexivity|left].
  apply update_cashflow_grid_dim_pos. lia.
Qed.

Lemma do_run_timestep_flagged (t : nat) (dev : device) :
  d_all_out_of_the_money dev t <> 0%Z ->
  let dev' := step t dev in
  d_temp_storage dev' 0%nat = 0 /\
  d_temp_storage dev' 1%nat = 0 /\
  d_temp_storage dev' 2%nat = 0 /\
  (forall p, (p < num_paths)%nat ->
     d_paths dev' (d_cashflows + p)%nat
     = exp (- r * dt) * d_paths dev (d_cashflows + p)%nat).
Proof.
  intros Hflag dev'.
  assert (Hbeta := compute_final_beta_flagged (d_all_out_of_the_money dev t)
    (compute_partial_beta_kernel 128 128 num_paths payoff (d_svds dev)
       (16 * t) (d_paths dev) (t * num_paths) d_cashflows
       (d_all_out_of_the_money dev t) (d_temp_storage dev)) Hflag).
  cbv zeta in Hbeta. destruct Hbeta as (H0 & H1 & H2).
  repeat split; try assumption.
  intros p Hp.
  destruct (do_run_timestep_cashflows t dev (or_introl Hflag)) as [Hown _].
  subst dev'. rewrite Hown by assumption.
  rewrite update_cashflow_path_own. cbv zeta.
  destruct (Z.eqb_spec (d_all_out_of_the_money dev t) 0); [contradiction|].
  reflexivity.
Qed.

End TimestepFacts.

(** When the coefficients of the timestep are numbers, as they are in
    [do_run_timestep] here, the new cashflow of a path at a timestep that is
    not flagged is its immediate payoff exactly when that payoff exceeds
    1e-8 and exceeds exp(-r*dt)*(beta0 + beta1*S + beta2*S^2); in every
    other case it is exp(-r*dt) times the old cashflow. *)
Lemma do_run_timestep_exercise_rule :
  forall (num_timesteps num_paths : nat) (payoff : Payoff) (dt r : R)
         (t p : nat) (dev : device),
    (t + 2 <= num_timesteps)%nat -> (p < num_paths)%nat ->
    d_all_out_of_the_money dev t = 0%Z ->
    let d_cashflows := main_d_cashflows num_timesteps num_paths in
    let dev' := do_run_timestep num_paths payoff dt r d_cashflows t dev in
    let beta0 := d_temp_storage dev' 0%nat in
    let beta1 := d_temp_storage dev' 1%nat in
    let beta2 := d_temp_storage dev' 2%nat in
    let S_ := d_paths dev (t * num_paths + p)%nat in
    let immediate := payoff_value payoff S_ in
    let continuation := exp (- r * dt) * (beta0 + beta1 * S_ + beta2 * S_ ^ 2) in
    let carry_forward := exp (- r * dt) * d_paths dev (d_cashflows + p)%nat in
    (immediate > 1.0e-8 /\ immediate > continuation ->
     d_paths dev' (d_cashflows + p)%nat = immediate) /\
    (~ (immediate > 1.0e-8 /\ immediate > continuation) ->
     d_paths dev' (d_cashflows + p)%nat = carry_forward).
Proof.
  intros T N payoff dt r t p dev Ht Hp Hflag.
  intros c dev' beta0 beta1 beta2 S_ immediate continuation carry_forward.
  assert (Hdisj : (t * N + N <= c)%nat).
  { unfold c, main_d_cashflows. nia. }
  destruct (do_run_timestep_cashflows N payoff dt r c t dev
              (or_intror (or_introl Hdisj))) as [Hown _].
  fold dev' in Hown. rewrite (Hown p Hp), update_cashflow_path_own.
  cbv zeta. rewrite Hflag. cbn [Z.eqb negb].
  fold beta0 beta1 beta2 S_ immediate.
  replace ((beta0 + beta1 * S_ + beta2 * (S_ * S_)) * exp (- r * dt))
    with continuation by (unfold continuation; ring).
  fold carry_forward.
  destruct (Rle_dec immediate 1.0e-8) as [H1|H1];
    [|destruct (Rle_dec immediate continuation) as [H2|H2]];
    split; intros H; try reflexivity; try lra.
Qed.

(** ** Sums *)

Lemma sum_upto_plus (n : nat) (f g : nat -> R) :
  sum_upto n (fun i => f i + g i) = sum_upto n f + sum_upto n g.
Proof. induction n as [|n IH]; simpl; [lra|rewrite IH; lra]. Qed.

Lemma sum_upto_zero (n : nat) (f : nat -> R) :
  (forall i, (i < n)%nat -> f i = 0) -> sum_upto n f = 0.
Proof.
  induction n as [|n IH]; intros H; simpl; [reflexivity|].
  rewrite IH, H by (intros; try apply H; lia). lra.
Qed.

Lemma sum_upto_scale (n : nat) (k : R) (f : nat -> R) :
  sum_upto n (fun i => k * f i) = k * sum_upto n f.
Proof. induction n as [|n IH]; simpl; [lra|rewrite IH; lra]. Qed.

Lemma sum_upto_le (n : nat) (f g : nat -> R) :
  (forall i, (i < n)%nat -> f i <= g i) -> sum_upto n f <= sum_upto n g.
Proof.
  induction n as [|n IH]; intros H; simpl; [lra|].
  assert (f n <= g n) by (apply H; lia).
  assert (sum_upto n f <= sum_upto n g) by (apply IH; intros; apply H; lia).
  lra.
Qed.

Lemma sum_upto_nonneg (n : nat) (f : nat -> R) :
  (forall i, (i < n)%nat -> 0 <= f i) -> 0 <= sum_upto n f.
Proof.
  intros H. rewrite <- (sum_upto_zero n (fun _ => 0)) by reflexivity.
  apply sum_upto_le, H.
Qed.

Lemma sum_upto_single (n p : nat) (v : R) :
  sum_upto n (fun i => if (i =? p)%nat then v else 0)
  = if (p <? n)%nat then v else 0.
Proof.
  induction n as [|n IH]; simpl; [reflexivity|]. rewrite IH.
  destruct (Nat.ltb_spec p n), (Nat.eqb_spec n p), (Nat.ltb_spec p (S n));
    try lia; lra.
Qed.

(** Cells beyond [N] that count for nothing. *)
Lemma sum_upto_guard (M N : nat) (f : nat -> R) :
  (N <= M)%nat ->
  sum_upto M (fun q => if (q <? N)%nat then f q else 0) = sum_upto N f.
Proof.
  intros H. replace M with (N + (M - N))%nat by lia.
  rewrite sum_upto_add, (sum_upto_zero (M - N)).
  - rewrite Rplus_0_r. apply sum_upto_ext. intros i Hi.
    destruct (Nat.ltb_spec i N); [reflexivity|lia].
  - intros i _. destruct (Nat.ltb_spec (N + i) N); [lia|reflexivity].
Qed.

(** Blocks of [block] threads. *)
Lemma sum_upto_blocks (grid block : nat) (h : nat -> R) :
  sum_upto grid (fun b => sum_upto block (fun tid => h (b * block + tid)%nat))
  = sum_upto (grid * block) h.
Proof.
  induction grid as [|g IH]; simpl; [reflexivity|].
  rewrite IH. replace (block + g * block)%nat with (g * block + block)%nat by lia.
  rewrite sum_upto_add. reflexivity.
Qed.

Lemma mod_eq_close (G a b : nat) :
  (1 <= G)%nat -> (a mod G = b mod G)%nat -> (a <= b < a + G)%nat -> b = a.
Proof.
  intros HG Hmod Hab.
  pose proof (Nat.div_mod_eq a G) as Ea. pose proof (Nat.div_mod_eq b G) as Eb.
  rewrite Hmod in Ea.
  destruct (Nat.lt_trichotomy (a / G) (b / G)) as [H|[H|H]]; nia.
Qed.

(** The sum a thread accumulates in a grid-stride loop. *)
Lemma stride_loop_sum (fuel n G g path : nat) (f : nat -> R) (s : R) :
  (1 <= G)%nat -> (g < G)%nat -> (path mod G = g)%nat ->
  (n <= path + fuel)%nat ->
  stride_loop fuel n G (fun i acc => acc + f i) path s
  = s + sum_upto n
          (fun i => if ((i mod G =? g) && (path <=? i))%nat then f i else 0).
Proof.
  intros HG Hg. revert path s.
  assert (Hdone : forall path, (n <= path)%nat ->
    sum_upto n
      (fun i => if ((i mod G =? g) && (path <=? i))%nat then f i else 0) = 0).
  { intros path Hpath. apply sum_upto_zero. intros i Hi.
    destruct (Nat.leb_spec path i); [lia|].
    rewrite andb_false_r. reflexivity. }
  induction fuel as [|fuel IH]; intros path s Hmod Hfuel; simpl.
  - rewrite Hdone by lia. lra.
  - destruct (Nat.ltb_spec path n) as [Hlt|Hge]; [|rewrite Hdone by lia; lra].
    rewrite IH; [|
      rewrite <- Nat.Div0.add_mod_idemp_r, Nat.Div0.mod_same, Nat.add_0_r;
      assumption | lia].
    rewrite Rplus_assoc. f_equal.
    transitivity
      (sum_upto n
         (fun i => (if (i =? path)%nat then f path else 0)
                   + (if ((i mod G =? g) && (path + G <=? i))%nat
                      then f i else 0))).
    { rewrite sum_upto_plus, sum_upto_single.
      destruct (Nat.ltb_spec path n); [reflexivity|lia]. }
    apply sum_upto_ext. intros i Hi.
    destruct (Nat.eqb_spec (i mod G) g) as [Hm|Hm]; cbn [andb].
    + destruct (Nat.eqb_spec i path) as [->|Hne].
      * destruct (Nat.leb_spec (path + G) path), (Nat.leb_spec path path);
          try lia; lra.
      * destruct (Nat.leb_spec (path + G) i), (Nat.leb_spec path i);
          try lia; try lra.
        exfalso. apply Hne. apply (mod_eq_close G); lia.
    + destruct (Nat.eqb_spec i path) as [->|]; [contradiction|lra].
Qed.

Lemma grid_stride_sum (n G : nat) (f : nat -> R) :
  (1 <= G)%nat ->
  sum_upto G
    (fun g => grid_stride_loop n G (fun i acc => acc + f i) g 0)
  = sum_upto n f.
Proof.
  intros HG.
  assert (H : forall u, (u <= G)%nat ->
    sum_upto u (fun g => grid_stride_loop n G (fun i acc => acc + f i) g 0)
    = sum_upto n (fun i => if (i mod G <? u)%nat then f i else 0)).
  { induction u as [|u IH]; intros Hu; simpl.
    - symmetry. apply sum_upto_zero. reflexivity.
    - rewrite IH by lia. unfold grid_stride_loop.
      rewrite (stride_loop_sum n n G u u) by
        (try lia; apply Nat.mod_small; lia).
      rewrite Rplus_0_l, <- sum_upto_plus. apply sum_upto_ext.
      intros i Hi.
      destruct (Nat.ltb_spec (i mod G) u), (Nat.eqb_spec (i mod G) u),
        (Nat.ltb_spec (i mod G) (S u)); try lia; cbn [andb]; try lra.
      destruct (Nat.leb_spec u i); [lra|].
      rewrite Nat.mod_small in * by lia. lia. }
  rewrite H by lia. apply sum_upto_ext. intros i Hi.
  pose proof (Nat.mod_upper_bound i G).
  destruct (Nat.ltb_spec (i mod G) G); [reflexivity|lia].
Qed.

(** ** Price Reducer *)

Lemma for_threads_store_each (n : nat) (g : nat -> R) (s : array R) (i : nat) :
  for_threads n (fun b sums => store sums b (g b)) s i
  = if (i <? n)%nat then g i else s i.
Proof.
  induction n as [|n IH]; [reflexivity|].
  rewrite for_threads_S. unfold store at 1.
  destruct (Nat.eqb_spec i n) as [->|Hne].
  - destruct (Nat.ltb_spec n (S n)); [reflexivity|lia].
  - rewrite IH. destruct (Nat.ltb_spec i n), (Nat.ltb_spec i (S n));
      try lia; reflexivity.
Qed.

Lemma do_run_reduce_value (num_paths : nat) (dt r : R) (d_cashflows : nat)
  (dev : device) :
  d_temp_storage (do_run_reduce num_paths dt r d_cashflows dev) 0%nat
  = exp (- r * dt)
    * sum_upto num_paths (fun p => d_paths dev (d_cashflows + p)%nat)
    / INR num_paths.
Proof.
  unfold do_run_reduce. cbn [d_temp_storage].
  unfold compute_final_sum_kernel. rewrite store_eq.
  f_equal. f_equal.
  rewrite atomicAdd_all_sum, Rplus_0_l.
  set (grid_dim := ((num_paths + 128 - 1) / 128)%nat).
  rewrite (sum_upto_ext 128 _
             (fun g => grid_stride_loop grid_dim 128
                (fun i acc => acc + 
                   sum_upto 128 (fun tid =>
                     if (i * 128 + tid <? num_paths)%nat
                     then d_paths dev (d_cashflows + (i * 128 + tid))%nat
                     else 0)) g 0.0)).
  - replace 0.0 with 0 by lra. rewrite grid_stride_sum by lia.
    rewrite (sum_upto_blocks grid_dim 128
               (fun q => if (q <? num_paths)%nat
                         then d_paths dev (d_cashflows + q)%nat else 0)).
    apply sum_upto_guard.
    unfold grid_dim.
    pose proof (Nat.div_mod_eq (num_paths + 128 - 1) 128).
    pose proof (Nat.mod_upper_bound (num_paths + 128 - 1) 128). lia.
  - intros g Hg. unfold grid_stride_loop.
    assert (H : forall fuel path s,
      stride_loop fuel grid_dim 128
        (fun item sum =>
           sum + for_threads grid_dim
                   (compute_partial_sums_block 128 num_paths (d_paths dev)
                      d_cashflows) (d_temp_storage dev) item) path s
      = stride_loop fuel grid_dim 128
          (fun i acc =>
             acc + sum_upto 128 (fun tid =>
                     if (i * 128 + tid <? num_paths)%nat
                     then d_paths dev (d_cashflows + (i * 128 + tid))%nat
                     else 0)) path s).
    { induction fuel as [|fuel IH]; intros path s; cbn [stride_loop];
        [reflexivity|].
      destruct (Nat.ltb_spec path grid_dim) as [Hlt|Hge]; [|reflexivity].
      rewrite IH. f_equal. f_equal.
      unfold compute_partial_sums_block.
      rewrite (for_threads_store_each grid_dim
                 (fun b => atomicAdd_all 128
                    (fun threadIdx =>
                       if (b * 128 + threadIdx <? num_paths)%nat
                       then d_paths dev (d_cashflows + (b * 128 + threadIdx))%nat
                       else 0.0) 0)).
      destruct (Nat.ltb_spec path grid_dim); [|lia].
      rewrite atomicAdd_all_sum, Rplus_0_l.
      apply sum_upto_ext. intros tid _.
      destruct (path * 128 + tid <? num_paths)%nat; [reflexivity|lra]. }
    apply H.
Qed.

(** C4.  For every state the backward induction can end in, the two kernels
    of the Price Reducer leave exp(-r*dt) times the sum of the cashflows of
    all paths divided by the number of paths as the price; this is the value
    [do_run] returns. *)
Theorem price_reducer_value :
  (forall (num_paths : nat) (dt r : R) (d_cashflows : nat) (dev : device),
     d_temp_storage (do_run_reduce num_paths dt r d_cashflows dev) 0%nat
     = exp (- r * dt)
       * sum_upto num_paths (fun p => d_paths dev (d_cashflows + p)%nat)
       / INR num_paths) /\
  (forall (num_timesteps num_paths : nat) (payoff : Payoff)
          (dt S0 r sigma : R) (h_samples : array R) (d_cashflows : nat)
          (shared0 : nat -> array Z * array R) (dev : device),
     let final :=
       main_loop num_paths payoff dt r d_cashflows (num_timesteps - 1)
         (do_run_setup num_timesteps num_paths payoff dt S0 r sigma
            h_samples shared0 dev) in
     do_run num_timesteps num_paths payoff dt S0 r sigma h_samples
       d_cashflows shared0 dev
     = exp (- r * dt)
       * sum_upto num_paths (fun p => d_paths final (d_cashflows + p)%nat)
       / INR num_paths).
Proof.
  split.
  - apply do_run_reduce_value.
  - intros. unfold do_run, do_run_device. apply do_run_reduce_value.
Qed.

(** ** Regression Builder: the scan of the paths *)

Lemma zsum_upto_ext (n : nat) (f g : nat -> Z) :
  (forall i, (i < n)%nat -> f i = g i) -> zsum_upto n f = zsum_upto n g.
Proof.
  induction n as [|n IH]; intros H; simpl; [reflexivity|].
  rewrite IH, H by (intros; try apply H; lia). reflexivity.
Qed.

Lemma zsum_upto_add (a n : nat) (f : nat -> Z) :
  zsum_upto (a + n) f
  = (zsum_upto a f + zsum_upto n (fun i => f (a + i)%nat))%Z.
Proof.
  induction n as [|n IH].
  - rewrite Nat.add_0_r. simpl. lia.
  - rewrite Nat.add_succ_r. simpl. rewrite IH. lia.
Qed.

Lemma zsum_upto_plus (n : nat) (f g : nat -> Z) :
  zsum_upto n (fun i => (f i + g i)%Z) = (zsum_upto n f + zsum_upto n g)%Z.
Proof. induction n as [|n IH]; simpl; [reflexivity|rewrite IH; lia]. Qed.

Lemma zsum_upto_zero (n : nat) (f : nat -> Z) :
  (forall i, (i < n)%nat -> f i = 0%Z) -> zsum_upto n f = 0%Z.
Proof.
  induction n as [|n IH]; intros H; simpl; [reflexivity|].
  rewrite IH, H by (intros; try apply H; lia). reflexivity.
Qed.

Lemma zsum_upto_nonneg (n : nat) (f : nat -> Z) :
  (forall i, (i < n)%nat -> (0 <= f i)%Z) -> (0 <= zsum_upto n f)%Z.
Proof.
  induction n as [|n IH]; intros H; simpl; [lia|].
  assert (0 <= f n)%Z by (apply H; lia).
  assert (0 <= zsum_upto n f)%Z by (apply IH; intros; apply H; lia).
  lia.
Qed.

Lemma zsum_upto_mono (a b : nat) (f : nat -> Z) :
  (forall i, (0 <= f i)%Z) -> (a <= b)%nat ->
  (zsum_upto a f <= zsum_upto b f)%Z.
Proof.
  intros Hf Hab. replace b with (a + (b - a))%nat by lia.
  rewrite zsum_upto_add.
  pose proof (zsum_upto_nonneg (b - a) (fun i => f (a + i)%nat)
                (fun i _ => Hf _)). lia.
Qed.

Lemma for_threads_zsum (n : nat) (f : nat -> Z) (init : Z) :
  for_threads n (fun tid acc => (acc + f tid)%Z) init
  = (init + zsum_upto n f)%Z.
Proof.
  induction n as [|n IH].
  - simpl. rewrite for_threads_0. lia.
  - rewrite for_threads_S, IH. simpl. lia.
Qed.

(** The number of elements a filter keeps, as a sum of indicators. *)
Lemma zsum_upto_filter (f : nat -> bool) (n : nat) :
  zsum_upto n (fun p => Z.b2z (f p))
  = Z.of_nat (length (filter f (seq 0 n))).
Proof.
  induction n as [|n IH]; [reflexivity|].
  rewrite seq_S, filter_app, length_app. simpl. rewrite IH.
  destruct (f n); simpl; lia.
Qed.

(** The element of a filtered range that has [k] kept elements below it. *)
Lemma nth_filter_seq (f : nat -> bool) (n p d : nat) :
  (p < n)%nat -> f p = true ->
  nth (length (filter f (seq 0 p))) (filter f (seq 0 n)) d = p.
Proof.
  intros Hp Hf.
  replace n with (p + S (n - p - 1))%nat by lia.
  rewrite seq_app, filter_app, app_nth2, Nat.sub_diag by lia.
  simpl. rewrite Hf. reflexivity.
Qed.

Lemma filter_seq_increasing (f : nat -> bool) (a n : nat) :
  StronglySorted lt (filter f (seq a n)).
Proof.
  revert a. induction n as [|n IH]; intros a; simpl; [constructor|].
  destruct (f a); [|apply IH].
  constructor; [apply IH|].
  apply Forall_forall. intros x Hx.
  apply filter_In in Hx. destruct Hx as [Hx _].
  apply in_seq in Hx. lia.
Qed.

Lemma for_threads_store_if {A : Type} (n : nat) (cond : nat -> bool)
  (v : nat -> A) (s : array A) (i : nat) :
  for_threads n
    (fun tid a => if cond tid then store a tid (v tid) else a) s i
  = if (i <? n)%nat && cond i then v i else s i.
Proof.
  induction n as [|n IH]; [reflexivity|].
  rewrite for_threads_S.
  destruct (Nat.eqb_spec i n) as [->|Hne].
  - destruct (Nat.ltb_spec n (S n)); [|lia]. cbn [andb].
    destruct (cond n).
    + apply store_eq.
    + rewrite IH. destruct (Nat.ltb_spec n n); [lia|reflexivity].
  - assert (E : for_threads n
                  (fun tid a => if cond tid then store a tid (v tid) else a)
                  s i
                = if (i <? S n)%nat && cond i then v i else s i).
    { rewrite IH. destruct (Nat.ltb_spec i n), (Nat.ltb_spec i (S n));
        try lia; reflexivity. }
    destruct (cond n); [rewrite store_neq by assumption|]; apply E.
Qed.

Lemma for_threads_lor_zero (n : nat) (cond : nat -> bool) (v : nat -> Z) :
  for_threads n
    (fun tid lsum => if cond tid then Z.lor lsum (v tid) else lsum) 0%Z = 0%Z ->
  forall tid, (tid < n)%nat -> cond tid = true -> v tid = 0%Z.
Proof.
  induction n as [|n IH]; intros H tid Htid Hc; [lia|].
  rewrite for_threads_S in H.
  destruct (cond n) eqn:Hn.
  - apply Z.lor_eq_0_iff in H. destruct H as [H1 H2].
    destruct (Nat.eq_dec tid n) as [->|Hne]; [assumption|].
    apply IH; try assumption; lia.
  - destruct (Nat.eq_dec tid n) as [->|Hne]; [congruence|].
    apply IH; try assumption; lia.
Qed.

Section SvdScanFacts.

Variables (NT N : nat) (payoff : Payoff) (paths : array R) (offset : nat).
Let itm := svd_in_the_money N payoff paths offset.
Let price := svd_load_price N paths offset.
Let rank := in_the_money_rank N payoff paths offset.
Let round := svd_round NT N payoff paths offset.

Lemma svd_itm_bool (p : nat) : itm p = 0%Z \/ itm p = 1%Z.
Proof.
  unfold itm, svd_in_the_money.
  destruct (is_in_the_money payoff _); [right|left]; reflexivity.
Qed.

Lemma svd_rank_S (q : nat) :
  rank (S q) = (rank q + if (q <? N)%nat then itm q else 0)%Z.
Proof.
  unfold rank, in_the_money_rank, itm, svd_in_the_money, svd_load_price.
  simpl. destruct (q <? N)%nat; reflexivity.
Qed.

Lemma svd_rank_add (q u : nat) :
  rank (q + u)
  = (rank q
     + zsum_upto u (fun i => if (q + i <? N)%nat then itm (q + i)%nat else 0))%Z.
Proof.
  unfold rank, in_the_money_rank. rewrite zsum_upto_add. f_equal.
  apply zsum_upto_ext. intros i _.
  unfold itm, svd_in_the_money, svd_load_price.
  destruct (q + i <? N)%nat; reflexivity.
Qed.

Lemma svd_rank_mono (a b : nat) : (a <= b)%nat -> (rank a <= rank b)%Z.
Proof.
  intros H. unfold rank, in_the_money_rank. apply zsum_upto_mono; [|assumption].
  intros i. destruct (i <? N)%nat; [|lia].
  destruct (is_in_the_money payoff _); simpl; lia.
Qed.

Lemma svd_rank_nonneg (q : nat) : (0 <= rank q)%Z.
Proof. apply (svd_rank_mono 0 q). lia. Qed.

Lemma svd_rank_beyond (q : nat) : (N <= q)%nat -> rank q = rank N.
Proof.
  intros H. replace q with (N + (q - N))%nat by lia.
  rewrite svd_rank_add, zsum_upto_zero; [lia|].
  intros i _. destruct (Nat.ltb_spec (N + i) N); [lia|reflexivity].
Qed.

Lemma svd_rank_length (q : nat) :
  (q <= N)%nat ->
  rank q
  = Z.of_nat (length (filter
       (fun p => is_in_the_money payoff (paths (offset + p)%nat)) (seq 0 q))).
Proof.
  intros H. rewrite <- zsum_upto_filter.
  unfold rank, in_the_money_rank. apply zsum_upto_ext. intros i Hi.
  destruct (Nat.ltb_spec i N); [reflexivity|lia].
Qed.

Lemma exclusive_scan_spec (scan_input : array Z) (u : nat) :
  (u <= NT)%nat -> exclusive_scan NT scan_input u = zsum_upto u scan_input.
Proof.
  unfold exclusive_scan, for_loop. revert u. generalize NT as n.
  induction n as [|n IH]; intros u Hu.
  - replace u with 0%nat by lia. reflexivity.
  - rewrite for_threads_S.
    destruct (Nat.eq_dec u (S n)) as [->|Hne].
    + rewrite store_eq, IH by lia. reflexivity.
    + rewrite store_neq by assumption. apply IH. lia.
Qed.

Hypothesis HNT : (1 <= NT)%nat.

(** The counters [m] after a round. *)
Lemma svd_round_m (k : nat) (st : svd_block) (tid : nat) :
  (tid < NT)%nat ->
  b_m (round k st) tid
  = (b_m st tid
     + if (tid + k * NT <? N)%nat then itm (tid + k * NT)%nat else 0)%Z.
Proof.
  intros Htid. unfold round, svd_round. cbn [b_m].
  destruct (Nat.ltb_spec (tid + k * NT) N) as [Hact|Hact]; cbn [andb];
    [|lia].
  match goal with
  | |- context [(?l =? 0)%Z] => destruct (Z.eqb_spec l 0) as [Hl|Hl]
  end; cbn [negb]; [|reflexivity].
  apply for_threads_lor_zero with (tid := tid) in Hl; try assumption.
  - fold itm in Hl. rewrite Hl. lia.
  - apply Nat.ltb_lt. assumption.
Qed.

(** The counters [m] of the threads add up to the number of paths in the
    money among those scanned. *)
Lemma svd_rounds_m (k : nat) (st0 : svd_block) :
  zsum_upto NT (b_m (for_loop k round st0))
  = (zsum_upto NT (b_m st0) + rank (k * NT))%Z.
Proof.
  unfold for_loop. induction k as [|k IH].
  - rewrite for_threads_0. simpl.
    unfold rank, in_the_money_rank. simpl. lia.
  - rewrite for_threads_S.
    rewrite (zsum_upto_ext NT _ _ (svd_round_m k _)).
    rewrite zsum_upto_plus, IH.
    replace (S k * NT)%nat with (k * NT + NT)%nat by lia.
    rewrite svd_rank_add, <- Z.add_assoc. f_equal. f_equal.
    apply zsum_upto_ext. intros i _.
    rewrite (Nat.add_comm i (k * NT)). reflexivity.
Qed.

Lemma svd_rounds_cover : (N <= svd_rounds NT N * NT)%nat.
Proof.
  unfold svd_rounds.
  pose proof (Nat.div_mod_eq (N + NT - 1) NT).
  pose proof (Nat.mod_upper_bound (N + NT - 1) NT). lia.
Qed.

Lemma svd_scan_paths_lsum (shared0 : array Z * array R) :
  for_threads NT
    (fun tid lsum =>
       (lsum + b_m (svd_scan_paths NT N payoff paths offset shared0) tid)%Z)
    0%Z
  = rank N.
Proof.
  rewrite for_threads_zsum. unfold svd_scan_paths.
  fold round. rewrite svd_rounds_m.
  rewrite (svd_rank_beyond (svd_rounds NT N * NT)) by apply svd_rounds_cover.
  unfold svd_block_init. cbn [b_m].
  rewrite zsum_upto_zero by reflexivity. lia.
Qed.

End SvdScanFacts.

Lemma in_the_money_rank_count (num_paths : nat) (payoff : Payoff)
  (paths : array R) (t : nat) :
  in_the_money_rank num_paths payoff paths (t * num_paths) num_paths
  = Z.of_nat (length (in_the_money_paths payoff paths num_paths t)).
Proof. apply svd_rank_length. lia. Qed.

(** ** Regression Builder: the flags *)

Lemma prepare_svd_block_flags (num_paths : nat) (min_in_the_money : Z)
  (payoff : Payoff) (paths : array R) (shared0 : array Z * array R)
  (blockIdx : nat) (flags : array Z) (svds : array R) :
  fst (prepare_svd_block 256 num_paths min_in_the_money payoff paths shared0
         blockIdx (flags, svds))
  = if (Z.of_nat (length (in_the_money_paths payoff paths num_paths blockIdx))
        <? min_in_the_money)%Z
    then store flags blockIdx 1%Z else flags.
Proof.
  unfold prepare_svd_block.
  rewrite svd_scan_paths_lsum by lia.
  rewrite in_the_money_rank_count. cbn [fst Nat.eqb andb]. reflexivity.
Qed.

Lemma prepare_svd_kernel_flags (grid num_paths : nat) (min_in_the_money : Z)
  (payoff : Payoff) (paths : array R) (shared0 : nat -> array Z * array R)
  (flags : array Z) (svds : array R) (t : nat) :
  fst (prepare_svd_kernel 256 grid num_paths min_in_the_money payoff paths
         shared0 (flags, svds)) t
  = if (t <? grid)%nat
       && (Z.of_nat (length (in_the_money_paths payoff paths num_paths t))
           <? min_in_the_money)%Z
    then 1%Z else flags t.
Proof.
  unfold prepare_svd_kernel. induction grid as [|g IH]; [reflexivity|].
  rewrite for_threads_S.
  destruct (for_threads g _ (flags, svds)) as [flags' svds'] eqn:E.
  rewrite prepare_svd_block_flags. cbn [fst] in IH.
  destruct (Nat.eq_dec t g) as [->|Hne].
  - destruct (Nat.ltb_spec g (S g)); [|lia]. cbn [andb].
    destruct (_ <? min_in_the_money)%Z; [apply store_eq|].
    rewrite IH. destruct (Nat.ltb_spec g g); [lia|reflexivity].
  - assert (E' : flags' t
                 = if (t <? S g)%nat
                      && (Z.of_nat (length (in_the_money_paths payoff paths
                                              num_paths t))
                          <? min_in_the_money)%Z
                   then 1%Z else flags t).
    { rewrite IH. destruct (Nat.ltb_spec t g), (Nat.ltb_spec t (S g));
        try lia; reflexivity. }
    destruct (_ <? min_in_the_money)%Z at 1;
      [rewrite store_neq by assumption|]; apply E'.
Qed.

(** ** The first part of [do_run] *)

Section SetupFacts.

Variables (num_timesteps num_paths : nat) (payoff : Payoff).
Variables (dt S0 r sigma : R) (h_samples : array R).
Variable shared0 : nat -> array Z * array R.
Variable dev : device.

Let generated :=
  launch ((num_paths + 256 - 1) / 256) 256
    (generate_paths_kernel 256 num_timesteps num_paths payoff dt S0 r sigma
       h_samples) (d_paths dev).
Let dev1 :=
  do_run_setup num_timesteps num_paths payoff dt S0 r sigma h_samples
    shared0 dev.

Lemma do_run_setup_paths : d_paths dev1 = generated.
Proof.
  unfold dev1, do_run_setup, generated.
  destruct (prepare_svd_kernel _ _ _ _ _ _ _ _). reflexivity.
Qed.

Lemma do_run_setup_temp : d_temp_storage dev1 = d_temp_storage dev.
Proof.
  unfold dev1, do_run_setup.
  destruct (prepare_svd_kernel _ _ _ _ _ _ _ _). reflexivity.
Qed.

Lemma do_run_setup_flags (t : nat) :
  (t < num_timesteps)%nat ->
  d_all_out_of_the_money dev1 t
  = if (t <? num_timesteps - 1)%nat
       && (Z.of_nat (length (in_the_money_paths payoff generated num_paths t))
           <? 4)%Z
    then 1%Z else 0%Z.
Proof.
  intros Ht. unfold dev1, do_run_setup. fold generated.
  pose proof (prepare_svd_kernel_flags (num_timesteps - 1) num_paths 4 payoff
                generated shared0
                (memset_zero num_timesteps (d_all_out_of_the_money dev))
                (d_svds dev) t) as H.
  destruct (prepare_svd_kernel _ _ _ _ _ _ _ _) as [flags svds].
  cbn [fst] in H. cbn [d_all_out_of_the_money]. rewrite H.
  unfold memset_zero. destruct (Nat.ltb_spec t num_timesteps); [|lia].
  reflexivity.
Qed.

End SetupFacts.

(** ** The main loop *)

Section MainLoopFacts.

Variables (num_paths : nat) (payoff : Payoff) (dt r : R) (d_cashflows : nat).

Let step := do_run_timestep num_paths payoff dt r d_cashflows.
Let loop := main_loop num_paths payoff dt r d_cashflows.
Let prefix := main_loop_prefix num_paths payoff dt r d_cashflows.

Lemma main_loop_prefix_flags (k n : nat) (dev : device) :
  d_all_out_of_the_money (prefix k n dev) = d_all_out_of_the_money dev.
Proof.
  revert n dev. induction k as [|k IH]; intros [|n] dev; try reflexivity.
  cbn [prefix main_loop_prefix]. rewrite IH. reflexivity.
Qed.

Lemma main_loop_flags (n : nat) (dev : device) :
  d_all_out_of_the_money (loop n dev) = d_all_out_of_the_money dev.
Proof.
  revert dev. induction n as [|n IH]; intros dev; [reflexivity|].
  cbn [loop main_loop]. rewrite IH. reflexivity.
Qed.

(** The loop is its first [k] turns followed by the other turns. *)
Lemma main_loop_split (k n : nat) (dev : device) :
  (k <= n)%nat -> loop n dev = loop (n - k) (prefix k n dev).
Proof.
  revert n dev. induction k as [|k IH]; intros n dev Hk.
  - rewrite Nat.sub_0_r. reflexivity.
  - destruct n as [|n]; [lia|].
    cbn [loop main_loop prefix main_loop_prefix]. apply IH. lia.
Qed.

End MainLoopFacts.

(** C2.  At every timestep with fewer than four paths in the money, the
    flag of the timestep is set by [prepare_svd_kernel] and is still set
    when the main loop comes to the timestep; the turn of the loop for the
    timestep leaves the coefficients (0,0,0) and gives every path
    exp(-r*dt) times the cashflow it had. *)
Theorem out_of_the_money_timestep :
  forall (num_timesteps num_paths : nat) (payoff : Payoff)
         (dt S0 r sigma : R) (h_samples : array R)
         (shared0 : nat -> array Z * array R) (dev : device) (t : nat),
    (t + 2 <= num_timesteps)%nat ->
    let d_cashflows := main_d_cashflows num_timesteps num_paths in
    let dev1 :=
      do_run_setup num_timesteps num_paths payoff dt S0 r sigma h_samples
        shared0 dev in
    (length (in_the_money_paths payoff (d_paths dev1) num_paths t) < 4)%nat ->
    let before :=
      main_loop_prefix num_paths payoff dt r d_cashflows
        (num_timesteps - 2 - t) (num_timesteps - 1) dev1 in
    let after := do_run_timestep num_paths payoff dt r d_cashflows t before in
    d_all_out_of_the_money dev1 t = 1%Z /\
    d_all_out_of_the_money before t = 1%Z /\
    d_temp_storage after 0%nat = 0 /\
    d_temp_storage after 1%nat = 0 /\
    d_temp_storage after 2%nat = 0 /\
    (forall p, (p < num_paths)%nat ->
       d_paths after (d_cashflows + p)%nat
       = exp (- r * dt) * d_paths before (d_cashflows + p)%nat).
Proof.
  intros T N payoff dt S0 r sigma h_samples shared0 dev t Ht c dev1 Hcount
    before after.
  assert (Hflag1 : d_all_out_of_the_money dev1 t = 1%Z).
  { unfold dev1. rewrite do_run_setup_flags by lia.
    rewrite <- (do_run_setup_paths T N payoff dt S0 r sigma h_samples
                  shared0 dev).
    fold dev1.
    destruct (Nat.ltb_spec t (T - 1)); [|lia].
    destruct (Z.ltb_spec (Z.of_nat (length
                (in_the_money_paths payoff (d_paths dev1) N t))) 4);
      [reflexivity|lia]. }
  assert (Hflag2 : d_all_out_of_the_money before t = 1%Z).
  { unfold before. rewrite main_loop_prefix_flags. assumption. }
  split; [assumption|]. split; [assumption|].
  apply do_run_timestep_flagged. rewrite Hflag2. discriminate.
Qed.

(** ** Cashflows through the main loop *)

Lemma payoff_value_nonneg (payoff : Payoff) (S_ : R) :
  0 <= payoff_value payoff S_.
Proof.
  destruct payoff as [K|K]; simpl;
    (eapply Rle_trans; [|apply Rmax_r]); lra.
Qed.

Lemma exp_pow_nat (x : R) (n : nat) : exp x ^ n = exp (x * INR n).
Proof.
  induction n as [|n IH].
  - simpl. rewrite Rmult_0_r, exp_0. reflexivity.
  - rewrite S_INR, Rmult_plus_distr_l, Rmult_1_r, exp_plus.
    simpl. rewrite IH. ring.
Qed.

Section CashflowFacts.

Variables (num_paths : nat) (payoff : Payoff) (dt r : R) (d_cashflows : nat).

Let step := do_run_timestep num_paths payoff dt r d_cashflows.
Let loop := main_loop num_paths payoff dt r d_cashflows.
Let prefix := main_loop_prefix num_paths payoff dt r d_cashflows.
Let cashflow (dev : device) (p : nat) := d_paths dev (d_cashflows + p)%nat.

(** A turn of the loop gives a path its payoff or the discounted cashflow
    it had. *)
Lemma do_run_timestep_choice (t : nat) (dev : device) (p : nat) :
  (d_all_out_of_the_money dev t <> 0%Z
   \/ t * num_paths + num_paths <= d_cashflows
   \/ d_cashflows + num_paths <= t * num_paths)%nat ->
  (p < num_paths)%nat ->
  cashflow (step t dev) p = exp (- r * dt) * cashflow dev p \/
  cashflow (step t dev) p
  = payoff_value payoff (d_paths dev (t * num_paths + p)%nat).
Proof.
  intros Hdisj Hp. unfold cashflow.
  destruct (do_run_timestep_cashflows num_paths payoff dt r d_cashflows
              t dev Hdisj) as [Hown _].
  fold step in Hown. rewrite (Hown p Hp), update_cashflow_path_own.
  cbv zeta.
  destruct (negb _); [left; reflexivity|].
  destruct (Rle_dec _ _); [left; reflexivity|].
  destruct (Rle_dec _ _); [left; reflexivity|right; reflexivity].
Qed.

Lemma do_run_timestep_nonneg (t : nat) (dev : device) :
  (d_all_out_of_the_money dev t <> 0%Z
   \/ t * num_paths + num_paths <= d_cashflows
   \/ d_cashflows + num_paths <= t * num_paths)%nat ->
  (forall p, (p < num_paths)%nat -> 0 <= cashflow dev p) ->
  forall p, (p < num_paths)%nat -> 0 <= cashflow (step t dev) p.
Proof.
  intros Hdisj Hnn p Hp.
  destruct (do_run_timestep_choice t dev p Hdisj Hp) as [E|E]; rewrite E.
  - apply Rmult_le_pos; [left; apply exp_pos|apply Hnn, Hp].
  - apply payoff_value_nonneg.
Qed.

Lemma main_loop_prefix_nonneg (k n : nat) (dev : device) :
  (n * num_paths <= d_cashflows)%nat ->
  (forall p, (p < num_paths)%nat -> 0 <= cashflow dev p) ->
  forall p, (p < num_paths)%nat -> 0 <= cashflow (prefix k n dev) p.
Proof.
  revert n dev. induction k as [|k IH]; intros [|n] dev Hn Hnn;
    try assumption.
  cbn [prefix main_loop_prefix]. apply IH; [lia|].
  apply do_run_timestep_nonneg; [right; left; lia|assumption].
Qed.

Lemma main_loop_as_prefix (n : nat) (dev : device) :
  loop n dev = prefix n n dev.
Proof.
  revert dev. induction n as [|n IH]; intros dev; [reflexivity|].
  cbn [loop main_loop prefix main_loop_prefix]. apply IH.
Qed.

(** When all the timesteps of the loop are flagged, every cashflow is
    discounted once per turn. *)
Lemma main_loop_all_flagged (n : nat) (dev : device) :
  (forall t, (t < n)%nat -> d_all_out_of_the_money dev t <> 0%Z) ->
  forall p, (p < num_paths)%nat ->
    cashflow (loop n dev) p = exp (- r * dt) ^ n * cashflow dev p.
Proof.
  revert dev. induction n as [|n IH]; intros dev Hflags p Hp.
  - simpl. lra.
  - cbn [loop main_loop]. fold loop step. rewrite IH; try assumption.
    + destruct (do_run_timestep_flagged num_paths payoff dt r d_cashflows
                  n dev (Hflags n (Nat.lt_succ_diag_r n))) as (_ & _ & _ & H).
      unfold cashflow, step. rewrite H by assumption. simpl. ring.
    + intros t Ht. unfold step. rewrite do_run_timestep_flags.
      apply Hflags. lia.
Qed.

End CashflowFacts.

Lemma in_the_money_paths_length (payoff : Payoff) (paths : array R)
  (num_paths t : nat) :
  (length (in_the_money_paths payoff paths num_paths t) <= num_paths)%nat.
Proof.
  unfold in_the_money_paths.
  eapply Nat.le_trans; [apply filter_length_le|]. rewrite length_seq. lia.
Qed.

Section RunFacts.

Variables (num_timesteps num_paths : nat) (payoff : Payoff).
Variables (dt S0 r sigma : R) (h_samples : array R).
Variable shared0 : nat -> array Z * array R.
Variable dev : device.

Let d_cashflows := main_d_cashflows num_timesteps num_paths.
Let dev1 :=
  do_run_setup num_timesteps num_paths payoff dt S0 r sigma h_samples
    shared0 dev.
Let price := gbm_price num_paths dt S0 r sigma h_samples.

(** The cashflows [do_run] starts from are the payoffs at expiry. *)
Lemma do_run_setup_cashflows (p : nat) :
  (1 <= num_timesteps)%nat -> (p < num_paths)%nat ->
  d_paths dev1 (d_cashflows + p)%nat
  = payoff_value payoff (price num_timesteps p).
Proof.
  intros HT Hp. unfold dev1. rewrite do_run_setup_paths.
  apply generate_paths_launch_entries; assumption.
Qed.

Lemma do_run_setup_prices (t p : nat) :
  (t + 2 <= num_timesteps)%nat -> (p < num_paths)%nat ->
  d_paths dev1 (t * num_paths + p)%nat = price (t + 1)%nat p.
Proof.
  intros HT Hp. unfold dev1. rewrite do_run_setup_paths.
  apply generate_paths_launch_entries; [lia|assumption|assumption].
Qed.

End RunFacts.

Lemma Rdiv_nonneg (a b : R) : 0 <= a -> 0 <= b -> 0 <= a / b.
Proof.
  intros Ha Hb. unfold Rdiv. destruct (Req_dec b 0) as [->|Hne].
  - rewrite Rinv_0. lra.
  - apply Rmult_le_pos; [assumption|]. left. apply Rinv_0_lt_compat. lra.
Qed.

(** Every cashflow is nonnegative from the end of the first part of
    [do_run] through all the turns of the main loop. *)
Lemma do_run_cashflows_nonneg
  (num_timesteps num_paths : nat) (payoff : Payoff) (dt S0 r sigma : R)
  (h_samples : array R) (shared0 : nat -> array Z * array R) (dev : device)
  (k p : nat) :
  (p < num_paths)%nat ->
  0 <= d_paths
         (main_loop_prefix num_paths payoff dt r
            (main_d_cashflows num_timesteps num_paths) k (num_timesteps - 1)
            (do_run_setup num_timesteps num_paths payoff dt S0 r sigma
               h_samples shared0 dev))
         (main_d_cashflows num_timesteps num_paths + p)%nat.
Proof.
  intros Hp. revert p Hp. apply main_loop_prefix_nonneg.
  - unfold main_d_cashflows. lia.
  - intros p Hp. destruct num_timesteps as [|T].
    + rewrite do_run_setup_paths.
      change (main_d_cashflows 0 num_paths) with (main_d_cashflows 1 num_paths).
      change (generate_paths_kernel 256 0 num_paths)
        with (generate_paths_kernel 256 1 num_paths).
      destruct (generate_paths_launch_entries 1 num_paths payoff dt S0 r sigma
                  h_samples (d_paths dev) p (le_n 1) Hp) as [_ H].
      rewrite H. apply payoff_value_nonneg.
    + rewrite do_run_setup_cashflows by (try lia; assumption).
      apply payoff_value_nonneg.
Qed.

(** C10.  Both payoffs are nonnegative; the cashflow of every path is
    nonnegative when the main loop starts (the payoff at expiry) and after
    each of its turns (a payoff, or a positive discount factor times the
    cashflow before); and the price [do_run] returns is nonnegative. *)
Theorem cashflows_nonnegative :
  forall (num_timesteps num_paths : nat) (payoff : Payoff)
         (dt S0 r sigma : R) (h_samples : array R)
         (shared0 : nat -> array Z * array R) (dev : device),
    let d_cashflows := main_d_cashflows num_timesteps num_paths in
    let dev1 :=
      do_run_setup num_timesteps num_paths payoff dt S0 r sigma h_samples
        shared0 dev in
    (forall K S_ : R,
       0 <= payoff_value (PayoffPut K) S_ /\
       0 <= payoff_value (PayoffCall K) S_) /\
    (forall turns p : nat, (p < num_paths)%nat ->
       0 <= d_paths
              (main_loop_prefix num_paths payoff dt r d_cashflows turns
                 (num_timesteps - 1) dev1)
              (d_cashflows + p)%nat) /\
    0 <= lsm_price num_timesteps num_paths payoff dt S0 r sigma h_samples
           shared0 dev.
Proof.
  intros T N payoff dt S0 r sigma h_samples shared0 dev c dev1.
  split; [intros K S_; split; apply payoff_value_nonneg|].
  split; [intros turns p Hp; apply do_run_cashflows_nonneg, Hp|].
  unfold lsm_price, do_run, do_run_device.
  rewrite do_run_reduce_value, main_loop_as_prefix.
  apply Rdiv_nonneg; [|apply pos_INR].
  apply Rmult_le_pos; [left; apply exp_pos|].
  apply sum_upto_nonneg. intros p Hp.
  apply do_run_cashflows_nonneg, Hp.
Qed.

(** With fewer than four paths [prepare_svd_kernel] flags every timestep. *)
Lemma few_paths_flags
  (num_timesteps num_paths : nat) (payoff : Payoff) (dt S0 r sigma : R)
  (h_samples : array R) (shared0 : nat -> array Z * array R) (dev : device)
  (t : nat) :
  (num_paths < 4)%nat -> (t + 2 <= num_timesteps)%nat ->
  d_all_out_of_the_money
    (do_run_setup num_timesteps num_paths payoff dt S0 r sigma h_samples
       shared0 dev) t = 1%Z.
Proof.
  intros HN Ht. rewrite do_run_setup_flags by lia.
  destruct (Nat.ltb_spec t (num_timesteps - 1)); [|lia].
  match goal with
  | |- context [length (in_the_money_paths ?a ?b ?c ?d)] =>
      pose proof (in_the_money_paths_length a b c d)
  end.
  match goal with
  | |- context [(?x <? 4)%Z] => destruct (Z.ltb_spec x 4); [reflexivity|lia]
  end.
Qed.

(** C6.  With fewer than four paths every timestep of the main loop is
    flagged, and the price is exp(-r*dt*num_timesteps) times the mean over
    the paths of the payoff at expiry. *)
Theorem few_paths_price :
  forall (num_timesteps num_paths : nat) (payoff : Payoff)
         (dt S0 r sigma : R) (h_samples : array R)
         (shared0 : nat -> array Z * array R) (dev : device),
    (1 <= num_timesteps)%nat -> (num_paths < 4)%nat ->
    (forall t, (t + 2 <= num_timesteps)%nat ->
       d_all_out_of_the_money
         (do_run_setup num_timesteps num_paths payoff dt S0 r sigma
            h_samples shared0 dev) t = 1%Z) /\
    lsm_price num_timesteps num_paths payoff dt S0 r sigma h_samples
      shared0 dev
    = european_price num_timesteps num_paths payoff dt S0 r sigma h_samples.
Proof.
  intros T N payoff dt S0 r sigma h_samples shared0 dev HT HN.
  set (dev1 := do_run_setup T N payoff dt S0 r sigma h_samples shared0 dev).
  assert (Hflags : forall t, (t + 2 <= T)%nat ->
            d_all_out_of_the_money dev1 t = 1%Z).
  { intros t Ht. apply few_paths_flags; assumption. }
  split; [assumption|].
  unfold lsm_price, do_run, do_run_device, european_price. fold dev1.
  rewrite do_run_reduce_value.
  rewrite (sum_upto_ext N _
             (fun p => exp (- r * dt) ^ (T - 1)
                       * payoff_value payoff
                           (gbm_price N dt S0 r sigma h_samples T p))).
  - assert (E : exp (- r * dt) ^ T
                = exp (- r * dt) * exp (- r * dt) ^ (T - 1)).
    { replace T with (S (T - 1)) at 1 by lia. reflexivity. }
    rewrite sum_upto_scale, <- exp_pow_nat, E. unfold Rdiv. ring.
  - intros p Hp. rewrite main_loop_all_flagged; try assumption.
    + unfold dev1. rewrite do_run_setup_cashflows by assumption. reflexivity.
    + intros t Ht. rewrite Hflags by lia. discriminate.
Qed.

(** ** Regression Builder: the seeds of the QR *)

Lemma filter_seq_nth_error (f : nat -> bool) (n j p : nat) :
  nth_error (filter f (seq 0 n)) j = Some p ->
  length (filter f (seq 0 p)) = j /\ f p = true /\ (p < n)%nat.
Proof.
  induction n as [|n IH]; intros H.
  - destruct j; discriminate.
  - rewrite seq_S, filter_app in H. simpl in H.
    destruct (Nat.lt_ge_cases j (length (filter f (seq 0 n)))) as [Hj|Hj].
    + rewrite nth_error_app1 in H by assumption.
      destruct (IH H) as (H1 & H2 & H3). repeat split; try assumption. lia.
    + rewrite nth_error_app2 in H by assumption.
      destruct (f n) eqn:Hf.
      * destruct (j - length (filter f (seq 0 n)))%nat as [|d] eqn:Hd;
          [|destruct d; discriminate].
        simpl in H. injection H as <-. repeat split; try assumption; lia.
      * destruct (j - length (filter f (seq 0 n)))%nat; discriminate.
Qed.

Section SvdSeedFacts.

Variables (NT N : nat) (payoff : Payoff) (paths : array R) (offset : nat).
Hypothesis HNT : (1 <= NT)%nat.

Let itm := svd_in_the_money N payoff paths offset.
Let price := svd_load_price N paths offset.
Let rank := in_the_money_rank N payoff paths offset.
Let round := svd_round NT N payoff paths offset.

(** What holds after [k] rounds: a thread that is still in the loop has
    counted the paths in the money so far, unless it has stopped counting
    at three or more; and the first three paths in the money, as far as
    they have been met, have their prices in the slots of their ranks. *)
Let scan_inv (k : nat) (st : svd_block) : Prop :=
  (forall tid, (tid < NT)%nat -> (tid + k * NT < N)%nat ->
     b_found_paths st tid = rank (k * NT)%nat
     \/ (3 <= b_found_paths st tid /\ 3 <= rank (k * NT)%nat)%Z) /\
  (forall p, (p < N)%nat -> (p < k * NT)%nat -> itm p = 1%Z ->
     (rank p < 3)%Z -> b_smem_svds st (Z.to_nat (rank p)) = price p).

Lemma svd_rank_itm_lt (p q : nat) :
  (p < q)%nat -> (p < N)%nat -> itm p = 1%Z -> (rank p < rank q)%Z.
Proof.
  intros Hpq Hp Hitm.
  pose proof (svd_rank_mono N payoff paths offset (S p) q Hpq) as Hm.
  fold rank in Hm.
  pose proof (svd_rank_S N payoff paths offset p) as HS. fold rank itm in HS.
  destruct (Nat.ltb_spec p N); lia.
Qed.

(** [scan_input] after the threads of round [k] have written it. *)
Lemma svd_round_scan_input (k : nat) (st : svd_block) (u : nat) :
  (u <= NT)%nat -> (u = 0%nat \/ u - 1 + k * NT < N)%nat ->
  zsum_upto u (b_scan_input (round k st))
  = (rank (k * NT + u)%nat - rank (k * NT)%nat)%Z.
Proof.
  intros Hu Hact.
  pose proof (svd_rank_add N payoff paths offset (k * NT) u) as Hadd.
  fold rank itm in Hadd. rewrite Hadd.
  replace (rank (k * NT)%nat
           + zsum_upto u
               (fun i => if (k * NT + i <? N)%nat then itm (k * NT + i)%nat
                         else 0%Z) - rank (k * NT)%nat)%Z
    with (zsum_upto u
            (fun i => if (k * NT + i <? N)%nat then itm (k * NT + i)%nat
                      else 0%Z)) by lia.
  apply zsum_upto_ext. intros i Hi.
  unfold round, svd_round. cbn [b_scan_input].
  rewrite for_threads_store_if.
  destruct (Nat.ltb_spec i NT); [|lia]. cbn [andb].
  destruct (Nat.ltb_spec (i + k * NT) N), (Nat.ltb_spec (k * NT + i) N);
    try lia.
  fold itm. rewrite (Nat.add_comm i). reflexivity.
Qed.

Lemma svd_round_found_paths (k : nat) (st : svd_block) (tid : nat) :
  b_found_paths (round k st) tid
  = if (tid + k * NT <? N)%nat && (b_found_paths st tid <? 3)%Z
    then (b_found_paths st tid
          + zsum_upto NT (b_scan_input (round k st)))%Z
    else b_found_paths st tid.
Proof.
  unfold round at 1, svd_round. cbn [b_found_paths].
  rewrite exclusive_scan_spec by lia. reflexivity.
Qed.

Lemma svd_round_inv (k : nat) (st : svd_block) :
  scan_inv k st -> scan_inv (S k) (round k st).
Proof.
  intros [I1 I2]. split.
  - intros tid Htid Hact.
    rewrite svd_round_found_paths.
    destruct (Nat.ltb_spec (tid + k * NT) N); [|lia]. cbn [andb].
    rewrite svd_round_scan_input by lia.
    replace (S k * NT)%nat with (k * NT + NT)%nat by lia.
    pose proof (svd_rank_mono N payoff paths offset (k * NT) (k * NT + NT)
                  ltac:(lia)) as Hm.
    fold rank in Hm.
    destruct (I1 tid Htid ltac:(lia)) as [E|[E1 E2]];
      destruct (Z.ltb_spec (b_found_paths st tid) 3); lia.
  - unfold round, svd_round. cbn [b_smem_svds].
    match goal with
    | |- context [for_threads NT ?body (b_smem_svds st)] => set (B := body)
    end.
    assert (J : forall u, (u <= NT)%nat ->
              forall p, (p < N)%nat -> (p < k * NT + u)%nat -> itm p = 1%Z ->
                (rank p < 3)%Z ->
                for_threads u B (b_smem_svds st) (Z.to_nat (rank p)) = price p).
    { induction u as [|u IHu]; intros Hu p Hp Hpu Hitm Hrank.
      - rewrite for_threads_0. apply I2; try assumption. lia.
      - rewrite for_threads_S. unfold B at 1.
        set (q := (u + k * NT)%nat).
        destruct (Nat.ltb_spec q N) as [Hq|Hq]; cbn [andb].
        + (* thread u is in the round *)
          assert (Hpartial :
            exclusive_scan NT (b_scan_input (round k st)) u
            = (rank q - rank (k * NT)%nat)%Z).
          { rewrite exclusive_scan_spec by lia.
            rewrite svd_round_scan_input by (unfold q in Hq; lia).
            unfold q. rewrite (Nat.add_comm u). reflexivity. }
          change (exclusive_scan NT _ u)
            with (exclusive_scan NT (b_scan_input (round k st)) u).
          rewrite Hpartial.
          pose proof (svd_rank_mono N payoff paths offset (k * NT) q
                        ltac:(unfold q; lia)) as Hm.
          fold rank in Hm.
          pose proof (svd_rank_nonneg N payoff paths offset (k * NT)) as Hnn.
          fold rank in Hnn.
          fold itm price.
          destruct (I1 u ltac:(lia) Hq) as [E|[E1 E2]].
          * rewrite E.
            replace (rank (k * NT)%nat + (rank q - rank (k * NT)%nat))%Z
              with (rank q) by lia.
            destruct (Nat.eq_dec p q) as [->|Hne].
            -- destruct (Z.ltb_spec (rank (k * NT)%nat) 3); [|lia].
               destruct (Z.eqb_spec (itm q) 0); [lia|].
               destruct (Z.ltb_spec (rank q) 3); [|lia].
               cbn [andb negb]. apply store_eq.
            -- assert (Hlt : (p < q)%nat) by (unfold q; lia).
               pose proof (svd_rank_itm_lt p q Hlt Hp Hitm).
               pose proof (svd_rank_nonneg N payoff paths offset p) as Hnp.
               fold rank in Hnp.
               destruct ((rank (k * NT)%nat <? 3)%Z && negb (itm q =? 0)%Z
                         && (rank q <? 3)%Z).
               ++ rewrite store_neq by lia.
                  apply IHu; try assumption; unfold q in Hlt; lia.
               ++ apply IHu; try assumption; unfold q in Hlt; lia.
          * destruct (Z.ltb_spec (b_found_paths st u) 3); [lia|].
            cbn [andb].
            destruct (Nat.eq_dec p q) as [->|Hne]; [lia|].
            apply IHu; try assumption; unfold q in *; lia.
        + (* thread u has left the loop *)
          apply IHu; try assumption; unfold q in Hq; lia. }
    intros p Hp Hpk Hitm Hrank. apply J; try assumption; lia.
Qed.

Lemma svd_scan_inv_init (shared0 : array Z * array R) :
  scan_inv 0 (svd_block_init NT shared0).
Proof.
  split.
  - intros tid _ _. left. reflexivity.
  - intros p _ Hp. lia.
Qed.

Lemma svd_scan_inv_rounds (k : nat) (shared0 : array Z * array R) :
  scan_inv k (for_loop k round (svd_block_init NT shared0)).
Proof.
  unfold for_loop. induction k as [|k IH].
  - apply svd_scan_inv_init.
  - rewrite for_threads_S. apply svd_round_inv, IH.
Qed.

(** The path in the money of rank [j < 3] has its price in slot [j]. *)
Lemma svd_scan_paths_seed (shared0 : array Z * array R) (p : nat) :
  (p < N)%nat -> itm p = 1%Z -> (rank p < 3)%Z ->
  b_smem_svds (svd_scan_paths NT N payoff paths offset shared0)
    (Z.to_nat (rank p))
  = paths (offset + p)%nat.
Proof.
  intros Hp Hitm Hrank. unfold svd_scan_paths. fold round.
  destruct (svd_scan_inv_rounds (svd_rounds NT N) shared0) as [_ I2].
  rewrite I2; try assumption.
  - unfold price, svd_load_price. destruct (Nat.ltb_spec p N); [reflexivity|lia].
  - pose proof (svd_rounds_cover NT N HNT). lia.
Qed.

End SvdSeedFacts.

Lemma qr_seed_slot (num_paths : nat) (payoff : Payoff) (paths : array R)
  (shared0 : array Z * array R) (t j p : nat) :
  nth_error (in_the_money_paths payoff paths num_paths t) j = Some p ->
  (j < 3)%nat ->
  b_smem_svds
    (svd_scan_paths 256 num_paths payoff paths (t * num_paths) shared0) j
  = paths (t * num_paths + p)%nat.
Proof.
  intros Hnth Hj.
  apply filter_seq_nth_error in Hnth. destruct Hnth as (Hlen & Hf & Hp).
  assert (Hrank : in_the_money_rank num_paths payoff paths (t * num_paths) p
                  = Z.of_nat j).
  { rewrite svd_rank_length by lia. rewrite Hlen. reflexivity. }
  rewrite <- (Nat2Z.id j), <- Hrank.
  apply svd_scan_paths_seed; try lia.
  unfold svd_in_the_money, svd_load_price.
  destruct (Nat.ltb_spec p num_paths); [|lia]. rewrite Hf. reflexivity.
Qed.

(** C5.  At every timestep that [prepare_svd_kernel] does not flag, the
    values [assemble_R] finds in [smem_svds[0..2]] are the prices of the
    first three paths in the money of the timestep, in the order of the
    paths: three different paths. *)
Theorem qr_seeds_first_three_in_the_money :
  forall (num_timesteps num_paths : nat) (payoff : Payoff)
         (dt S0 r sigma : R) (h_samples : array R)
         (shared0 : nat -> array Z * array R) (dev : device) (t : nat),
    (t + 2 <= num_timesteps)%nat ->
    let dev1 :=
      do_run_setup num_timesteps num_paths payoff dt S0 r sigma h_samples
        shared0 dev in
    d_all_out_of_the_money dev1 t = 0%Z ->
    exists i0 i1 i2 rest,
      in_the_money_paths payoff (d_paths dev1) num_paths t
      = i0 :: i1 :: i2 :: rest /\
      (i0 < i1 < i2)%nat /\ (i2 < num_paths)%nat /\
      qr_seeds num_paths payoff (d_paths dev1) shared0 t
      = (d_paths dev1 (t * num_paths + i0)%nat,
         d_paths dev1 (t * num_paths + i1)%nat,
         d_paths dev1 (t * num_paths + i2)%nat).
Proof.
  intros T N payoff dt S0 r sigma h_samples shared0 dev t Ht dev1 Hflag.
  unfold dev1 in Hflag. rewrite do_run_setup_flags in Hflag by lia.
  rewrite <- (do_run_setup_paths T N payoff dt S0 r sigma h_samples
                shared0 dev) in Hflag.
  fold dev1 in Hflag.
  destruct (Nat.ltb_spec t (T - 1)); [|lia]. cbn [andb] in Hflag.
  destruct (Z.ltb_spec
              (Z.of_nat (length (in_the_money_paths payoff (d_paths dev1) N t)))
              4) as [|Hlen]; [discriminate|].
  pose proof (filter_seq_increasing
                (fun p => is_in_the_money payoff
                            (d_paths dev1 (t * N + p)%nat)) 0 N) as Hsorted.
  fold (in_the_money_paths payoff (d_paths dev1) N t) in Hsorted.
  assert (Hnth : forall j p,
            nth_error (in_the_money_paths payoff (d_paths dev1) N t) j = Some p ->
            (j < 3)%nat ->
            b_smem_svds (svd_scan_paths 256 N payoff (d_paths dev1) (t * N)
                           (shared0 t)) j
            = d_paths dev1 (t * N + p)%nat).
  { intros j p. apply qr_seed_slot. }
  assert (Hin : forall p, In p (in_the_money_paths payoff (d_paths dev1) N t) ->
                          (p < N)%nat).
  { intros p Hp. apply filter_In in Hp. destruct Hp as [Hp _].
    apply in_seq in Hp. lia. }
  destruct (in_the_money_paths payoff (d_paths dev1) N t)
    as [|i0 [|i1 [|i2 rest]]]; simpl in Hlen; try lia.
  exists i0, i1, i2, rest.
  split; [reflexivity|].
  inversion Hsorted as [|? ? Hs0 Hf0]; subst.
  inversion Hs0 as [|? ? Hs1 Hf1]; subst.
  inversion Hf0 as [|? ? Hlt01 _]; subst.
  inversion Hf1 as [|? ? Hlt12 _]; subst.
  split; [lia|].
  split; [apply Hin; simpl; auto|].
  unfold qr_seeds.
  rewrite (Hnth 0%nat i0), (Hnth 1%nat i1), (Hnth 2%nat i2)
    by (try reflexivity; lia).
  reflexivity.
Qed.


(** ** Regression Builder: the power sums and the stored matrices *)

Section SvdSumsFacts.

Variables (NT N : nat) (payoff : Payoff) (paths : array R) (offset : nat).

Let round := svd_round NT N payoff paths offset.






End SvdSumsFacts.

Lemma for_threads_store_at {A : Type} (n base : nat) (cond : nat -> bool)
  (v : nat -> A) (s : array A) (q : nat) :
  for_threads n
    (fun tid a => if cond tid then store a (base + tid) (v tid) else a) s q
  = if (base <=? q)%nat && (q - base <? n)%nat && cond (q - base)%nat
    then v (q - base)%nat else s q.
Proof.
  induction n as [|n IH].
  - rewrite for_threads_0, andb_false_r. reflexivity.
  - rewrite for_threads_S.
    destruct (Nat.leb_spec base q) as [Hb|Hb]; cbn [andb].
    + destruct (Nat.eq_dec (q - base) n) as [E|Hne].
      * rewrite <- E. destruct (Nat.ltb_spec (q - base) (S (q - base))); [|lia].
        cbn [andb].
        destruct (cond (q - base)%nat) eqn:Hc.
        -- replace (base + (q - base))%nat with q by lia. apply store_eq.
        -- rewrite E, IH. destruct (Nat.leb_spec base q); [|lia].
           destruct (Nat.ltb_spec (q - base) n); [lia|]. reflexivity.
      * assert (E' : for_threads n
                       (fun tid a =>
                          if cond tid then store a (base + tid) (v tid) else a)
                       s q
                     = if (q - base <? S n)%nat && cond (q - base)%nat
                       then v (q - base)%nat else s q).
        { rewrite IH. destruct (Nat.leb_spec base q); [|lia]. cbn [andb].
          destruct (Nat.ltb_spec (q - base) n), (Nat.ltb_spec (q - base) (S n));
            try lia; reflexivity. }
        destruct (cond n); [rewrite store_neq by lia|]; apply E'.
    + assert (E' : for_threads n
                     (fun tid a =>
                        if cond tid then store a (base + tid) (v tid) else a)
                     s q = s q).
      { rewrite IH. destruct (Nat.leb_spec base q); [lia|]. reflexivity. }
      destruct (cond n); [rewrite store_neq by lia|]; apply E'.
Qed.

(** The matrices a block that is not flagged stores for its timestep, and
    the cells of [svds] a block leaves alone. *)
Lemma prepare_svd_block_svds (num_paths : nat) (min_in_the_money : Z)
  (payoff : Payoff) (paths : array R) (shared0 : array Z * array R)
  (blockIdx : nat) (flags : array Z) (svds : array R) (q : nat) :
  let st :=
    svd_scan_paths 256 num_paths payoff paths (blockIdx * num_paths) shared0 in
  let lsum :=
    Z.of_nat (length (in_the_money_paths payoff paths num_paths blockIdx)) in
  let lsums :=
    for_threads 256 (fun tid lsums => double4_add lsums (b_sums st tid))
      (make_double4 0.0 0.0 0.0 0.0) in
  let svds' :=
    snd (prepare_svd_block 256 num_paths min_in_the_money payoff paths shared0
           blockIdx (flags, svds)) in
  ((q < 16 * blockIdx \/ 16 * blockIdx + 12 <= q)%nat -> svds' q = svds q) /\
  ((min_in_the_money <= lsum)%Z -> (16 * blockIdx <= q < 16 * blockIdx + 12)%nat ->
   svds' q = svd_3x3 lsum lsums (b_smem_svds st) (q - 16 * blockIdx)%nat).
Proof.
  intros st lsum lsums svds'. subst svds'. unfold prepare_svd_block.
  rewrite svd_scan_paths_lsum by lia.
  rewrite in_the_money_rank_count. fold lsum st lsums. cbn [snd].
  rewrite for_threads_store_at. unfold R_W_MATRICES_SMEM_SLOTS.
  split.
  - intros Hq.
    destruct (Nat.leb_spec (16 * blockIdx) q); cbn [andb]; [|reflexivity].
    destruct (Nat.ltb_spec (q - 16 * blockIdx) 12); [lia|].
    rewrite !andb_false_r. reflexivity.
  - intros Hmin Hq.
    destruct (Nat.leb_spec (16 * blockIdx) q); [|lia].
    destruct (Nat.ltb_spec (q - 16 * blockIdx) 256); [|lia].
    destruct (Nat.ltb_spec (q - 16 * blockIdx) 12); [|lia].
    destruct (Z.ltb_spec lsum min_in_the_money); [lia|].
    rewrite !andb_false_r. cbn [andb negb]. reflexivity.
Qed.


(** ** Coefficient Estimator *)

Section BetaFacts.

Variables (num_paths : nat) (payoff : Payoff).
Variables (d_svds : array R) (svd : nat).
Variables (d_paths : array R) (paths cashflows : nat).







End BetaFacts.

(** ** The regression of the run of rank one

    [svd_3x3] is evaluated on the sums and seeds of that run.  The
    [let]s of the source are named one after the other and each value is
    brought to a number, the goal being left as it is. *)


Lemma dec_0 : 0.0 = 0. Proof. lra. Qed.
Lemma dec_1 : 1.0 = 1. Proof. lra. Qed.
Lemma dec_2 : 2.0 = 2. Proof. lra. Qed.




























(** ** The run with four equal paths and the run of rank one *)


Lemma filter_all {A : Type} (f : A -> bool) (l : list A) :
  (forall x, In x l -> f x = true) -> filter f l = l.
Proof.
  induction l as [|a l IH]; intros H; simpl; [reflexivity|].
  rewrite (H a) by (left; reflexivity).
  rewrite IH by (intros x Hx; apply H; right; assumption). reflexivity.
Qed.


Section EqualPathsRun.

Let payoff := PayoffPut 1.
Let dev1 :=
  do_run_setup 2 4 payoff 1 0.75 0 0.2 equal_paths_samples blank_shared
    blank_device.
Let price := gbm_price 4 1 0.75 0 0.2 equal_paths_samples.

Lemma equal_paths_price_1 (p : nat) : (p < 4)%nat -> price 1%nat p = 3/4.
Proof.
  intros Hp. unfold price. cbn [gbm_price]. unfold equal_paths_samples.
  destruct (Nat.ltb_spec (0 * 4 + p) 4); [|lia].
  rewrite sqrt_1.
  replace ((0 - 0.2 ^ 2 / 2) * 1 + 0.2 * 1 * 0.1) with 0 by lra.
  rewrite exp_0. lra.
Qed.

Lemma equal_paths_prices (p : nat) :
  (p < 4)%nat -> d_paths dev1 (0 * 4 + p)%nat = 3/4.
Proof.
  intros Hp. unfold dev1. rewrite do_run_setup_prices by lia.
  apply equal_paths_price_1, Hp.
Qed.

Lemma equal_paths_in_the_money :
  in_the_money_paths payoff (d_paths dev1) 4 0 = seq 0 4.
Proof.
  unfold in_the_money_paths. apply filter_all. intros p Hp.
  apply in_seq in Hp. rewrite equal_paths_prices by lia.
  unfold payoff, is_in_the_money.
  destruct (Rlt_dec (3 / 4) 1); [reflexivity|lra].
Qed.

Lemma equal_paths_flag : d_all_out_of_the_money dev1 0%nat = 0%Z.
Proof.
  unfold dev1. rewrite do_run_setup_flags by lia.
  rewrite <- (do_run_setup_paths 2 4 payoff 1 0.75 0 0.2 equal_paths_samples
                blank_shared blank_device).
  fold dev1. rewrite equal_paths_in_the_money. reflexivity.
Qed.

End EqualPathsRun.






Section RankOneRun.

Variable shared0 : nat -> array Z * array R.
Variable dev : device.

Let payoff := PayoffPut 1.
Let dev1 :=
  do_run_setup 2 1024 payoff 1 0.75 0 0.2 rank_one_samples shared0 dev.
Let price := gbm_price 1024 1 0.75 0 0.2 rank_one_samples.













End RankOneRun.

(** ** The price against the discounted payoff at expiry *)

Lemma main_loop_prefix_S (num_paths : nat) (payoff : Payoff) (dt r : R)
  (d_cashflows : nat) (j n : nat) (dev : device) :
  (j < n)%nat ->
  main_loop_prefix num_paths payoff dt r d_cashflows (S j) n dev
  = do_run_timestep num_paths payoff dt r d_cashflows (n - 1 - j)
      (main_loop_prefix num_paths payoff dt r d_cashflows j n dev).
Proof.
  revert n dev. induction j as [|j IH]; intros n dev Hj.
  - destruct n as [|n]; [lia|]. cbn [main_loop_prefix].
    replace (S n - 1 - 0)%nat with n by lia. reflexivity.
  - destruct n as [|n]; [lia|].
    change (main_loop_prefix num_paths payoff dt r d_cashflows (S (S j)) (S n) dev)
      with (main_loop_prefix num_paths payoff dt r d_cashflows (S j) n
              (do_run_timestep num_paths payoff dt r d_cashflows n dev)).
    rewrite IH by lia.
    replace (S n - 1 - S j)%nat with (n - 1 - j)%nat by lia.
    reflexivity.
Qed.


(** ** The exercise rule of update_cashflow_kernel *)

(** The new cashflow of a path at a timestep that is not flagged: the
    payoff when it is above 1e-8 and the test [payoff <= estimated_payoff]
    is false, the discounted old cashflow otherwise. *)
Lemma update_cashflow_rule (grid num_paths : nat) (payoff : Payoff)
  (exp_min_r_dt : R) (beta : array double) (paths cashflows : nat)
  (a0 : array R) (p : nat) :
  (1 <= grid)%nat -> (paths + num_paths <= cashflows)%nat ->
  (p < num_paths)%nat ->
  let a :=
    launch grid 128
      (update_cashflow_kernel 128 grid num_paths payoff exp_min_r_dt beta
         paths 0 cashflows) a0 in
  let immediate := payoff_value payoff (a0 (paths + p)%nat) in
  let continuation :=
    continuation_estimate exp_min_r_dt beta (a0 (paths + p)%nat) in
  a (cashflows + p)%nat
  = if Rle_dec immediate 1.0e-8 then exp_min_r_dt * a0 (cashflows + p)%nat
    else if double_le (Number immediate) continuation
         then exp_min_r_dt * a0 (cashflows + p)%nat
         else immediate.
Proof.
  intros Hgrid Hdisj Hp a immediate continuation.
  destruct (update_cashflow_launch grid num_paths payoff exp_min_r_dt beta
              paths 0 cashflows a0) as [Hown _]; [lia|lia|].
  fold a in Hown. rewrite (Hown p Hp), update_cashflow_path_value.
  reflexivity.
Qed.

Lemma exp_minus_tenth : exp (- (1/10)) < 1.
Proof.
  pose proof (exp_increasing (- (1/10)) 0 ltac:(lra)) as H.
  rewrite exp_0 in H. exact H.
Qed.

Section NanEstimateRun.

Let payoff := PayoffPut 1.
Let dev1 :=
  do_run_setup 2 1024 payoff 1 0.9 0 0.2 nan_estimate_samples blank_shared
    blank_device.
Let price := gbm_price 1024 1 0.9 0 0.2 nan_estimate_samples.

Lemma nan_estimate_price_1 (p : nat) :
  (p < 1024)%nat -> price 1%nat p = 9/10.
Proof.
  intros Hp. unfold price. cbn [gbm_price]. unfold nan_estimate_samples.
  destruct (Nat.ltb_spec (0 * 1024 + p) 1024); [|lia].
  rewrite sqrt_1.
  replace ((0 - 0.2 ^ 2 / 2) * 1 + 0.2 * 1 * 0.1) with 0 by lra.
  rewrite exp_0. lra.
Qed.

Lemma nan_estimate_price_2 (p : nat) :
  (p < 1024)%nat -> price 2%nat p = 9/10 * exp (- (1/10)).
Proof.
  intros Hp. unfold price. cbn [gbm_price].
  fold (gbm_price 1024 1 0.9 0 0.2 nan_estimate_samples 1 p). fold price.
  rewrite nan_estimate_price_1 by assumption.
  unfold nan_estimate_samples.
  destruct (Nat.ltb_spec (1 * 1024 + p) 1024); [lia|].
  rewrite sqrt_1.
  replace ((0 - 0.2 ^ 2 / 2) * 1 + 0.2 * 1 * - 0.4) with (- (1/10)) by lra.
  reflexivity.
Qed.

Lemma nan_estimate_prices (p : nat) :
  (p < 1024)%nat -> d_paths dev1 (0 * 1024 + p)%nat = 9/10.
Proof.
  intros Hp. unfold dev1. rewrite do_run_setup_prices by lia.
  apply nan_estimate_price_1, Hp.
Qed.

Lemma nan_estimate_cashflows (p : nat) :
  (p < 1024)%nat ->
  d_paths dev1 (main_d_cashflows 2 1024 + p)%nat
  = 1 - 9/10 * exp (- (1/10)).
Proof.
  intros Hp. unfold dev1.
  rewrite do_run_setup_cashflows by lia.
  fold price. rewrite nan_estimate_price_2 by assumption.
  pose proof exp_minus_tenth.
  unfold payoff, payoff_value. rewrite Rmax_left; lra.
Qed.

Lemma nan_estimate_flag : d_all_out_of_the_money dev1 0%nat = 0%Z.
Proof.
  unfold dev1. rewrite do_run_setup_flags by lia.
  rewrite <- (do_run_setup_paths 2 1024 payoff 1 0.9 0 0.2
                nan_estimate_samples blank_shared blank_device).
  fold dev1.
  replace (in_the_money_paths payoff (d_paths dev1) 1024 0) with (seq 0 1024).
  - rewrite length_seq. reflexivity.
  - symmetry. unfold in_the_money_paths. apply filter_all. intros p Hp.
    apply in_seq in Hp. rewrite nan_estimate_prices by lia.
    unfold payoff, is_in_the_money.
    destruct (Rlt_dec (9 / 10) 1); [reflexivity|lra].
Qed.

End NanEstimateRun.

(** C3 fails on the code when the estimate is NaN.  In the run with 1024
    paths at the price 0.9 the timestep is not flagged, every path has the
    payoff 1/10 and the cashflow 1 - 0.9*exp(-0.1) from expiry.  With
    coefficients that are NaN the estimate of every path is NaN: the payoff
    does not exceed it, the test [payoff <= estimated_payoff] is false all
    the same, and [update_cashflow_kernel] stores the payoff where the
    carry-forward is due. *)
Theorem update_cashflow_nan_estimate :
  let payoff := PayoffPut 1 in
  let d_cashflows := main_d_cashflows 2 1024 in
  let dev1 :=
    do_run_setup 2 1024 payoff 1 0.9 0 0.2 nan_estimate_samples blank_shared
      blank_device in
  let grid := update_cashflow_grid_dim 1024 in
  let paths' :=
    launch grid 128
      (update_cashflow_kernel 128 grid 1024 payoff (exp (- 0 * 1)) nan_beta
         (0 * 1024) 0 d_cashflows)
      (d_paths dev1) in
  let S_ p := d_paths dev1 (0 * 1024 + p)%nat in
  let immediate p := payoff_value payoff (S_ p) in
  let continuation p :=
    continuation_estimate (exp (- 0 * 1)) nan_beta (S_ p) in
  let carry_forward p := exp (- 0 * 1) * d_paths dev1 (d_cashflows + p)%nat in
  d_all_out_of_the_money dev1 0%nat = 0%Z /\
  (forall p, (p < 1024)%nat ->
     immediate p = 1/10 /\ continuation p = NaN /\
     carry_forward p = 1 - 9/10 * exp (- (1/10))) /\
  (forall p, (p < 1024)%nat ->
     ~ (immediate p > 1.0e-8 /\ exceeds (immediate p) (continuation p)) /\
     paths' (d_cashflows + p)%nat = immediate p /\
     paths' (d_cashflows + p)%nat <> carry_forward p).
Proof.
  intros payoff c dev1 grid paths' S_ immediate continuation carry_forward.
  assert (Hvalues : forall p, (p < 1024)%nat ->
            immediate p = 1/10 /\ continuation p = NaN /\
            carry_forward p = 1 - 9/10 * exp (- (1/10))).
  { intros p Hp. unfold immediate, continuation, carry_forward, S_.
    unfold dev1, payoff, c.
    rewrite nan_estimate_prices, nan_estimate_cashflows by assumption.
    split; [|split].
    - unfold payoff_value. rewrite Rmax_left; lra.
    - apply continuation_estimate_nan. left. reflexivity.
    - replace (- 0 * 1) with 0 by lra. rewrite exp_0. lra. }
  split; [|split; [exact Hvalues|]].
  - apply nan_estimate_flag.
  - intros p Hp. destruct (Hvalues p Hp) as (Hi & Hc & Hf).
    assert (Hnew : paths' (c + p)%nat = immediate p).
    { unfold paths'.
      rewrite (update_cashflow_rule grid 1024 payoff (exp (- 0 * 1)) nan_beta
                 (0 * 1024) c (d_paths dev1) p).
      - fold (S_ p). fold (immediate p). fold (continuation p).
        rewrite Hc, Hi. cbn [double_le].
        destruct (Rle_dec (1/10) 1.0e-8) as [Hle|_]; [lra|reflexivity].
      - apply update_cashflow_grid_dim_pos. lia.
      - unfold c, main_d_cashflows. lia.
      - assumption. }
    split; [|split].
    + rewrite Hc. cbn [exceeds]. tauto.
    + exact Hnew.
    + rewrite Hnew, Hi, Hf. pose proof exp_minus_tenth. lra.
Qed.

(** * Further properties *)

(** ** Payoff *)

Lemma is_in_the_money_payoff (payoff : Payoff) (S_ : R) :
  is_in_the_money payoff S_ = true <-> 0 < payoff_value payoff S_.
Proof.
  destruct payoff as [K|K]; simpl;
    match goal with |- context [Rlt_dec ?a ?b] => destruct (Rlt_dec a b) end;
    unfold Rmax; destruct (Rle_dec _ _); split; intros H;
    try reflexivity; try discriminate; lra.
Qed.

(** ** Closed form of the prices *)

Lemma gbm_price_closed_form (num_paths : nat) (dt S0 r sigma : R)
  (samples : array R) (k p : nat) :
  gbm_price num_paths dt S0 r sigma samples k p
  = S0 * exp (INR k * ((r - sigma ^ 2 / 2) * dt)
              + sigma * sqrt dt
                * sum_upto k (fun j => samples (j * num_paths + p)%nat)).
Proof.
  induction k as [|k IH].
  - simpl. rewrite Rmult_0_l, Rmult_0_r, Rplus_0_l, exp_0. ring.
  - cbn [gbm_price sum_upto]. rewrite IH, S_INR, Rmult_assoc, <- exp_plus.
    f_equal. f_equal. ring.
Qed.

Lemma gbm_price_pos (num_paths : nat) (dt S0 r sigma : R)
  (samples : array R) (k p : nat) :
  0 < S0 -> 0 < gbm_price num_paths dt S0 r sigma samples k p.
Proof.
  intros H. rewrite gbm_price_closed_form.
  apply Rmult_lt_0_compat; [assumption|apply exp_pos].
Qed.

(** ** The main loop: what it leaves alone, and the exercise dates *)

Section ExerciseFacts.

Variables (num_paths : nat) (payoff : Payoff) (dt r : R) (d_cashflows : nat).

Let step := do_run_timestep num_paths payoff dt r d_cashflows.
Let prefix := main_loop_prefix num_paths payoff dt r d_cashflows.
Let cashflow (dev : device) (p : nat) := d_paths dev (d_cashflows + p)%nat.

Lemma main_loop_prefix_frame (k n : nat) (dev : device) (q : nat) :
  (n * num_paths <= d_cashflows)%nat ->
  (q < d_cashflows \/ d_cashflows + num_paths <= q)%nat ->
  d_paths (prefix k n dev) q = d_paths dev q.
Proof.
  revert n dev. induction k as [|k IH]; intros [|n] dev Hn Hq;
    try reflexivity.
  cbn [prefix main_loop_prefix]. fold prefix. rewrite IH by (try lia; assumption).
  destruct (do_run_timestep_cashflows num_paths payoff dt r d_cashflows n dev)
    as [_ Hout]; [right; left; lia|].
  apply Hout, Hq.
Qed.

(** After [k] turns from timestep [n-1] the cashflow of a path is the payoff
    at one of the rows [n-k], ..., [n-1] or the cashflow the loop started
    from, discounted once per turn since. *)
Lemma main_loop_prefix_exercise (k n : nat) (dev : device) (p : nat) :
  (n * num_paths <= d_cashflows)%nat -> (k <= n)%nat -> (p < num_paths)%nat ->
  (exists t, (n - k <= t < n)%nat /\
     cashflow (prefix k n dev) p
     = exp (- r * dt) ^ (t - (n - k))
       * payoff_value payoff (d_paths dev (t * num_paths + p)%nat)) \/
  cashflow (prefix k n dev) p = exp (- r * dt) ^ k * cashflow dev p.
Proof.
  revert n dev. induction k as [|k IH]; intros n dev Hn Hk Hp.
  - right. unfold cashflow, prefix. cbn [main_loop_prefix pow]. lra.
  - destruct n as [|n]; [lia|].
    unfold cashflow, prefix in *. rewrite main_loop_prefix_S by lia.
    replace (S n - 1 - k)%nat with (n - k)%nat by lia.
    replace (S n - S k)%nat with (n - k)%nat by lia.
    specialize (IH (S n) dev Hn ltac:(lia) Hp).
    set (dev' := main_loop_prefix num_paths payoff dt r d_cashflows k (S n) dev)
      in *.
    assert (Hprices : forall t, (t < S n)%nat ->
              d_paths dev' (t * num_paths + p)%nat
              = d_paths dev (t * num_paths + p)%nat).
    { intros t Ht. unfold dev'. apply main_loop_prefix_frame; [lia|]. left. nia. }
    destruct (do_run_timestep_choice num_paths payoff dt r d_cashflows
                (n - k) dev' p) as [E|E]; [right; left; nia|assumption| |].
    + destruct IH as [(t & Ht & Et)|Et].
      * left. exists t. split; [lia|]. rewrite E, Et.
        replace (t - (n - k))%nat with (S (t - (S n - k)))%nat by lia.
        simpl. ring.
      * right. rewrite E, Et. simpl. ring.
    + left. exists (n - k)%nat. split; [lia|].
      rewrite E, Hprices by lia.
      rewrite Nat.sub_diag. simpl. ring.
Qed.

End ExerciseFacts.

Lemma finite_choice (N : nat) (P : nat -> nat -> Prop) :
  (forall p, (p < N)%nat -> exists e, P p e) ->
  exists f : nat -> nat, forall p, (p < N)%nat -> P p (f p).
Proof.
  induction N as [|N IH]; intros H.
  - exists (fun _ => 0%nat). intros p Hp. lia.
  - destruct IH as [f Hf]; [intros p Hp; apply H; lia|].
    destruct (H N (Nat.lt_succ_diag_r N)) as [e He].
    exists (fun p => if (p =? N)%nat then e else f p).
    intros p Hp. destruct (Nat.eqb_spec p N) as [->|Hne]; [assumption|].
    apply Hf. lia.
Qed.

(** The cashflow of a path when the main loop has finished: a payoff
    discounted from its exercise date to the first date. *)
Lemma main_loop_exercise_date
  (num_timesteps num_paths : nat) (payoff : Payoff) (dt S0 r sigma : R)
  (h_samples : array R) (shared0 : nat -> array Z * array R) (dev : device)
  (p : nat) :
  (1 <= num_timesteps)%nat -> (p < num_paths)%nat ->
  exists e, (1 <= e <= num_timesteps)%nat /\
    d_paths
      (main_loop num_paths payoff dt r
         (main_d_cashflows num_timesteps num_paths) (num_timesteps - 1)
         (do_run_setup num_timesteps num_paths payoff dt S0 r sigma
            h_samples shared0 dev))
      (main_d_cashflows num_timesteps num_paths + p)%nat
    = exp (- r * dt) ^ (e - 1)
      * payoff_value payoff
          (gbm_price num_paths dt S0 r sigma h_samples e p).
Proof.
  intros HT Hp. rewrite main_loop_as_prefix.
  set (dev1 := do_run_setup _ _ _ _ _ _ _ _ _ _).
  destruct (main_loop_prefix_exercise num_paths payoff dt r
              (main_d_cashflows num_timesteps num_paths)
              (num_timesteps - 1) (num_timesteps - 1) dev1 p)
    as [(t & Ht & E)|E]; try assumption; try lia.
  - unfold main_d_cashflows. lia.
  - exists (t + 1)%nat. split; [lia|]. rewrite E.
    unfold dev1. rewrite do_run_setup_prices by (try assumption; lia).
    replace (t - (num_timesteps - 1 - (num_timesteps - 1)))%nat
      with (t + 1 - 1)%nat by lia.
    reflexivity.
  - exists num_timesteps. split; [lia|]. rewrite E.
    unfold dev1. rewrite do_run_setup_cashflows by assumption. reflexivity.
Qed.

(** X5.  The price [do_run] returns is the average over the paths of one
    payoff per path, taken at a date [e p] between 1 and [num_timesteps]
    and discounted by exp(-r*dt) once per step from that date. *)
Theorem lsm_price_discounted_exercise :
  forall (num_timesteps num_paths : nat) (payoff : Payoff)
         (dt S0 r sigma : R) (h_samples : array R)
         (shared0 : nat -> array Z * array R) (dev : device),
    (1 <= num_timesteps)%nat ->
    exists e : nat -> nat,
      (forall p, (p < num_paths)%nat -> (1 <= e p <= num_timesteps)%nat) /\
      lsm_price num_timesteps num_paths payoff dt S0 r sigma h_samples
        shared0 dev
      = sum_upto num_paths
          (fun p => exp (- r * dt) ^ e p
                    * payoff_value payoff
                        (gbm_price num_paths dt S0 r sigma h_samples (e p) p))
        / INR num_paths.
Proof.
  intros T N payoff dt S0 r sigma h_samples shared0 dev HT.
  destruct (finite_choice N
    (fun p e => (1 <= e <= T)%nat /\
       d_paths
         (main_loop N payoff dt r (main_d_cashflows T N) (T - 1)
            (do_run_setup T N payoff dt S0 r sigma h_samples shared0 dev))
         (main_d_cashflows T N + p)%nat
       = exp (- r * dt) ^ (e - 1)
         * payoff_value payoff (gbm_price N dt S0 r sigma h_samples e p)))
    as [e He].
  { intros p Hp. apply main_loop_exercise_date; assumption. }
  exists e. split; [intros p Hp; apply (He p Hp)|].
  unfold lsm_price, do_run, do_run_device. rewrite do_run_reduce_value.
  unfold Rdiv. rewrite <- sum_upto_scale. f_equal.
  apply sum_upto_ext. intros p Hp. destruct (He p Hp) as [Hb ->].
  assert (Hpow : exp (- r * dt) ^ e p
                 = exp (- r * dt) * exp (- r * dt) ^ (e p - 1)).
  { replace (e p) with (S (e p - 1)) at 1 by lia. reflexivity. }
  rewrite Hpow. ring.
Qed.

(** X6.  [do_run] leaves the simulated prices as they were generated: when
    it returns, the rows 0..T-2 of the matrix still hold the prices
    S_1..S_{T-1} of every path. *)
Theorem do_run_keeps_prices :
  forall (num_timesteps num_paths : nat) (payoff : Payoff)
         (dt S0 r sigma : R) (h_samples : array R)
         (shared0 : nat -> array Z * array R) (dev : device) (t p : nat),
    (t + 2 <= num_timesteps)%nat -> (p < num_paths)%nat ->
    d_paths
      (do_run_device num_timesteps num_paths payoff dt S0 r sigma h_samples
         (main_d_cashflows num_timesteps num_paths) shared0 dev)
      (t * num_paths + p)%nat
    = gbm_price num_paths dt S0 r sigma h_samples (t + 1) p.
Proof.
  intros T N payoff dt S0 r sigma h_samples shared0 dev t p Ht Hp.
  unfold do_run_device, do_run_reduce. cbn [d_paths].
  rewrite main_loop_as_prefix, main_loop_prefix_frame.
  - apply do_run_setup_prices; assumption.
  - unfold main_d_cashflows. lia.
  - left. unfold main_d_cashflows. nia.
Qed.





(** ** What [prepare_svd_kernel] stores for a timestep *)






(** ** The regression coefficients of a timestep *)



(** ** The result does not depend on what the memory held before *)


Section RowFacts.

Variables (payoff : Payoff) (paths paths' : array R) (num_paths t : nat).
Hypothesis Hrow :
  forall p, (p < num_paths)%nat ->
    paths (t * num_paths + p)%nat = paths' (t * num_paths + p)%nat.




End RowFacts.

Section SameInputFacts.

Variables (num_timesteps num_paths : nat) (payoff : Payoff) (dt r : R).
Hypothesis HT : (1 <= num_timesteps)%nat.

Let d_cashflows := main_d_cashflows num_timesteps num_paths.
Let step := do_run_timestep num_paths payoff dt r d_cashflows.





Variables (S0 sigma : R) (h_samples : array R).



End SameInputFacts.


(** ** The cells [do_run] writes *)

Lemma for_threads_unchanged {A : Type} (n : nat)
  (body : nat -> array A -> array A) (a : array A) (q : nat) :
  (forall tid s, (tid < n)%nat -> body tid s q = s q) ->
  for_threads n body a q = a q.
Proof.
  intros H. induction n as [|n IH]; [reflexivity|].
  rewrite for_threads_S, H by lia. apply IH. intros; apply H; lia.
Qed.

Lemma launch_unchanged {A : Type} (grid block : nat)
  (kernel : nat -> nat -> array A -> array A) (a : array A) (q : nat) :
  (forall b tid s, kernel b tid s q = s q) ->
  launch grid block kernel a q = a q.
Proof.
  intros H. unfold launch. apply for_threads_unchanged.
  intros b s _. apply for_threads_unchanged. intros tid s' _. apply H.
Qed.

Lemma generate_paths_loop_frame (iters num_paths : nat) (a b : R)
  (samples : array R) (S_ : R) (offset : nat) (paths : array R) (q : nat) :
  (1 <= num_paths)%nat ->
  (q < offset \/ offset + iters * num_paths <= q)%nat ->
  let '(_, offset', paths') :=
    generate_paths_loop iters num_paths a b samples S_ offset paths in
  offset' = (offset + iters * num_paths)%nat /\ paths' q = paths q.
Proof.
  intros HN. revert S_ offset paths.
  induction iters as [|k IH]; intros S_ offset paths Hq.
  - simpl. split; [lia|reflexivity].
  - cbn [generate_paths_loop].
    specialize (IH (S_ * exp (a + b * samples offset)) (offset + num_paths)%nat
                  (store paths offset (S_ * exp (a + b * samples offset)))).
    destruct (generate_paths_loop k num_paths a b samples _ _ _)
      as [[S' offset'] paths'].
    destruct IH as [Hoff Hframe]; [lia|].
    split; [lia|]. rewrite Hframe. apply store_neq. lia.
Qed.

Lemma generate_paths_kernel_frame (NT num_timesteps num_paths : nat)
  (payoff : Payoff) (dt S0 r sigma : R) (samples : array R)
  (blockIdx threadIdx : nat) (paths : array R) (q : nat) :
  (1 <= num_timesteps)%nat -> (num_timesteps * num_paths <= q)%nat ->
  generate_paths_kernel NT num_timesteps num_paths payoff dt S0 r sigma
    samples blockIdx threadIdx paths q = paths q.
Proof.
  intros HT Hq. unfold generate_paths_kernel. cbv zeta.
  destruct (Nat.leb_spec num_paths (blockIdx * NT + threadIdx)) as [|Hp];
    [reflexivity|].
  pose proof (generate_paths_loop_frame (num_timesteps - 1) num_paths
                ((r - 0.5 * sigma * sigma) * dt) (sigma * sqrt dt) samples S0
                (blockIdx * NT + threadIdx) paths q) as H.
  destruct (generate_paths_loop _ _ _ _ _ _ _ _) as [[S' offset'] paths'].
  destruct H as [Hoff Hframe]; [lia|right; nia|].
  rewrite store_neq by nia. exact Hframe.
Qed.

Lemma prepare_svd_kernel_svds_frame (grid num_paths : nat)
  (min_in_the_money : Z) (payoff : Payoff) (paths : array R)
  (shared0 : nat -> array Z * array R) (flags : array Z) (svds : array R)
  (q : nat) :
  (forall b, (b < grid)%nat -> (q < 16 * b \/ 16 * b + 12 <= q)%nat) ->
  snd (prepare_svd_kernel 256 grid num_paths min_in_the_money payoff paths
         shared0 (flags, svds)) q = svds q.
Proof.
  unfold prepare_svd_kernel. induction grid as [|g IH]; intros Hq;
    [reflexivity|].
  rewrite for_threads_S.
  destruct (for_threads g _ (flags, svds)) as [flags' svds'] eqn:E.
  destruct (prepare_svd_block_svds num_paths min_in_the_money payoff paths
              (shared0 g) g flags' svds' q) as [Hout _].
  cbv zeta in Hout. rewrite Hout by (apply Hq; lia).
  cbn [snd] in IH. apply IH. intros b Hb. apply Hq. lia.
Qed.

Lemma compute_partial_beta_kernel_frame (n num_paths : nat) (payoff : Payoff)
  (d_svds : array R) (svd : nat) (d_paths : array R) (paths cashflows : nat)
  (flag : Z) (partial_sums : array R) (q : nat) :
  (n <= 128)%nat -> (3 * 128 <= q)%nat ->
  for_threads n
    (compute_partial_beta_block 128 128 num_paths payoff d_svds svd d_paths
       paths cashflows flag) partial_sums q
  = partial_sums q.
Proof.
  intros Hn Hq. apply for_threads_unchanged. intros b s Hb.
  unfold compute_partial_beta_block.
  destruct (negb (flag =? 0)%Z); [reflexivity|].
  rewrite !store_neq by lia. reflexivity.
Qed.

Lemma compute_final_beta_kernel_frame (flag : Z) (beta : array R) (q : nat) :
  (3 <= q)%nat -> compute_final_beta_kernel 128 flag beta q = beta q.
Proof.
  intros Hq. unfold compute_final_beta_kernel.
  destruct (negb (flag =? 0)%Z).
  - apply for_threads_unchanged. intros tid s _.
    destruct (Nat.ltb_spec tid 3); [apply store_neq; lia|reflexivity].
  - rewrite !store_neq by lia. reflexivity.
Qed.

Section FootprintFacts.

Variables (num_paths : nat) (payoff : Payoff) (dt r : R) (d_cashflows : nat).

Lemma do_run_timestep_temp_frame (t : nat) (dev : device) (q : nat) :
  (3 * 128 <= q)%nat ->
  d_temp_storage (do_run_timestep num_paths payoff dt r d_cashflows t dev) q
  = d_temp_storage dev q.
Proof.
  intros Hq. unfold do_run_timestep. cbn [d_temp_storage].
  rewrite compute_final_beta_kernel_frame by lia.
  apply compute_partial_beta_kernel_frame; lia.
Qed.

Lemma main_loop_temp_frame (n : nat) (dev : device) (q : nat) :
  (3 * 128 <= q)%nat ->
  d_temp_storage (main_loop num_paths payoff dt r d_cashflows n dev) q
  = d_temp_storage dev q.
Proof.
  intros Hq. revert dev. induction n as [|n IH]; intros dev; [reflexivity|].
  cbn [main_loop]. rewrite IH. apply do_run_timestep_temp_frame, Hq.
Qed.

Lemma main_loop_svds (n : nat) (dev : device) :
  d_svds (main_loop num_paths payoff dt r d_cashflows n dev) = d_svds dev.
Proof.
  revert dev. induction n as [|n IH]; intros dev; [reflexivity|].
  cbn [main_loop]. rewrite IH. reflexivity.
Qed.

(** The partial sums the final reduction leaves in [d_temp_storage]. *)
Lemma do_run_reduce_temp (dev : device) (b : nat) :
  (1 <= b)%nat ->
  d_temp_storage (do_run_reduce num_paths dt r d_cashflows dev) b
  = if (b <? (num_paths + 128 - 1) / 128)%nat
    then sum_upto 128
           (fun i => if (b * 128 + i <? num_paths)%nat
                     then d_paths dev (d_cashflows + (b * 128 + i))%nat
                     else 0)
    else d_temp_storage dev b.
Proof.
  intros Hb. unfold do_run_reduce. cbn [d_temp_storage].
  unfold compute_final_sum_kernel. rewrite store_neq by lia.
  unfold compute_partial_sums_block.
  rewrite (for_threads_store_each _
             (fun b => atomicAdd_all 128
                (fun threadIdx =>
                   if (b * 128 + threadIdx <? num_paths)%nat
                   then d_paths dev (d_cashflows + (b * 128 + threadIdx))%nat
                   else 0.0) 0)).
  destruct (b <? (num_paths + 128 - 1) / 128)%nat; [|reflexivity].
  rewrite atomicAdd_all_sum, Rplus_0_l.
  apply sum_upto_ext. intros i _.
  destruct (b * 128 + i <? num_paths)%nat; [reflexivity|lra].
Qed.

End FootprintFacts.

Lemma do_run_setup_svds_frame
  (num_timesteps num_paths : nat) (payoff : Payoff) (dt S0 r sigma : R)
  (h_samples : array R) (shared0 : nat -> array Z * array R) (dev : device)
  (q : nat) :
  (forall b, (b + 2 <= num_timesteps)%nat ->
     (q < 16 * b \/ 16 * b + 12 <= q)%nat) ->
  d_svds (do_run_setup num_timesteps num_paths payoff dt S0 r sigma h_samples
            shared0 dev) q
  = d_svds dev q.
Proof.
  intros Hq. unfold do_run_setup.
  match goal with
  | |- context [prepare_svd_kernel 256 ?g ?n ?m ?p ?paths ?sh (?f, ?s)] =>
      pose proof (prepare_svd_kernel_svds_frame g n m p paths sh f s q) as H;
      destruct (prepare_svd_kernel 256 g n m p paths sh (f, s))
        as [flags svds]
  end.
  cbn [snd] in H. cbn [d_svds]. apply H. intros b Hb. apply Hq. lia.
Qed.

Lemma do_run_setup_flags_frame
  (num_timesteps num_paths : nat) (payoff : Payoff) (dt S0 r sigma : R)
  (h_samples : array R) (shared0 : nat -> array Z * array R) (dev : device)
  (t : nat) :
  (num_timesteps <= t)%nat ->
  d_all_out_of_the_money
    (do_run_setup num_timesteps num_paths payoff dt S0 r sigma h_samples
       shared0 dev) t
  = d_all_out_of_the_money dev t.
Proof.
  intros Ht. unfold do_run_setup.
  match goal with
  | |- context [prepare_svd_kernel 256 ?g ?n ?m ?p ?paths ?sh (?f, ?s)] =>
      pose proof (prepare_svd_kernel_flags g n m p paths sh f s t) as H;
      destruct (prepare_svd_kernel 256 g n m p paths sh (f, s))
        as [flags svds]
  end.
  cbn [fst] in H. cbn [d_all_out_of_the_money]. rewrite H.
  destruct (Nat.ltb_spec t (num_timesteps - 1)); [lia|]. cbn [andb].
  unfold memset_zero. destruct (Nat.ltb_spec t num_timesteps); [lia|].
  reflexivity.
Qed.

(** X8.  [do_run] changes nothing outside the buffers [main] allocates, as
    long as the paths fit the temporary storage (at most
    128 * max_temp_storage of them): the cells of [d_paths] from
    [num_timesteps*num_paths] on, those of [d_svds] from [16*num_timesteps]
    on, the flags from [num_timesteps] on and the cells of
    [d_temp_storage] from [max_temp_storage] on are as they were. *)
Theorem do_run_writes_within_buffers :
  forall (num_timesteps num_paths : nat) (payoff : Payoff)
         (dt S0 r sigma : R) (h_samples : array R)
         (shared0 : nat -> array Z * array R) (dev : device),
    (1 <= num_timesteps)%nat ->
    (num_paths <= 128 * max_temp_storage)%nat ->
    let dev' :=
      do_run_device num_timesteps num_paths payoff dt S0 r sigma h_samples
        (main_d_cashflows num_timesteps num_paths) shared0 dev in
    (forall q, (num_timesteps * num_paths <= q)%nat ->
       d_paths dev' q = d_paths dev q) /\
    (forall q, (16 * num_timesteps <= q)%nat ->
       d_svds dev' q = d_svds dev q) /\
    (forall t, (num_timesteps <= t)%nat ->
       d_all_out_of_the_money dev' t = d_all_out_of_the_money dev t) /\
    (forall q, (max_temp_storage <= q)%nat ->
       d_temp_storage dev' q = d_temp_storage dev q).
Proof.
  intros T N payoff dt S0 r sigma h_samples shared0 dev HT HN dev'.
  unfold dev', do_run_device.
  set (dev1 := do_run_setup T N payoff dt S0 r sigma h_samples shared0 dev).
  repeat split.
  - intros q Hq. unfold do_run_reduce. cbn [d_paths].
    rewrite main_loop_as_prefix, main_loop_prefix_frame.
    + unfold dev1. rewrite do_run_setup_paths.
      apply launch_unchanged. intros b tid s.
      apply generate_paths_kernel_frame; assumption.
    + unfold main_d_cashflows. lia.
    + right. unfold main_d_cashflows. nia.
  - intros q Hq. unfold do_run_reduce. cbn [d_svds].
    rewrite main_loop_svds. apply do_run_setup_svds_frame. intros b Hb. lia.
  - intros t Ht. unfold do_run_reduce. cbn [d_all_out_of_the_money].
    rewrite main_loop_flags. apply do_run_setup_flags_frame, Ht.
  - intros q Hq. unfold max_temp_storage, MAX_GRID_SIZE in *.
    rewrite do_run_reduce_temp by lia.
    assert (Hgrid : ((N + 128 - 1) / 128 < 4 * 2048 + 1)%nat)
      by (apply Nat.Div0.div_lt_upper_bound; lia).
    destruct (Nat.ltb_spec q ((N + 128 - 1) / 128)); [lia|].
    rewrite main_loop_temp_frame by lia.
    unfold dev1. rewrite do_run_setup_temp. reflexivity.
Qed.

(** X9.  The final reduction stores the sum of the cashflows of block [b]
    (paths 128*b, ..., 128*b+127, as far as there are paths) in
    [d_temp_storage[b]] for every block of the launch, with no regard for
    [max_temp_storage]: with more than 128 * max_temp_storage paths the
    cells from [d_temp_storage[max_temp_storage]] on are written. *)
Theorem partial_sums_beyond_temp_storage :
  forall (num_paths : nat) (dt r : R) (d_cashflows : nat) (dev : device)
         (b : nat),
    (max_temp_storage <= b)%nat -> (128 * b < num_paths)%nat ->
    d_temp_storage (do_run_reduce num_paths dt r d_cashflows dev) b
    = sum_upto 128
        (fun i => if (b * 128 + i <? num_paths)%nat
                  then d_paths dev (d_cashflows + (b * 128 + i))%nat
                  else 0).
Proof.
  intros N dt r c dev b Hb HN.
  rewrite do_run_reduce_temp
    by (unfold max_temp_storage, MAX_GRID_SIZE in Hb; lia).
  assert (Hgrid : (b + 1 <= (N + 128 - 1) / 128)%nat)
    by (apply Nat.div_le_lower_bound; lia).
  destruct (Nat.ltb_spec b ((N + 128 - 1) / 128)); [reflexivity|lia].
Qed.

Lemma dec_m1 : -1.0 = -1. Proof. lra. Qed.

(** The pair [(c, s)] is a rotation. *)
Lemma jacobi_rotation_unit (App Aqq Apq : R) :
  let '(c, s) := jacobi_rotation App Aqq Apq in c * c + s * s = 1 /\ 0 < c.
Proof.
  unfold jacobi_rotation. rewrite ?dec_m1, ?dec_0, ?dec_1, ?dec_2.
  destruct (Req_dec_T Apq 0) as [_|_].
  - split; lra.
  - cbv zeta.
    set (tau := (Aqq - App) / (2 * Apq)).
    set (sgn := if Rlt_dec tau 0 then -1 else 1).
    set (t := sgn / (sgn * tau + sqrt (1 + tau * tau))).
    cbv beta iota.
    assert (Hpos : 0 < 1 + t * t) by nra.
    assert (Hs : 0 < sqrt (1 + t * t)) by (apply sqrt_lt_R0; assumption).
    assert (Hsq : sqrt (1 + t * t) * sqrt (1 + t * t) = 1 + t * t)
      by (apply sqrt_sqrt; lra).
    split.
    + set (q := sqrt (1 + t * t)) in *.
      replace (1 / q * (1 / q) + t * (1 / q) * (t * (1 / q)))
        with ((1 + t * t) / (q * q)) by (field; lra).
      rewrite Hsq. field. lra.
    + apply Rdiv_lt_0_compat; lra.
Qed.

(** It takes the entry (p,q) to zero. *)
Lemma jacobi_rotation_annihilates (App Aqq Apq : R) :
  let '(c, s) := jacobi_rotation App Aqq Apq in
  c * s * (App - Aqq) + (c * c - s * s) * Apq = 0.
Proof.
  unfold jacobi_rotation. rewrite ?dec_m1, ?dec_0, ?dec_1, ?dec_2.
  destruct (Req_dec_T Apq 0) as [E|Hne].
  - rewrite E. lra.
  - cbv zeta.
    set (tau := (Aqq - App) / (2 * Apq)).
    assert (Hq : sqrt (1 + tau * tau) * sqrt (1 + tau * tau)
                 = 1 + tau * tau) by (apply sqrt_sqrt; nra).
    assert (Hq1 : 1 <= sqrt (1 + tau * tau)).
    { rewrite <- sqrt_1 at 1. apply sqrt_le_1_alt. nra. }
    set (q := sqrt (1 + tau * tau)) in *.
    set (sgn := if Rlt_dec tau 0 then -1 else 1).
    assert (Hsgn : sgn * sgn = 1)
      by (unfold sgn; destruct (Rlt_dec tau 0); lra).
    assert (HD : 1 <= sgn * tau + q)
      by (unfold sgn; destruct (Rlt_dec tau 0); nra).
    set (D := sgn * tau + q) in *.
    set (t := sgn / D). cbv beta iota.
    assert (Ht : t * t + 2 * tau * t - 1 = 0).
    { unfold t.
      replace (sgn / D * (sgn / D) + 2 * tau * (sgn / D) - 1)
        with ((sgn * sgn + 2 * tau * sgn * D - D * D) / (D * D))
        by (field; lra).
      replace (sgn * sgn + 2 * tau * sgn * D - D * D) with 0;
        [unfold Rdiv; ring|].
      unfold D. nra. }
    assert (HA : App - Aqq = - (2 * tau * Apq))
      by (unfold tau; field; lra).
    set (c := 1 / sqrt (1 + t * t)).
    replace (c * (t * c) * (App - Aqq) + (c * c - t * c * (t * c)) * Apq)
      with (- (c * c * Apq) * (t * t + 2 * tau * t - 1))
      by (rewrite HA; ring).
    rewrite Ht. ring.
Qed.

(** Two lists of six polynomials are equal entry by entry, given that
    c*c + s*s = 1. *)
Ltac entrywise :=
  repeat (apply f_equal2; [nsatz|]); reflexivity.

Lemma jacobi_sweep_rotations (st : jacobi_state) :
  jacobi_sweep st = jacobi_rotate_12 (jacobi_rotate_02 (jacobi_rotate_01 st)).
Proof.
  destruct st as [a00 a01 a02 a11 a12 a22 v00 v01 v02 v10 v11 v12 v20 v21 v22].
  unfold jacobi_sweep, jacobi_rotate_01.
  destruct (jacobi_rotation a00 a11 a01) as [c s].
  unfold jacobi_rotate_02.
  match goal with
  | |- context [jacobi_rotation ?a ?b ?c] =>
      destruct (jacobi_rotation a b c) as [c' s']
  end.
  unfold jacobi_rotate_12.
  match goal with
  | |- context [jacobi_rotation ?a ?b ?c] =>
      destruct (jacobi_rotation a b c) as [c'' s'']
  end.
  reflexivity.
Qed.

Lemma jacobi_rotate_01_V_A_Vt (st : jacobi_state) :
  V_A_Vt (jacobi_rotate_01 st) = V_A_Vt st.
Proof.
  destruct st as [a00 a01 a02 a11 a12 a22 v00 v01 v02 v10 v11 v12 v20 v21 v22].
  unfold jacobi_rotate_01.
  pose proof (jacobi_rotation_unit a00 a11 a01) as H.
  destruct (jacobi_rotation a00 a11 a01) as [c s]. destruct H as [H _].
  unfold V_A_Vt. cbv beta iota zeta. entrywise.
Qed.

Lemma jacobi_rotate_02_V_A_Vt (st : jacobi_state) :
  V_A_Vt (jacobi_rotate_02 st) = V_A_Vt st.
Proof.
  destruct st as [a00 a01 a02 a11 a12 a22 v00 v01 v02 v10 v11 v12 v20 v21 v22].
  unfold jacobi_rotate_02.
  pose proof (jacobi_rotation_unit a00 a22 a02) as H.
  destruct (jacobi_rotation a00 a22 a02) as [c s]. destruct H as [H _].
  unfold V_A_Vt. cbv beta iota zeta. entrywise.
Qed.

Lemma jacobi_rotate_12_V_A_Vt (st : jacobi_state) :
  V_A_Vt (jacobi_rotate_12 st) = V_A_Vt st.
Proof.
  destruct st as [a00 a01 a02 a11 a12 a22 v00 v01 v02 v10 v11 v12 v20 v21 v22].
  unfold jacobi_rotate_12.
  pose proof (jacobi_rotation_unit a11 a22 a12) as H.
  destruct (jacobi_rotation a11 a22 a12) as [c s]. destruct H as [H _].
  unfold V_A_Vt. cbv beta iota zeta. entrywise.
Qed.

Lemma jacobi_rotate_01_V_Vt (st : jacobi_state) :
  V_Vt (jacobi_rotate_01 st) = V_Vt st.
Proof.
  destruct st as [a00 a01 a02 a11 a12 a22 v00 v01 v02 v10 v11 v12 v20 v21 v22].
  unfold jacobi_rotate_01.
  pose proof (jacobi_rotation_unit a00 a11 a01) as H.
  destruct (jacobi_rotation a00 a11 a01) as [c s]. destruct H as [H _].
  unfold V_Vt. cbv beta iota zeta. entrywise.
Qed.

Lemma jacobi_rotate_02_V_Vt (st : jacobi_state) :
  V_Vt (jacobi_rotate_02 st) = V_Vt st.
Proof.
  destruct st as [a00 a01 a02 a11 a12 a22 v00 v01 v02 v10 v11 v12 v20 v21 v22].
  unfold jacobi_rotate_02.
  pose proof (jacobi_rotation_unit a00 a22 a02) as H.
  destruct (jacobi_rotation a00 a22 a02) as [c s]. destruct H as [H _].
  unfold V_Vt. cbv beta iota zeta. entrywise.
Qed.

Lemma jacobi_rotate_12_V_Vt (st : jacobi_state) :
  V_Vt (jacobi_rotate_12 st) = V_Vt st.
Proof.
  destruct st as [a00 a01 a02 a11 a12 a22 v00 v01 v02 v10 v11 v12 v20 v21 v22].
  unfold jacobi_rotate_12.
  pose proof (jacobi_rotation_unit a11 a22 a12) as H.
  destruct (jacobi_rotation a11 a22 a12) as [c s]. destruct H as [H _].
  unfold V_Vt. cbv beta iota zeta. entrywise.
Qed.

Lemma jacobi_sweep_V_A_Vt (st : jacobi_state) :
  V_A_Vt (jacobi_sweep st) = V_A_Vt st.
Proof.
  rewrite jacobi_sweep_rotations, jacobi_rotate_12_V_A_Vt,
    jacobi_rotate_02_V_A_Vt.
  apply jacobi_rotate_01_V_A_Vt.
Qed.

Lemma jacobi_sweep_V_Vt (st : jacobi_state) :
  V_Vt (jacobi_sweep st) = V_Vt st.
Proof.
  rewrite jacobi_sweep_rotations, jacobi_rotate_12_V_Vt, jacobi_rotate_02_V_Vt.
  apply jacobi_rotate_01_V_Vt.
Qed.

Lemma jacobi_loop_invariant {A : Type} (f : jacobi_state -> A) :
  (forall st, f (jacobi_sweep st) = f st) ->
  forall n st, f (jacobi_loop n st) = f st.
Proof.
  intros H. induction n as [|n IH]; intros st; [reflexivity|].
  cbn [jacobi_loop]. destruct (Rle_dec _ _); [|reflexivity].
  rewrite IH. apply H.
Qed.


Lemma sort_eigenpairs_V_Vt (st : jacobi_state) :
  V_Vt (sort_eigenpairs st) = V_Vt st.
Proof.
  destruct st as [a00 a01 a02 a11 a12 a22 v00 v01 v02 v10 v11 v12 v20 v21 v22].
  unfold sort_eigenpairs, V_Vt.
  repeat match goal with
         | |- context [Rlt_dec ?a ?b] => destruct (Rlt_dec a b)
         end;
    repeat (apply f_equal2; [ring|]); reflexivity.
Qed.

Lemma jacobi_rotate_12_A12 (st : jacobi_state) :
  jA12 (jacobi_rotate_12 st) = 0.
Proof.
  destruct st as [a00 a01 a02 a11 a12 a22 v00 v01 v02 v10 v11 v12 v20 v21 v22].
  unfold jacobi_rotate_12.
  pose proof (jacobi_rotation_annihilates a11 a22 a12) as H.
  destruct (jacobi_rotation a11 a22 a12) as [c s].
  cbn [jA12]. rewrite <- H. ring.
Qed.


Lemma jacobi_rotate_01_off (st : jacobi_state) :
  off_sq (jacobi_rotate_01 st) = off_sq st - jA01 st * jA01 st.
Proof.
  destruct st as [a00 a01 a02 a11 a12 a22 v00 v01 v02 v10 v11 v12 v20 v21 v22].
  unfold jacobi_rotate_01, off_sq.
  pose proof (jacobi_rotation_unit a00 a11 a01) as H.
  pose proof (jacobi_rotation_annihilates a00 a11 a01) as H'.
  destruct (jacobi_rotation a00 a11 a01) as [c s]. destruct H as [H _].
  cbn [jA01 jA02 jA12].
  replace (c * (s * a00 + c * a01) - s * (s * a01 + c * a11))
    with (c * s * (a00 - a11) + (c * c - s * s) * a01) by ring.
  rewrite H'. nsatz.
Qed.

Lemma jacobi_rotate_02_off (st : jacobi_state) :
  off_sq (jacobi_rotate_02 st) = off_sq st - jA02 st * jA02 st.
Proof.
  destruct st as [a00 a01 a02 a11 a12 a22 v00 v01 v02 v10 v11 v12 v20 v21 v22].
  unfold jacobi_rotate_02, off_sq.
  pose proof (jacobi_rotation_unit a00 a22 a02) as H.
  pose proof (jacobi_rotation_annihilates a00 a22 a02) as H'.
  destruct (jacobi_rotation a00 a22 a02) as [c s]. destruct H as [H _].
  cbn [jA01 jA02 jA12].
  replace (c * (s * a00 + c * a02) - s * (s * a02 + c * a22))
    with (c * s * (a00 - a22) + (c * c - s * s) * a02) by ring.
  rewrite H'. nsatz.
Qed.

Lemma jacobi_rotate_12_off (st : jacobi_state) :
  off_sq (jacobi_rotate_12 st) = off_sq st - jA12 st * jA12 st.
Proof.
  destruct st as [a00 a01 a02 a11 a12 a22 v00 v01 v02 v10 v11 v12 v20 v21 v22].
  unfold jacobi_rotate_12, off_sq.
  pose proof (jacobi_rotation_unit a11 a22 a12) as H.
  pose proof (jacobi_rotation_annihilates a11 a22 a12) as H'.
  destruct (jacobi_rotation a11 a22 a12) as [c s]. destruct H as [H _].
  cbn [jA01 jA02 jA12].
  replace (c * (s * a11 + c * a12) - s * (s * a12 + c * a22))
    with (c * s * (a11 - a22) + (c * c - s * s) * a12) by ring.
  rewrite H'. nsatz.
Qed.

Lemma off_diag_norm_off_sq (st : jacobi_state) :
  off_diag_norm (jA01 st) (jA02 st) (jA12 st) = sqrt (2 * off_sq st).
Proof. unfold off_diag_norm, off_sq. rewrite dec_2. reflexivity. Qed.

Lemma jacobi_sweep_off_sq (st : jacobi_state) :
  off_sq (jacobi_sweep st) <= off_sq st.
Proof.
  rewrite jacobi_sweep_rotations, jacobi_rotate_12_off, jacobi_rotate_02_off,
    jacobi_rotate_01_off.
  pose proof (Rle_0_sqr (jA01 st)).
  pose proof (Rle_0_sqr (jA02 (jacobi_rotate_01 st))).
  pose proof (Rle_0_sqr (jA12 (jacobi_rotate_02 (jacobi_rotate_01 st)))).
  unfold Rsqr in *. lra.
Qed.

(** The [let]s of the left-hand side become local definitions, one at a
    time; a destructuring [let] gives variables. *)
Ltac left_let :=
  lazymatch goal with
  | |- (let x := ?v in @?f x) ?i = ?r =>
      let z := fresh x in
      change (let z := v in f z i = r); intro z; cbv beta
  | |- (match ?X with pair _ _ => _ end) ?i = ?r =>
      let z := fresh "t" in
      set (z := X); clearbody z; destruct z as [[[? ?] ?] ?]; cbv beta iota
  end.

Lemma assemble_R_first_row (m : Z) (sums : double4) (smem : array R) :
  (2 <= m)%Z ->
  let R_ := assemble_R m sums smem in
  R_ 0%nat = sqrt (IZR m) /\
  R_ 0%nat * R_ 0%nat = IZR m /\
  R_ 0%nat * R_ 1%nat = d4x sums /\
  R_ 0%nat * R_ 2%nat = d4y sums.
Proof.
  intros Hm R_.
  assert (Hm' : 2 <= IZR m) by (apply IZR_le in Hm; exact Hm).
  assert (Hmu : sqrt (IZR m) * sqrt (IZR m) = IZR m)
    by (apply sqrt_sqrt; lra).
  assert (Hmu1 : 1 < sqrt (IZR m)).
  { rewrite <- sqrt_1. apply sqrt_lt_1_alt. lra. }
  assert (H0 : R_ 0%nat = sqrt (IZR m)).
  { unfold R_. cbv delta [assemble_R]; cbv beta. repeat left_let.
    repeat match goal with s := store _ _ _ |- _ => subst s end.
    unfold store. cbn [Nat.eqb]. reflexivity. }
  assert (H1 : R_ 1%nat = d4x sums / sqrt (IZR m)).
  { unfold R_. cbv delta [assemble_R]; cbv beta. repeat left_let.
    repeat match goal with s := store _ _ _ |- _ => subst s end.
    unfold store. cbn [Nat.eqb].
    subst one_min_beta beta_div_v0 inv_v0 beta v0_sq v0 sigma mu sum1 m_as_dbl
      x0.
    rewrite ?dec_1, ?dec_2.
    set (q := sqrt (IZR m)) in *. rewrite <- Hmu. field. nra. }
  assert (H2 : R_ 2%nat = d4y sums / sqrt (IZR m)).
  { unfold R_. cbv delta [assemble_R]; cbv beta. repeat left_let.
    repeat match goal with s := store _ _ _ |- _ => subst s end.
    unfold store. cbn [Nat.eqb].
    subst one_min_beta beta_div_v0 inv_v0 beta v0_sq v0 sigma mu sum2 m_as_dbl
      x0_sq x0.
    rewrite ?dec_1, ?dec_2.
    set (q := sqrt (IZR m)) in *. rewrite <- Hmu. field. nra. }
  rewrite H0, H1, H2. repeat split; try assumption; field; lra.
Qed.

(** ** The binomial tree *)

Section BinomialFacts.

Variables (payoff : Payoff) (dt S0 r sigma : R).
Variables (u d p : R).

Let value := lattice_value payoff S0 u d (exp (- r * dt)) p.

Lemma binomial_tree_leaves_spec (n : nat) (k : R) (tree : array R) :
  let '(tree', k') :=
    for_loop n
      (fun t '(tree, k) =>
         (store tree t (payoff_value payoff (S0 * k)), k * (u * u)))
      (tree, k) in
  k' = k * (u * u) ^ n /\
  forall i, tree' i = if (i <? n)%nat
                      then payoff_value payoff (S0 * (k * (u * u) ^ i))
                      else tree i.
Proof.
  unfold for_loop. induction n as [|n IH].
  - rewrite for_threads_0. split; [simpl; ring|]. intros i. reflexivity.
  - rewrite for_threads_S.
    destruct (for_threads n _ (tree, k)) as [tree' k'].
    destruct IH as [Hk Htree]. split.
    + rewrite Hk. simpl. ring.
    + intros i. unfold store. destruct (Nat.eqb_spec i n) as [->|Hne].
      * destruct (Nat.ltb_spec n (S n)); [|lia]. rewrite Hk. reflexivity.
      * rewrite Htree.
        destruct (Nat.ltb_spec i n), (Nat.ltb_spec i (S n)); try lia;
          reflexivity.
Qed.

(** The level [t] of the second loop takes the values of the level below
    to the values of level [t]. *)
Lemma binomial_tree_level_spec (n t : nat) (tree : array R) :
  (forall j, (j <= t + 1)%nat -> tree j = value n (t + 1)%nat j) ->
  forall i, (i <= t)%nat ->
    binomial_tree_level payoff dt S0 r u d p t tree i = value (S n) t i.
Proof.
  intros Htree. unfold binomial_tree_level. cbv zeta.
  assert (H : forall m, (m <= t + 1)%nat ->
    let '(tree', k') :=
      for_loop m
        (fun i '(tree, k) =>
           (store tree i
              (Rmax (payoff_value payoff (S0 * k))
                 (exp (- r * dt)
                  * (p * tree (i + 1)%nat + (1.0 - p) * tree i))),
            k * (u * u)))
        (tree, d ^ t) in
    k' = d ^ t * (u * u) ^ m /\
    (forall j, (j < m)%nat -> tree' j = value (S n) t j) /\
    (forall j, (m <= j)%nat -> tree' j = tree j)).
  { unfold for_loop. induction m as [|m IH]; intros Hm.
    - rewrite for_threads_0.
      split; [simpl; ring|split; [intros j Hj; lia|reflexivity]].
    - rewrite for_threads_S.
      destruct (for_threads m _ (tree, d ^ t)) as [tree' k'].
      destruct IH as (Hk & Hlow & Hhigh); [lia|].
      split; [|split].
      + rewrite Hk. simpl. ring.
      + intros j Hj. unfold store. destruct (Nat.eqb_spec j m) as [->|Hne].
        * rewrite !Hhigh, !Htree, Hk by lia.
          unfold value. cbn [lattice_value]. rewrite dec_1. reflexivity.
        * apply Hlow. lia.
      + intros j Hj. rewrite store_neq by lia. apply Hhigh. lia. }
  intros i Hi. specialize (H (t + 1)%nat (le_n _)).
  match type of H with
  | (let '(_, _) := ?Y in _) =>
      match goal with |- fst ?X i = _ => change X with Y end;
      destruct Y as [tree' k']
  end.
  destruct H as (_ & Hlow & _). apply Hlow. lia.
Qed.

Lemma binomial_tree_levels_spec (t n : nat) (tree : array R) :
  (forall j, (j <= t)%nat -> tree j = value n t j) ->
  binomial_tree_levels payoff dt S0 r u d p t tree 0%nat = value (t + n) 0%nat 0%nat.
Proof.
  revert n tree. induction t as [|t IH]; intros n tree Htree.
  - apply Htree. lia.
  - cbn [binomial_tree_levels].
    rewrite (IH (S n)).
    + f_equal. lia.
    + intros j Hj. apply binomial_tree_level_spec; [|assumption].
      intros j' Hj'. replace (t + 1)%nat with (S t) by lia. apply Htree. lia.
Qed.

End BinomialFacts.

Lemma lattice_value_exercise (payoff : Payoff) (S0 u d disc p : R)
  (n t i : nat) :
  payoff_value payoff (S0 * (d ^ t * (u * u) ^ i))
  <= lattice_value payoff S0 u d disc p n t i.
Proof.
  destruct n as [|n]; cbn [lattice_value]; [lra|apply Rmax_l].
Qed.

Lemma binomial_tree_value (num_timesteps : nat) (payoff : Payoff)
  (dt S0 r sigma : R) (tree0 : array R) :
  let u := exp (sigma * sqrt dt) in
  let d := exp (- sigma * sqrt dt) in
  let p := (exp (r * dt) - d) / (u - d) in
  binomial_tree payoff dt S0 r sigma num_timesteps tree0
  = lattice_value payoff S0 u d (exp (- r * dt)) p num_timesteps 0 0.
Proof.
  intros u d p. unfold binomial_tree. cbv zeta. fold u d p.
  unfold binomial_tree_leaves.
  pose proof (binomial_tree_leaves_spec payoff S0 u (num_timesteps + 1)
                (d ^ num_timesteps) tree0) as H.
  destruct (for_loop (num_timesteps + 1) _ (tree0, d ^ num_timesteps))
    as [tree k].
  destruct H as [_ Htree].
  rewrite (binomial_tree_levels_spec payoff dt S0 r u d p num_timesteps 0).
  - f_equal. lia.
  - intros j Hj. rewrite Htree.
    destruct (Nat.ltb_spec j (num_timesteps + 1)); [|lia]. reflexivity.
Qed.

(** ** The distribution function of the normal law *)

Lemma gauss_continuity : continuity gauss.
Proof. unfold gauss. reg. Qed.

(** ** The closed-form European prices *)

(** The integral of the density from [-x] to [y], for [y] between [-x]
    and [x]. *)
Lemma gauss_primitive_value (x y : R) (h : - x <= x)
  (C0 : forall z, - x <= z <= x -> continuity_pt gauss z) :
  - x <= y <= x ->
  primitive h (FTC_P1 h C0) y = RiemannInt (gauss_integrable (- x) y).
Proof.
  intros [Hy1 Hy2]. unfold primitive.
  destruct (Rle_dec (- x) y) as [H1|H1]; [|contradiction].
  destruct (Rle_dec y x) as [H2|H2]; [|contradiction].
  apply RiemannInt_P5.
Qed.

Lemma gauss_even (t : R) : gauss (- t) = gauss t.
Proof. unfold gauss. f_equal. lra. Qed.

Lemma gauss_integral_odd_nonneg (x : R) :
  0 <= x ->
  RiemannInt (gauss_integrable 0 (- x)) = - RiemannInt (gauss_integrable 0 x).
Proof.
  intros Hx.
  assert (h : - x <= x) by lra.
  assert (C0 : forall z, - x <= z <= x -> continuity_pt gauss z)
    by (intros z _; apply gauss_continuity).
  set (P := primitive h (FTC_P1 h C0)).
  set (Q := fun y => - P (- y)).
  assert (HP : antiderivative gauss P (- x) x) by apply RiemannInt_P29.
  assert (HQ : antiderivative gauss Q (- x) x).
  { split; [|assumption]. intros y Hy.
    assert (Hlim : derivable_pt_lim Q y (gauss y)).
    { unfold Q.
      replace (gauss y) with (- (gauss (- y) * -1))
        by (rewrite gauss_even; ring).
      apply derivable_pt_lim_opp.
      apply (derivable_pt_lim_comp (fun t => - t) P).
      - replace (-1) with (- 1) by ring.
        apply derivable_pt_lim_opp, derivable_pt_lim_id.
      - apply RiemannInt_P28. lra. }
    exists (exist _ (gauss y) Hlim). reflexivity. }
  destruct (antiderivative_Ucte gauss P Q (- x) x HP HQ) as [c Hc].
  assert (H0 : P 0 = Q 0 + c) by (apply Hc; lra).
  assert (Hxx : P x = Q x + c) by (apply Hc; lra).
  unfold Q in H0, Hxx. rewrite Ropp_0 in H0.
  assert (Hneg : P (- x) = 0).
  { unfold P. rewrite gauss_primitive_value by lra. apply RiemannInt_P9. }
  assert (HPx : P x = RiemannInt (gauss_integrable (- x) x))
    by (unfold P; apply gauss_primitive_value; lra).
  assert (HP0 : P 0 = RiemannInt (gauss_integrable (- x) 0))
    by (unfold P; apply gauss_primitive_value; lra).
  pose proof (RiemannInt_P26 (gauss_integrable (- x) 0) (gauss_integrable 0 x)
                (gauss_integrable (- x) x)) as Hadd.
  rewrite (RiemannInt_P8 (gauss_integrable 0 (- x)) (gauss_integrable (- x) 0)).
  lra.
Qed.

Lemma gauss_integral_odd (x : R) :
  RiemannInt (gauss_integrable 0 (- x)) = - RiemannInt (gauss_integrable 0 x).
Proof.
  destruct (Rle_dec 0 x) as [Hx|Hx].
  - apply gauss_integral_odd_nonneg, Hx.
  - pose proof (gauss_integral_odd_nonneg (- x) ltac:(lra)) as H.
    revert H. rewrite Ropp_involutive. lra.
Qed.

Lemma normcdf_reflection (x : R) : normcdf (- x) = 1 - normcdf x.
Proof.
  unfold normcdf. rewrite gauss_integral_odd. unfold Rdiv. lra.
Qed.

(** ** The command line *)

Section CommandLineFacts.

Variable strtol : String.string -> Z.
Variable strtod : String.string -> R.

Let read := read_options strtol strtod.

Lemma read_options_append_length (n : nat) :
  forall (pre rest : list String.string) (o o' : options),
    (List.length pre <= n)%nat ->
    read pre o = Continues o' ->
    read (pre ++ rest) o = read rest o'.
Proof.
  induction n as [|n IH]; intros pre rest o o' Hlen Hpre.
  - destruct pre; [|simpl in Hlen; lia].
    simpl in Hpre. injection Hpre as ->. reflexivity.
  - destruct pre as [|arg pre]; [simpl in Hpre; injection Hpre as ->;
                                  reflexivity|].
    simpl in Hlen. unfold read in *. cbn [read_options app] in *.
    repeat match goal with
           | |- context [String.eqb arg ?s] => destruct (String.eqb arg s)
           end;
      try discriminate;
      try (destruct pre as [|v pre]; [discriminate|];
           cbn [app]; simpl in Hlen; apply IH; [lia|assumption]).
    apply IH; [lia|assumption].
Qed.

Lemma read_options_append (pre rest : list String.string) (o o' : options) :
  read pre o = Continues o' -> read (pre ++ rest) o = read rest o'.
Proof. apply (read_options_append_length (List.length pre)), le_n. Qed.


Lemma read_options_missing (arg : String.string) (o : options) :
  In arg value_options -> read [arg] o = Undefined_behaviour.
Proof.
  intros Hin. unfold value_options in Hin. simpl in Hin.
  unfold read.
  repeat destruct Hin as [<-|Hin]; try reflexivity. contradiction.
Qed.

End CommandLineFacts.

(** X2.  A path is in the money exactly when its payoff is positive, for
    the call and for the put. *)
Theorem in_the_money_iff_positive_payoff :
  forall (payoff : Payoff) (S_ : R),
    is_in_the_money payoff S_ = true <-> 0 < payoff_value payoff S_.
Proof.
  intros [K|K] S_; simpl;
    match goal with |- context [Rlt_dec ?a ?b] => destruct (Rlt_dec a b) end;
    unfold Rmax; destruct (Rle_dec _ _); split; intros H;
    try reflexivity; try discriminate; lra.
Qed.

(** X1.  The prices [generate_paths_kernel] stores have a closed form: the
    entry [(t,p)] is S0 * exp((t+1)*(r - sigma^2/2)*dt
    + sigma*sqrt(dt)*(Z_{0,p} + ... + Z_{t,p})), and it is positive when
    S0 is. *)
Theorem generate_paths_closed_form :
  forall (num_timesteps num_paths : nat) (payoff : Payoff)
         (dt S0 r sigma : R) (samples paths0 : array R) (t p : nat),
    (t + 2 <= num_timesteps)%nat -> (p < num_paths)%nat ->
    let paths :=
      launch ((num_paths + 256 - 1) / 256) 256
        (generate_paths_kernel 256 num_timesteps num_paths payoff
           dt S0 r sigma samples) paths0 in
    paths (t * num_paths + p)%nat
    = S0 * exp (INR (t + 1) * ((r - sigma ^ 2 / 2) * dt)
                + sigma * sqrt dt
                  * sum_upto (t + 1)
                      (fun j => samples (j * num_paths + p)%nat)) /\
    (0 < S0 -> 0 < paths (t * num_paths + p)%nat).
Proof.
  intros T N payoff dt S0 r sigma samples paths0 t p Ht Hp paths.
  destruct (generate_paths_launch_entries T N payoff dt S0 r sigma samples
              paths0 p ltac:(lia) Hp) as [H _].
  fold paths in H. rewrite (H t Ht). split.
  - apply gbm_price_closed_form.
  - apply gbm_price_pos.
Qed.

(** X3.  A launch of [update_cashflow_kernel] at a timestep that is not
    flagged gives every path its immediate payoff exactly when that payoff
    is above 1e-8 and either exceeds the estimate or the estimate is NaN;
    every other path gets exp_min_r_dt times its old cashflow.  The prices
    and the cashflows of the other paths play no part, nor does the size of
    the grid. *)
Theorem update_cashflow_kernel_rule :
  forall (grid num_paths : nat) (payoff : Payoff) (exp_min_r_dt : R)
         (beta : array double) (paths cashflows : nat) (a0 : array R)
         (p : nat),
    (1 <= grid)%nat -> (paths + num_paths <= cashflows)%nat ->
    (p < num_paths)%nat ->
    let a :=
      launch grid 128
        (update_cashflow_kernel 128 grid num_paths payoff exp_min_r_dt beta
           paths 0 cashflows) a0 in
    let immediate := payoff_value payoff (a0 (paths + p)%nat) in
    let continuation :=
      continuation_estimate exp_min_r_dt beta (a0 (paths + p)%nat) in
    let exercise :=
      immediate > 1.0e-8 /\
      (exceeds immediate continuation \/ continuation = NaN) in
    (exercise -> a (cashflows + p)%nat = immediate) /\
    (~ exercise ->
     a (cashflows + p)%nat = exp_min_r_dt * a0 (cashflows + p)%nat).
Proof.
  intros grid N payoff e beta paths cashflows a0 p Hgrid Hdisj Hp.
  intros a immediate continuation exercise.
  unfold a. rewrite update_cashflow_rule by assumption.
  fold immediate continuation. unfold exercise.
  destruct (Rle_dec immediate 1.0e-8) as [H1|H1].
  - split; [intros [H _]; lra|reflexivity].
  - destruct continuation as [y|]; cbn [double_le exceeds].
    + destruct (Rle_dec immediate y) as [H2|H2]; split; intros H;
        try reflexivity.
      * destruct H as [_ [H|H]]; [lra|discriminate].
      * exfalso. apply H. split; [lra|left; lra].
    + split; intros H; [reflexivity|].
      exfalso. apply H. split; [lra|right; reflexivity].
Qed.

(** ** The QR step and the Jacobi iteration *)

(** X10.  For at least two paths in the money, [assemble_R] gives R a first
    row with R00 = sqrt(m), R00*R01 = sum of the prices and
    R00*R02 = sum of their squares: the first row of R^T R is the first
    row (m, sum S, sum S^2) of the normal equations. *)
Theorem assemble_R_first_row_normal_equations :
  forall (m : Z) (sums : double4) (smem_svds : array R),
    (2 <= m)%Z ->
    let R_ := assemble_R m sums smem_svds in
    R_ 0%nat = sqrt (IZR m) /\
    R_ 0%nat * R_ 0%nat = IZR m /\
    R_ 0%nat * R_ 1%nat = d4x sums /\
    R_ 0%nat * R_ 2%nat = d4y sums.
Proof.
  intros m sums smem_svds Hm. apply assemble_R_first_row. assumption.
Qed.

(** X11.  [jacobi_rotation] returns the cosine and the sine of a rotation,
    c*c + s*s = 1 with c > 0, and the rotation takes the entry (p,q) of the
    matrix to zero: c*s*(App - Aqq) + (c*c - s*s)*Apq = 0. *)
Theorem jacobi_rotation_is_rotation :
  forall App Aqq Apq : R,
    let '(c, s) := jacobi_rotation App Aqq Apq in
    c * c + s * s = 1 /\ 0 < c /\
    c * s * (App - Aqq) + (c * c - s * s) * Apq = 0.
Proof.
  intros App Aqq Apq.
  pose proof (jacobi_rotation_unit App Aqq Apq) as H1.
  pose proof (jacobi_rotation_annihilates App Aqq Apq) as H2.
  destruct (jacobi_rotation App Aqq Apq) as [c s].
  destruct H1 as [H1 H1']. repeat split; assumption.
Qed.

(** X12.  The iteration of [svd_3x3] keeps V * A * V^T as it is: after any
    number of sweeps the matrix the loop started from is still
    V * A * V^T, and from V the identity that is the matrix A = R^T R
    itself. *)
Theorem jacobi_loop_similarity :
  forall (n : nat) (st : jacobi_state),
    V_A_Vt (jacobi_loop n st) = V_A_Vt st /\
    forall A00 A01 A02 A11 A12 A22 : R,
      V_A_Vt (jacobi_loop n (mkJacobi A00 A01 A02 A11 A12 A22
                               1.0 0.0 0.0  0.0 1.0 0.0  0.0 0.0 1.0))
      = [A00; A01; A02; A11; A12; A22].
Proof.
  intros n st.
  split; [apply jacobi_loop_invariant, jacobi_sweep_V_A_Vt|].
  intros. rewrite (jacobi_loop_invariant V_A_Vt jacobi_sweep_V_A_Vt).
  unfold V_A_Vt. rewrite dec_0, dec_1.
  repeat (apply f_equal2; [ring|]). reflexivity.
Qed.

(** X13.  The rows of V stay orthonormal: from V the identity, V * V^T is
    the identity after any number of sweeps and after the swaps that
    order the eigenvalues. *)
Theorem jacobi_loop_orthonormal :
  forall (n : nat) (A00 A01 A02 A11 A12 A22 : R),
    V_Vt (sort_eigenpairs
            (jacobi_loop n (mkJacobi A00 A01 A02 A11 A12 A22
                              1.0 0.0 0.0  0.0 1.0 0.0  0.0 0.0 1.0)))
    = [1; 0; 0; 1; 0; 1].
Proof.
  intros. rewrite sort_eigenpairs_V_Vt.
  rewrite (jacobi_loop_invariant V_Vt jacobi_sweep_V_Vt).
  unfold V_Vt. rewrite dec_0, dec_1.
  repeat (apply f_equal2; [ring|]). reflexivity.
Qed.

(** X14.  A sweep ends with the entry (1,2) at zero and never makes the
    off-diagonal norm, which the loop tests against the tolerance,
    larger. *)
Theorem jacobi_sweep_off_diagonal :
  forall st : jacobi_state,
    jA12 (jacobi_sweep st) = 0 /\
    off_diag_norm (jA01 (jacobi_sweep st)) (jA02 (jacobi_sweep st))
      (jA12 (jacobi_sweep st))
    <= off_diag_norm (jA01 st) (jA02 st) (jA12 st).
Proof.
  intros st. split.
  - rewrite jacobi_sweep_rotations. apply jacobi_rotate_12_A12.
  - rewrite !off_diag_norm_off_sq. apply sqrt_le_1_alt.
    pose proof (jacobi_sweep_off_sq st). lra.
Qed.

(** X15.  [binomial_tree] computes the backward induction on the recombining
    tree: its result is the value of the root, where the value of a node
    of the last level is its payoff and the value of any other node is the
    larger of its payoff and exp(-r*dt) times the p-weighted mean of the
    two nodes that follow it.  What the array holds when it is allocated
    plays no part. *)
Theorem binomial_tree_backward_induction :
  forall (num_timesteps : nat) (payoff : Payoff) (dt S0 r sigma : R)
         (tree0 : array R),
    let u := exp (sigma * sqrt dt) in
    let d := exp (- sigma * sqrt dt) in
    let p := (exp (r * dt) - d) / (u - d) in
    binomial_tree payoff dt S0 r sigma num_timesteps tree0
    = lattice_value payoff S0 u d (exp (- r * dt)) p num_timesteps 0 0.
Proof.
  intros. apply binomial_tree_value.
Qed.

(** X16.  The price of [binomial_tree] is never below the payoff of
    exercising at once, and with no timestep it is that payoff. *)
Theorem binomial_tree_at_least_exercise :
  forall (num_timesteps : nat) (payoff : Payoff) (dt S0 r sigma : R)
         (tree0 : array R),
    payoff_value payoff S0
    <= binomial_tree payoff dt S0 r sigma num_timesteps tree0 /\
    binomial_tree payoff dt S0 r sigma 0 tree0 = payoff_value payoff S0.
Proof.
  intros T payoff dt S0 r sigma tree0.
  rewrite !binomial_tree_value. split.
  - eapply Rle_trans; [|apply lattice_value_exercise].
    right. f_equal. simpl. ring.
  - cbn [lattice_value]. f_equal. simpl. ring.
Qed.

(** ** The host side: the command line, the runs and the closed forms *)


(** X19.  An option that takes a value and comes last, after arguments that
    were read completely, reads its value from [argv[argc]]: [main] hands
    a null pointer to [strtol] or [strtod]. *)
Theorem read_options_value_missing :
  forall (strtol : String.string -> Z) (strtod : String.string -> R)
         (pre : list String.string) (arg : String.string) (o o' : options),
    read_options strtol strtod pre o = Continues o' ->
    In arg value_options ->
    read_options strtol strtod (pre ++ [arg]) o = Undefined_behaviour.
Proof.
  intros strtol strtod pre arg o o' Hpre Hin.
  rewrite (read_options_append strtol strtod pre [arg] o o' Hpre).
  apply read_options_missing, Hin.
Qed.


(** X17.  Put-call parity of the two closed forms: for a positive maturity,
    strike, price and volatility, the call minus the put is
    S0 - K*exp(-r*T). *)
Theorem black_scholes_put_call_parity :
  forall T K S0 r sigma : R,
    0 < T -> 0 < K -> 0 < S0 -> 0 < sigma ->
    black_scholes_merton_call T K S0 r sigma
    - black_scholes_merton_put T K S0 r sigma
    = S0 - K * exp (- r * T).
Proof.
  intros T K S0 r sigma _ _ _ _.
  unfold black_scholes_merton_call, black_scholes_merton_put. cbv zeta.
  set (d1 := (ln (S0 / K) + (r + 0.5 * sigma * sigma) * T) / (sigma * sqrt T)).
  set (d2 := d1 - sigma * sqrt T).
  rewrite (normcdf_reflection d1), (normcdf_reflection d2). ring.
Qed.

(** ** Instances

    The statements above at the parameters of the default run (strike 4,
    initial price 3.6, rate 0.06, volatility 0.2) with two timesteps of
    length 0.5 and a single path. *)


Lemma generate_paths_entries_instance :
  let paths :=
    launch ((1 + 256 - 1) / 256) 256
      (generate_paths_kernel 256 2 1 (PayoffPut 4) 0.5 3.6 0.06 0.2
         zero_samples) (d_paths blank_device) in
  (forall t, (t + 2 <= 2)%nat ->
     paths (t * 1 + 0)%nat
     = gbm_price 1 0.5 3.6 0.06 0.2 zero_samples (t + 1) 0) /\
  paths (main_d_cashflows 2 1 + 0)%nat
  = payoff_value (PayoffPut 4) (gbm_price 1 0.5 3.6 0.06 0.2 zero_samples 2 0).
Proof.
  apply (generate_paths_entries 2 1 (PayoffPut 4) 0.5 3.6 0.06 0.2
           zero_samples (d_paths blank_device) 0); lia.
Defined.

Lemma out_of_the_money_timestep_instance :
  let dev1 :=
    do_run_setup 2 1 (PayoffPut 4) 0.5 3.6 0.06 0.2 zero_samples
      blank_shared blank_device in
  let before :=
    main_loop_prefix 1 (PayoffPut 4) 0.5 0.06 (main_d_cashflows 2 1)
      (2 - 2 - 0) (2 - 1) dev1 in
  let after :=
    do_run_timestep 1 (PayoffPut 4) 0.5 0.06 (main_d_cashflows 2 1) 0 before in
  d_all_out_of_the_money dev1 0%nat = 1%Z /\
  d_all_out_of_the_money before 0%nat = 1%Z /\
  d_temp_storage after 0%nat = 0 /\
  d_temp_storage after 1%nat = 0 /\
  d_temp_storage after 2%nat = 0 /\
  (forall p, (p < 1)%nat ->
     d_paths after (main_d_cashflows 2 1 + p)%nat
     = exp (- (0.06) * 0.5) * d_paths before (main_d_cashflows 2 1 + p)%nat).
Proof.
  apply (out_of_the_money_timestep 2 1 (PayoffPut 4) 0.5 3.6 0.06 0.2
           zero_samples blank_shared blank_device 0).
  - lia.
  - match goal with
    | |- (length (in_the_money_paths ?a ?b ?c ?d) < 4)%nat =>
        pose proof (in_the_money_paths_length a b c d)
    end.
    lia.
Defined.

Lemma few_paths_price_instance :
  (forall t, (t + 2 <= 2)%nat ->
     d_all_out_of_the_money
       (do_run_setup 2 1 (PayoffPut 4) 0.5 3.6 0.06 0.2 zero_samples
          blank_shared blank_device) t = 1%Z) /\
  lsm_price 2 1 (PayoffPut 4) 0.5 3.6 0.06 0.2 zero_samples blank_shared
    blank_device
  = european_price 2 1 (PayoffPut 4) 0.5 3.6 0.06 0.2 zero_samples.
Proof.
  apply (few_paths_price 2 1 (PayoffPut 4) 0.5 3.6 0.06 0.2 zero_samples
           blank_shared blank_device); lia.
Defined.

Lemma qr_seeds_first_three_in_the_money_instance :
  exists i0 i1 i2 rest,
    in_the_money_paths (PayoffPut 1)
      (d_paths (do_run_setup 2 4 (PayoffPut 1) 1 0.75 0 0.2
                  equal_paths_samples blank_shared blank_device)) 4 0
    = i0 :: i1 :: i2 :: rest /\
    (i0 < i1 < i2)%nat /\ (i2 < 4)%nat /\
    qr_seeds 4 (PayoffPut 1)
      (d_paths (do_run_setup 2 4 (PayoffPut 1) 1 0.75 0 0.2
                  equal_paths_samples blank_shared blank_device))
      blank_shared 0
    = (d_paths (do_run_setup 2 4 (PayoffPut 1) 1 0.75 0 0.2
                  equal_paths_samples blank_shared blank_device)
         (0 * 4 + i0)%nat,
       d_paths (do_run_setup 2 4 (PayoffPut 1) 1 0.75 0 0.2
                  equal_paths_samples blank_shared blank_device)
         (0 * 4 + i1)%nat,
       d_paths (do_run_setup 2 4 (PayoffPut 1) 1 0.75 0 0.2
                  equal_paths_samples blank_shared blank_device)
         (0 * 4 + i2)%nat).
Proof.
  apply (qr_seeds_first_three_in_the_money 2 4 (PayoffPut 1) 1 0.75 0 0.2
           equal_paths_samples blank_shared blank_device 0).
  - lia.
  - apply equal_paths_flag.
Defined.

(** ** Instances of the further properties *)

Lemma generate_paths_closed_form_instance :
  let paths :=
    launch ((1 + 256 - 1) / 256) 256
      (generate_paths_kernel 256 2 1 (PayoffPut 4) 0.5 3.6 0.06 0.2
         zero_samples) (d_paths blank_device) in
  paths (0 * 1 + 0)%nat
  = 3.6 * exp (INR (0 + 1) * ((0.06 - 0.2 ^ 2 / 2) * 0.5)
               + 0.2 * sqrt 0.5
                 * sum_upto (0 + 1) (fun j => zero_samples (j * 1 + 0)%nat)) /\
  (0 < 3.6 -> 0 < paths (0 * 1 + 0)%nat).
Proof.
  apply (generate_paths_closed_form 2 1 (PayoffPut 4) 0.5 3.6 0.06 0.2
           zero_samples (d_paths blank_device) 0 0); lia.
Defined.

Lemma lsm_price_discounted_exercise_instance :
  exists e : nat -> nat,
    (forall p, (p < 1)%nat -> (1 <= e p <= 2)%nat) /\
    lsm_price 2 1 (PayoffPut 4) 0.5 3.6 0.06 0.2 zero_samples blank_shared
      blank_device
    = sum_upto 1
        (fun p => exp (- (0.06) * 0.5) ^ e p
                  * payoff_value (PayoffPut 4)
                      (gbm_price 1 0.5 3.6 0.06 0.2 zero_samples (e p) p))
      / INR 1.
Proof.
  apply (lsm_price_discounted_exercise 2 1 (PayoffPut 4) 0.5 3.6 0.06 0.2
           zero_samples blank_shared blank_device).
  lia.
Defined.

Lemma do_run_keeps_prices_instance :
  d_paths
    (do_run_device 2 1 (PayoffPut 4) 0.5 3.6 0.06 0.2 zero_samples
       (main_d_cashflows 2 1) blank_shared blank_device)
    (0 * 1 + 0)%nat
  = gbm_price 1 0.5 3.6 0.06 0.2 zero_samples (0 + 1) 0.
Proof.
  apply (do_run_keeps_prices 2 1 (PayoffPut 4) 0.5 3.6 0.06 0.2 zero_samples
           blank_shared blank_device 0 0); lia.
Defined.



Lemma do_run_writes_within_buffers_instance :
  let dev' :=
    do_run_device 2 1 (PayoffPut 4) 0.5 3.6 0.06 0.2 zero_samples
      (main_d_cashflows 2 1) blank_shared blank_device in
  (forall q, (2 * 1 <= q)%nat -> d_paths dev' q = d_paths blank_device q) /\
  (forall q, (16 * 2 <= q)%nat -> d_svds dev' q = d_svds blank_device q) /\
  (forall t, (2 <= t)%nat ->
     d_all_out_of_the_money dev' t = d_all_out_of_the_money blank_device t) /\
  (forall q, (max_temp_storage <= q)%nat ->
     d_temp_storage dev' q = d_temp_storage blank_device q).
Proof.
  apply (do_run_writes_within_buffers 2 1 (PayoffPut 4) 0.5 3.6 0.06 0.2
           zero_samples blank_shared blank_device).
  - lia.
  - unfold max_temp_storage, MAX_GRID_SIZE. lia.
Defined.

Lemma partial_sums_beyond_temp_storage_instance :
  d_temp_storage
    (do_run_reduce (128 * max_temp_storage + 1) 0.5 0.06 0 blank_device)
    max_temp_storage
  = sum_upto 128
      (fun i =>
         if (max_temp_storage * 128 + i <? 128 * max_temp_storage + 1)%nat
         then d_paths blank_device (0 + (max_temp_storage * 128 + i))%nat
         else 0).
Proof.
  apply (partial_sums_beyond_temp_storage (128 * max_temp_storage + 1)
           0.5 0.06 0 blank_device max_temp_storage).
  - lia.
  - lia.
Defined.

Lemma assemble_R_first_row_normal_equations_instance :
  let R_ :=
    assemble_R 4 (make_double4 3 (9/4) (27/16) (81/64)) (fun _ => 3/4) in
  R_ 0%nat = sqrt (IZR 4) /\
  R_ 0%nat * R_ 0%nat = IZR 4 /\
  R_ 0%nat * R_ 1%nat = d4x (make_double4 3 (9/4) (27/16) (81/64)) /\
  R_ 0%nat * R_ 2%nat = d4y (make_double4 3 (9/4) (27/16) (81/64)).
Proof.
  apply (assemble_R_first_row_normal_equations 4
           (make_double4 3 (9/4) (27/16) (81/64)) (fun _ => 3/4)).
  lia.
Defined.

Lemma update_cashflow_kernel_rule_instance :
  let a :=
    launch 1 128
      (update_cashflow_kernel 128 1 1 (PayoffPut 1) 1 nan_beta 0 0 1)
      (fun _ => 0) in
  let immediate := payoff_value (PayoffPut 1) 0 in
  let continuation := continuation_estimate 1 nan_beta 0 in
  let exercise :=
    immediate > 1.0e-8 /\
    (exceeds immediate continuation \/ continuation = NaN) in
  (exercise -> a (1 + 0)%nat = immediate) /\
  (~ exercise -> a (1 + 0)%nat = 1 * 0).
Proof.
  apply (update_cashflow_kernel_rule 1 1 (PayoffPut 1) 1 nan_beta 0 1
           (fun _ => 0) 0); lia.
Defined.


Lemma read_options_value_missing_instance :
  read_options (fun _ => 0%Z) (fun _ => 0)
    (["-call"%string] ++ ["-paths"%string]) default_options
  = Undefined_behaviour.
Proof.
  apply (read_options_value_missing (fun _ => 0%Z) (fun _ => 0)
           ["-call"%string] "-paths"%string default_options
           (mkOptions 100 32 1 1.00 4.00 3.60 0.06 0.20 false)).
  - reflexivity.
  - unfold value_options. simpl. tauto.
Defined.


Lemma black_scholes_put_call_parity_instance :
  black_scholes_merton_call 1 4 3.6 0.06 0.2
  - black_scholes_merton_put 1 4 3.6 0.06 0.2
  = 3.6 - 4 * exp (- (0.06) * 1).
Proof.
  apply (black_scholes_put_call_parity 1 4 3.6 0.06 0.2); lra.
Defined.
